(** * MarketMakingGame: the server-side round engine (src/server/index.js)

    A shallow embedding of the socket.io server: the registries, the
    handlers of the client events, the call-auction matching of
    [processRoundBids], the ledger step [applyRiskFreeAndRecord], the
    settlement of [finalizeGame] and [computeSharpeRatio].

    Modelling conventions.
    - A JavaScript number is an exact rational ([Q]); [Math.sqrt] is a
      parameter of the development, so nothing is assumed about it.
      Rounding, NaN and the infinities of IEEE doubles are outside the model.
    - The plain objects used as dictionaries ([roomsData], [positions],
      [bids], [usernames], ...) are finite maps with string keys; [rooms] is
      a finite set.  [Object.entries] enumerates each own property once; the
      order of the enumeration changes neither the sorted prices nor the
      outcome of the matching loop ([sortBids_enumeration],
      [matchBids_enumeration]).  A list made from [Object.entries] is in the
      order of the map, not in the order of insertion; statements about such
      a list are made up to permutation.
    - A finite map holds the own properties of the object.  For a key that
      is the name of a member of [Object.prototype] the objects of the
      source differ from maps: reading finds the inherited member, and
      assigning to ["__proto__"] adds no property.  The handlers are the
      source's for the keys that are [ordinary]; the statements about
      registering and looking up a key that a client supplies say so.
    - Division is that of [Q], which is total; where the source divides by
      a valuation, the statements ask that valuation to be non-zero.
    - A handler maps the state to [Some (state', emitted events)]; [None]
      stands for an uncaught [TypeError].
    - Socket channel membership ([socket.join], [socket.leave]) and the
      heartbeat timers are left out; the expiry of a heartbeat timer is an
      event of its own, enabled at any time. *)

From Stdlib Require Import QArith Qround Lia Lqa Sorted Permutation.
From stdpp Require Import gmap strings list fin_maps.

(** ** JavaScript numbers and the operators the server uses *)

Definition Qlt_bool (x y : Q) : bool := negb (Qle_bool y x).

(** [Math.max(a, b)] *)
Definition Math_max (a b : Q) : Q := if Qle_bool a b then b else a.

(** [Math.ceil(x)] *)
Definition Math_ceil (x : Q) : Z := Qceiling x.

(** [x || d] on an integer-valued number: [0] is falsy. *)
Definition or_default (x d : Z) : Z := if (x =? 0)%Z then d else x.

(** [arr.reduce((a, b) => a + b, 0)] *)
Definition reduce_sum (l : list Q) : Q := fold_left Qplus l 0%Q.

(** [l[i]] for a signed index: [undefined] out of range. *)
Definition js_index {A} (l : list A) (i : Z) : option A :=
  if (i <? 0)%Z then None else l !! Z.to_nat i.

(** [!s] for a string-valued lookup: [undefined] and the empty string are
    falsy. *)
Definition truthy (o : option string) : option string :=
  match o with
  | Some s => if decide (s = "") then None else Some s
  | None => None
  end.

(** [Array.prototype.sort(cmp)]: the sort is stable, and [x] is placed after
    [y] exactly when [cmp(x, y) > 0]. *)
Fixpoint sort_insert {A} (cmp : A → A → Q) (x : A) (l : list A) : list A :=
  match l with
  | [] => [x]
  | y :: l' => if Qlt_bool 0 (cmp x y) then y :: sort_insert cmp x l' else x :: l
  end.

Definition js_sort {A} (cmp : A → A → Q) (l : list A) : list A :=
  foldr (sort_insert cmp) [] l.

(** ** Property names

    The names of the members of [Object.prototype].  An object literal
    inherits them: for such a name [obj[name]] is truthy without an own
    property, and [obj["__proto__"] = v] adds none. *)
Definition Object_prototype_names : list string :=
  ["__proto__"; "constructor"; "hasOwnProperty"; "isPrototypeOf";
   "propertyIsEnumerable"; "toLocaleString"; "toString"; "valueOf";
   "__defineGetter__"; "__defineSetter__"; "__lookupGetter__";
   "__lookupSetter__"].

(** The keys for which an object literal is a finite map. *)
Definition ordinary (key : string) : Prop := key ∉ Object_prototype_names.

(** ** Data model *)

Inductive PromptType := SellCall | BuyCall.

Global Instance PromptType_eq_dec : EqDecision PromptType.
Proof. solve_decision. Defined.

(** [{ cash, calls, portfolioHistory }], with the [sharpe] property that
    [broadcastPositionsAndSharpe] adds.  Every position the server creates
    carries a [portfolioHistory] array, so the [if (!pos.portfolioHistory)]
    guards never fire. *)
Record Position := mkPosition {
  cash : Q;
  calls : Z;
  portfolioHistory : list Q;
  sharpe : option Q
}.

(** Assignments to the properties of a position; [push_history] is
    [pos.portfolioHistory.push(v)]. *)
Definition set_cash_calls (c : Q) (n : Z) (pos : Position) : Position :=
  mkPosition c n (portfolioHistory pos) (sharpe pos).
Definition push_history (v : Q) (pos : Position) : Position :=
  mkPosition (cash pos) (calls pos) (portfolioHistory pos ++ [v]) (sharpe pos).
Definition set_sharpe (v : Q) (pos : Position) : Position :=
  mkPosition (cash pos) (calls pos) (portfolioHistory pos) (Some v).

(** [initRoomData]'s object.  [roundInterval] is never assigned and stays
    [null]; it is left out.  The assignments to the properties of the object
    are the [set_] functions below. *)
Record RoomData := mkRoomData {
  admin : string;
  usernames : gmap string string;
  started : bool;
  gameOver : bool;
  startTime : option Z;
  positions : gmap string Position;
  bids : gmap string Q;
  promptCount : Z;
  strikePrice : Q;
  currentPromptType : PromptType;
  marketPrice : Q
}.

Definition initRoomData (adminID : string) : RoomData :=
  {| admin := adminID; usernames := ∅; started := false; gameOver := false;
     startTime := None; positions := ∅; bids := ∅; promptCount := 0;
     strikePrice := 100; currentPromptType := SellCall; marketPrice := 0 |}.

Definition set_usernames (v : gmap string string) (d : RoomData) : RoomData :=
  mkRoomData (admin d) v (started d) (gameOver d) (startTime d) (positions d)
    (bids d) (promptCount d) (strikePrice d) (currentPromptType d) (marketPrice d).
Definition set_started (v : bool) (d : RoomData) : RoomData :=
  mkRoomData (admin d) (usernames d) v (gameOver d) (startTime d) (positions d)
    (bids d) (promptCount d) (strikePrice d) (currentPromptType d) (marketPrice d).
Definition set_gameOver (v : bool) (d : RoomData) : RoomData :=
  mkRoomData (admin d) (usernames d) (started d) v (startTime d) (positions d)
    (bids d) (promptCount d) (strikePrice d) (currentPromptType d) (marketPrice d).
Definition set_startTime (v : option Z) (d : RoomData) : RoomData :=
  mkRoomData (admin d) (usernames d) (started d) (gameOver d) v (positions d)
    (bids d) (promptCount d) (strikePrice d) (currentPromptType d) (marketPrice d).
Definition set_positions (v : gmap string Position) (d : RoomData) : RoomData :=
  mkRoomData (admin d) (usernames d) (started d) (gameOver d) (startTime d) v
    (bids d) (promptCount d) (strikePrice d) (currentPromptType d) (marketPrice d).
Definition set_bids (v : gmap string Q) (d : RoomData) : RoomData :=
  mkRoomData (admin d) (usernames d) (started d) (gameOver d) (startTime d)
    (positions d) v (promptCount d) (strikePrice d) (currentPromptType d)
    (marketPrice d).
Definition set_promptCount (v : Z) (d : RoomData) : RoomData :=
  mkRoomData (admin d) (usernames d) (started d) (gameOver d) (startTime d)
    (positions d) (bids d) v (strikePrice d) (currentPromptType d) (marketPrice d).
Definition set_currentPromptType (v : PromptType) (d : RoomData) : RoomData :=
  mkRoomData (admin d) (usernames d) (started d) (gameOver d) (startTime d)
    (positions d) (bids d) (promptCount d) (strikePrice d) v (marketPrice d).
Definition set_marketPrice (v : Q) (d : RoomData) : RoomData :=
  mkRoomData (admin d) (usernames d) (started d) (gameOver d) (startTime d)
    (positions d) (bids d) (promptCount d) (strikePrice d) (currentPromptType d) v.

(** The module-level registries. *)
Record State := mkState {
  rooms : gset string;
  adminToRoom : gmap string string;
  playerToRoom : gmap string string;
  roomToAdmin : gmap string string;
  roomsData : gmap string RoomData
}.

Definition initialState : State :=
  {| rooms := ∅; adminToRoom := ∅; playerToRoom := ∅; roomToAdmin := ∅;
     roomsData := ∅ |}.

Definition set_roomsData (v : gmap string RoomData) (st : State) : State :=
  mkState (rooms st) (adminToRoom st) (playerToRoom st) (roomToAdmin st) v.

(** [roomsData[room]] is a reference to a mutable object: every assignment to
    a property of [data] is an update of the entry of [room]. *)
Definition update_room (room : string) (d : RoomData) (st : State) : State :=
  set_roomsData (<[room := d]> (roomsData st)) st.

(** ** Events sent by the server *)

(** An entry of the [tradeResults] object: [{ executed, price? }]. *)
Record TradeResult := mkTradeResult {
  executed : bool;
  price : option Q
}.

(** An entry of the [finalResults] object. *)
Record FinalResult := mkFinalResult {
  res_username : option string;
  res_finalCash : Q;
  res_sharpe : Q;
  res_calls : Z;
  res_callIntrinsicValue : Q;
  res_portfolioHistory : list Q;
  res_finalStockPrice : Q
}.

Inductive ServerEvent :=
  | roomNameTaken
  | roomStartSuccess
  | roomExists
  | noSuchRoom
  | gameAlreadyStarted
  | usernameTaken
  | joinApproved
  | updateUserDisp (roster : list (string * string))
  | gameStartedPlayer
  | gameStartedAdmin
  | newTradePrompt (promptType : PromptType) (round : Z)
  | tradeResults (results : gmap string TradeResult)
  | positionsUpdated (broadcastPositions : gmap string (Position * Q))
  | finalResults (results : gmap string FinalResult)
  | roomClosed (room : string).

(** [socket.emit] / [io.to(socket.id).emit] reach the requester,
    [io.to(room).emit] the room's channel. *)
Inductive Emit :=
  | ToSocket (ev : ServerEvent)
  | ToRoom (room : string) (ev : ServerEvent).

(** ** The engine *)

Section Engine.

(** [Math.sqrt] *)
Variable Math_sqrt : Q → Q.

(** *** computeSharpeRatio *)

(** The [for] loop that fills [returns]:
    [(history[i] - history[i - 1]) / history[i - 1]] for [1 <= i < length].
    The division is that of [Q]; it is the source's when [history[i - 1]] is
    not zero. *)
Definition stepReturns (history : list Q) : list Q :=
  (λ i, (nth i history 0 - nth (i - 1) history 0) / nth (i - 1) history 0)%Q
    <$> seq 1 (length history - 1).

Definition STDEV_THRESHOLD : Q := 1 # 10000000000.

Definition computeSharpeRatio (history : list Q) : Q :=
  if (length history <? 2)%nat then 0%Q
  else
    let returns := stepReturns history in
    let avgR := (reduce_sum returns / inject_Z (Z.of_nat (length returns)))%Q in
    let rfStep := (0.05 / 60)%Q in
    let sqDiffs := (λ r, (r - avgR) ^ 2)%Q <$> returns in
    let variance :=
      (reduce_sum sqDiffs
         / inject_Z (or_default (Z.of_nat (length returns) - 1) 1))%Q in
    let stdev := Math_sqrt variance in
    if Qlt_bool stdev STDEV_THRESHOLD then 0%Q
    else if Qeq_bool stdev 0 then 0%Q
    else ((avgR - rfStep) / stdev)%Q.

(** *** applyRiskFreeAndRecord *)

(** The callback of [Object.entries(data.positions).forEach]: compound the
    cash, mark the calls to [marketPrice], record the value. *)
Definition recordPosition (marketPrice : Q) (pos : Position) : Position :=
  let rfStep := (0.05 / 60)%Q in
  let cash' := (cash pos * (1 + rfStep))%Q in
  let portfolioVal := (cash' + inject_Z (calls pos) * marketPrice)%Q in
  push_history portfolioVal (set_cash_calls cash' (calls pos) pos).

Definition applyRiskFreeAndRecord (room : string) (st : State) : State :=
  match roomsData st !! room with
  | None => st
  | Some data =>
      update_room room
        (set_positions (recordPosition (marketPrice data) <$> positions data) data) st
  end.

(** *** broadcastPositionsAndSharpe *)

Definition recordSharpe (pos : Position) : Position :=
  set_sharpe (computeSharpeRatio (portfolioHistory pos)) pos.

Definition broadcastPositionsAndSharpe (room : string) (st : State)
  : option (State * list Emit) :=
  let st1 := applyRiskFreeAndRecord room st in
  data ← roomsData st1 !! room;
  let positions' := recordSharpe <$> positions data in
  let broadcastPositions := (λ pos, (pos, marketPrice data)) <$> positions' in
  Some (update_room room (set_positions positions' data) st1,
        [ToRoom room (positionsUpdated broadcastPositions)]).

(** *** processRoundBids *)

(** The comparators [(a, b) => b[1] - a[1]] and [(a, b) => a[1] - b[1]]. *)
Definition cmpDescending (a b : string * Q) : Q := (b.2 - a.2)%Q.
Definition cmpAscending (a b : string * Q) : Q := (a.2 - b.2)%Q.

Definition sortBids (promptType : PromptType) (allBids : list (string * Q))
  : list (string * Q) :=
  match promptType with
  | SellCall => js_sort cmpDescending allBids
  | BuyCall => js_sort cmpAscending allBids
  end.

Definition medianIndexOf (n : nat) : Z :=
  (Math_ceil (inject_Z (Z.of_nat n) / 2) - 1)%Z.

(** [execute] in the callback of [sorted.forEach]. *)
Definition executes (promptType : PromptType) (medianPrice bidPx : Q) : bool :=
  match promptType with
  | SellCall => Qle_bool medianPrice bidPx
  | BuyCall => Qle_bool bidPx medianPrice
  end.

Definition emptyPosition : Position := mkPosition 0 0 [] None.

(** [pos.cash -= bidPx; pos.calls += 1] or [pos.cash += bidPx; pos.calls -= 1] *)
Definition tradePosition (promptType : PromptType) (bidPx : Q) (pos : Position)
  : Position :=
  match promptType with
  | SellCall => set_cash_calls (cash pos - bidPx)%Q (calls pos + 1)%Z pos
  | BuyCall => set_cash_calls (cash pos + bidPx)%Q (calls pos - 1)%Z pos
  end.

(** The callback of [sorted.forEach], on the pair of [data.positions] and
    [tradeResults]. *)
Definition executeBid (promptType : PromptType) (medianPrice : Q)
    (acc : gmap string Position * gmap string TradeResult) (bid : string * Q)
  : gmap string Position * gmap string TradeResult :=
  let '(userID, bidPx) := bid in
  if executes promptType medianPrice bidPx then
    let pos := default emptyPosition (acc.1 !! userID) in
    (<[userID := tradePosition promptType bidPx pos]> acc.1,
     <[userID := mkTradeResult true (Some bidPx)]> acc.2)
  else
    (acc.1, <[userID := mkTradeResult false None]> acc.2).

Definition matchBids (promptType : PromptType) (medianPrice : Q)
    (sorted : list (string * Q)) (positions : gmap string Position)
  : gmap string Position * gmap string TradeResult :=
  fold_left (executeBid promptType medianPrice) sorted (positions, ∅).

Definition processRoundBids (room : string) (st : State)
  : option (State * list Emit) :=
  data ← roomsData st !! room;
  let allBids := map_to_list (bids data) in
  if (length allBids =? 0)%nat then broadcastPositionsAndSharpe room st
  else
    let sorted := sortBids (currentPromptType data) allBids in
    let medianIndex := medianIndexOf (length sorted) in
    '(_, medianPrice) ← js_index sorted medianIndex;
    let '(positions', results) :=
      matchBids (currentPromptType data) medianPrice sorted (positions data) in
    let st1 :=
      update_room room (set_marketPrice medianPrice (set_positions positions' data)) st in
    '(st2, out) ← broadcastPositionsAndSharpe room st1;
    data2 ← roomsData st2 !! room;
    Some (update_room room (set_bids ∅ data2) st2,
          ToRoom room (tradeResults results) :: out).

(** *** destroyRoom

    [delete roomsData[room]] and the other deletions remove own properties;
    the entries are those of ordinary keys. *)

Definition destroyRoom (room : option string) (adminID : string) (st : State)
  : State * list Emit :=
  match truthy room with
  | None => (st, [])
  | Some room =>
      match roomsData st !! room with
      | None => (st, [])
      | Some data =>
          let idList := (map_to_list (usernames data)).*1 in
          ({| rooms := rooms st ∖ {[room]};
              adminToRoom := delete adminID (adminToRoom st);
              playerToRoom := fold_left (λ m id, delete id m) idList (playerToRoom st);
              roomToAdmin := delete room (roomToAdmin st);
              roomsData := delete room (roomsData st) |},
           [ToRoom room (roomClosed room)])
      end
  end.

(** *** Handlers of the client events *)

(** [socket.on("room-start", (room, userID) => ...)]; the three assignments
    add the entries of an ordinary [room] and [userID]. *)
Definition roomStart (room userID : string) (st : State)
  : option (State * list Emit) :=
  if decide (room = "") then Some (st, [])
  else if decide (room ∈ rooms st) then Some (st, [ToSocket roomNameTaken])
  else
    Some ({| rooms := {[room]} ∪ rooms st;
             adminToRoom := <[userID := room]> (adminToRoom st);
             playerToRoom := playerToRoom st;
             roomToAdmin := <[room := userID]> (roomToAdmin st);
             roomsData := <[room := initRoomData userID]> (roomsData st) |},
          [ToSocket roomStartSuccess]).

(** The callback of the [forEach] in [startGame]:
    [pos.portfolioHistory.push(pos.cash + pos.calls * data.marketPrice)]. *)
Definition recordInitial (marketPrice : Q) (pos : Position) : Position :=
  push_history (cash pos + inject_Z (calls pos) * marketPrice)%Q pos.

(** [socket.on("startGame", (adminID) => ...)]; [now] is [Date.now()].  The
    prompt re-announced after one second by [setTimeout] is an emission of a
    later turn and changes no state. *)
Definition startGame (adminID : string) (now : Z) (st : State)
  : option (State * list Emit) :=
  match truthy (adminToRoom st !! adminID) with
  | None => Some (st, [])
  | Some room =>
      match roomsData st !! room with
      | None => Some (st, [])
      | Some data =>
          if started data then Some (st, [])
          else
            let data1 := set_startTime (Some now) (set_started true data) in
            let data2 :=
              set_positions (recordInitial (marketPrice data1) <$> positions data1)
                data1 in
            let data3 := set_currentPromptType SellCall (set_promptCount 1 data2) in
            Some (update_room room data3 st,
                  [ToRoom room gameStartedPlayer; ToSocket gameStartedAdmin;
                   ToRoom room
                     (newTradePrompt (currentPromptType data3) (promptCount data3))])
      end
  end.

(** [data.promptCount % 2 === 0 ? "sell-call" : "buy-call"] *)
Definition promptFor (count : Z) : PromptType :=
  if (Z.rem count 2 =? 0)%Z then SellCall else BuyCall.

(** [data.promptCount++; data.currentPromptType = ...] *)
Definition advancePrompt (data : RoomData) : RoomData :=
  let data1 := set_promptCount (promptCount data + 1) data in
  set_currentPromptType (promptFor (promptCount data1)) data1.

(** [socket.on("roundUpdate", (adminID) => ...)]; [adminToRoom[adminID]] is
    the own entry of an ordinary [adminID]. *)
Definition roundUpdate (adminID : string) (st : State)
  : option (State * list Emit) :=
  match truthy (adminToRoom st !! adminID) with
  | None => Some (st, [])
  | Some room =>
      '(st1, out) ← processRoundBids room st;
      data ← roomsData st1 !! room;
      let data' := advancePrompt data in
      Some (update_room room data' st1,
            out ++ [ToRoom room
                      (newTradePrompt (currentPromptType data') (promptCount data'))])
  end.

(** [socket.on('tryRoom', (room) => ...)] *)
Definition tryRoom (room : string) (st : State) : option (State * list Emit) :=
  if decide (room ∈ rooms st) then Some (st, [ToSocket roomExists])
  else Some (st, [ToSocket noSuchRoom]).

(** [socket.on("join-room", (room, username, userID) => ...)]; the two
    assignments and the test of [data.positions[userID]] are those of an
    ordinary [userID].  The roster is sent as [Object.entries] lists it, here
    in the order of the map. *)
Definition joinRoom (room username userID : string) (st : State)
  : option (State * list Emit) :=
  if decide (username = "" ∨ room ∉ rooms st) then Some (st, [ToSocket noSuchRoom])
  else
    match roomsData st !! room with
    | None => Some (st, [])
    | Some data =>
        if started data && gameOver data then Some (st, [ToSocket gameAlreadyStarted])
        else if decide (username ∈ (map_to_list (usernames data)).*2) then
          Some (st, [ToSocket usernameTaken])
        else
          let data1 := set_usernames (<[userID := username]> (usernames data)) data in
          let data2 :=
            match positions data1 !! userID with
            | Some _ => data1
            | None =>
                set_positions (<[userID := mkPosition 100 0 [] None]> (positions data1))
                  data1
            end in
          Some ({| rooms := rooms st;
                   adminToRoom := adminToRoom st;
                   playerToRoom := <[userID := room]> (playerToRoom st);
                   roomToAdmin := roomToAdmin st;
                   roomsData := <[room := data2]> (roomsData st) |},
                [ToRoom room (updateUserDisp (map_to_list (usernames data2)));
                 ToSocket joinApproved])
    end.

(** [socket.on("submitBid", (bidPrice, userID) => ...)] *)
Definition submitBid (bidPrice : Q) (userID : string) (st : State)
  : option (State * list Emit) :=
  match truthy (playerToRoom st !! userID) with
  | None => Some (st, [])
  | Some room =>
      match roomsData st !! room with
      | None => Some (st, [])
      | Some data =>
          if negb (started data) || gameOver data then Some (st, [])
          else
            Some (update_room room (set_bids (<[userID := bidPrice]> (bids data)) data) st,
                  [])
      end
  end.

(** [finalizeGame]: [const strike = 100], the intrinsic value of a call and
    the body of the loop over [Object.entries(data.positions)]. *)
Definition strike : Q := 100.

Definition callIntrinsicValue (finalPx : Q) : Q := Math_max 0 (finalPx - strike).

Definition finalCash (finalPx : Q) (pos : Position) : Q :=
  (cash pos + inject_Z (calls pos) * callIntrinsicValue finalPx)%Q.

Definition settlePosition (finalPx : Q) (pos : Position) : Position :=
  push_history (finalCash finalPx pos) pos.

Definition settleResult (usernames : gmap string string) (finalPx : Q)
    (uid : string) (pos : Position) : FinalResult :=
  let pos' := settlePosition finalPx pos in
  {| res_username := usernames !! uid;
     res_finalCash := finalCash finalPx pos;
     res_sharpe := computeSharpeRatio (portfolioHistory pos');
     res_calls := calls pos';
     res_callIntrinsicValue := callIntrinsicValue finalPx;
     res_portfolioHistory := portfolioHistory pos';
     res_finalStockPrice := finalPx |}.

(** [socket.on("finalizeGame", (adminID, finalPx) => ...)] *)
Definition finalizeGame (adminID : string) (finalPx : Q) (st : State)
  : option (State * list Emit) :=
  match truthy (adminToRoom st !! adminID) with
  | None => Some (st, [])
  | Some room =>
      match roomsData st !! room with
      | None => Some (st, [])
      | Some data =>
          let data1 := set_gameOver true data in
          let results :=
            map_imap (λ uid pos, Some (settleResult (usernames data1) finalPx uid pos))
              (positions data1) in
          let data2 :=
            set_positions (settlePosition finalPx <$> positions data1) data1 in
          Some (update_room room data2 st, [ToRoom room (finalResults results)])
      end
  end.

(** [socket.on("disconnect", ...)], for the socket of [userID] *)
Definition disconnect (userID : string) (st : State) : option (State * list Emit) :=
  match truthy (adminToRoom st !! userID) with
  | None => Some (st, [])
  | Some room => Some (destroyRoom (Some room) userID st)
  end.

(** The callback armed by [setHeartbeatTimeout(ID)] *)
Definition heartbeatTimeout (ID : string) (st : State) : option (State * list Emit) :=
  Some (destroyRoom (adminToRoom st !! ID) ID st).

(** *** The server as a transition system *)

Inductive ClientEvent :=
  | RoomStart (room userID : string)
  | StartGame (adminID : string) (now : Z)
  | RoundUpdate (adminID : string)
  | TryRoom (room : string)
  | JoinRoom (room username userID : string)
  | SubmitBid (bidPrice : Q) (userID : string)
  | FinalizeGame (adminID : string) (finalPx : Q)
  | Disconnect (userID : string)
  | HeartbeatTimeout (ID : string).

Definition handle (ev : ClientEvent) (st : State) : option (State * list Emit) :=
  match ev with
  | RoomStart room userID => roomStart room userID st
  | StartGame adminID now => startGame adminID now st
  | RoundUpdate adminID => roundUpdate adminID st
  | TryRoom room => tryRoom room st
  | JoinRoom room username userID => joinRoom room username userID st
  | SubmitBid bidPrice userID => submitBid bidPrice userID st
  | FinalizeGame adminID finalPx => finalizeGame adminID finalPx st
  | Disconnect userID => disconnect userID st
  | HeartbeatTimeout ID => heartbeatTimeout ID st
  end.

(** The states the server can be in: those that a sequence of events, each
    handled to completion, leads to from the empty registries. *)
Inductive reachable : State → Prop :=
  | reachable_init : reachable initialState
  | reachable_step st ev st' out :
      reachable st → handle ev st = Some (st', out) → reachable st'.

(** The arguments that the handler of an event uses as property names are
    ordinary.  ([tryRoom] and the room of [join-room] are looked up in the
    set [rooms]; a username is never a property name.) *)
Definition ordinaryEvent (ev : ClientEvent) : Prop :=
  match ev with
  | RoomStart room userID => ordinary room ∧ ordinary userID
  | StartGame adminID _ => ordinary adminID
  | RoundUpdate adminID => ordinary adminID
  | TryRoom _ => True
  | JoinRoom _ _ userID => ordinary userID
  | SubmitBid _ userID => ordinary userID
  | FinalizeGame adminID _ => ordinary adminID
  | Disconnect userID => ordinary userID
  | HeartbeatTimeout ID => ordinary ID
  end.

(** The states the server is in when every event so far was an ordinary
    one: in these the registries of the source are the finite maps of the
    state. *)
Inductive served : State → Prop :=
  | served_init : served initialState
  | served_step st ev st' out :
      served st → ordinaryEvent ev → handle ev st = Some (st', out) →
      served st'.

End Engine.

(** ** Running the server *)

(** The events of a list handled one after the other. *)
Fixpoint run (Math_sqrt : Q → Q) (evs : list ClientEvent) (st : State)
  : option State :=
  match evs with
  | [] => Some st
  | ev :: evs' =>
      match handle Math_sqrt ev st with
      | Some (st', _) => run Math_sqrt evs' st'
      | None => None
      end
  end.

(** A square root for running the examples: the root truncated to ten
    decimal places. *)
Definition sqrt_digits (x : Q) : Q :=
  Z.sqrt (Qfloor (x * inject_Z (10 ^ 20))) # 10000000000.

(** ** Vocabulary of the statements *)

(** *** Bids and matching *)

(** Bids in descending and in ascending order of price. *)
Definition price_ge (a b : string * Q) : Prop := (b.2 <= a.2)%Q.
Definition price_le (a b : string * Q) : Prop := (a.2 <= b.2)%Q.

(** Two bids at the same price, whoever made them. *)
Definition same_price (a b : string * Q) : Prop := (a.2 == b.2)%Q.

(** The bids of a room in the order [processRoundBids] visits them. *)
Definition sortedBids (data : RoomData) : list (string * Q) :=
  sortBids (currentPromptType data) (map_to_list (bids data)).

(** The clearing price of the bids a room holds: none without bids. *)
Definition clearingPrice (data : RoomData) : option Q :=
  snd <$> js_index (sortedBids data) (medianIndexOf (length (sortedBids data))).

(** What the matching step makes of one player's position and what it
    reports for that player, given the player's bid (if any) and the clearing
    price. *)
Definition matchedPosition (promptType : PromptType) (clearing : Q)
    (bid : option Q) (pos : option Position) : option Position :=
  match bid with
  | Some bidPx =>
      if executes promptType clearing bidPx
      then Some (tradePosition promptType bidPx (default emptyPosition pos))
      else pos
  | None => pos
  end.

Definition reportedResult (promptType : PromptType) (clearing bidPx : Q)
  : TradeResult :=
  if executes promptType clearing bidPx
  then mkTradeResult true (Some bidPx) else mkTradeResult false None.

(** *** Round advances *)

(** The per-round fraction of the 5% annual risk-free rate: sixty rounds to
    the year. *)
Definition riskFreeStepRate : Q := 0.05 / 60.

(** The positions after the valuation step and the Sharpe step at the price
    [marketPrice]. *)
Definition valued (Math_sqrt : Q → Q) (marketPrice : Q)
    (positions : gmap string Position) : gmap string Position :=
  recordSharpe Math_sqrt <$> (recordPosition marketPrice <$> positions).

(** The market price and the positions with which a round advance enters the
    valuation step: the clearing price and the matched positions, or, without
    bids, the price and the positions of the room as they are. *)
Definition settledRound (data : RoomData) : Q * gmap string Position :=
  match clearingPrice data with
  | Some clearing =>
      (clearing,
       (matchBids (currentPromptType data) clearing (sortedBids data)
          (positions data)).1)
  | None => (marketPrice data, positions data)
  end.

(** The room a round advance leaves behind. *)
Definition advancedRoom (Math_sqrt : Q → Q) (data : RoomData) : RoomData :=
  advancePrompt
    (set_bids ∅
       (set_positions
          (valued Math_sqrt (settledRound data).1 (settledRound data).2)
          (set_marketPrice (settledRound data).1 data))).

(** The room in round [k] of the game that begins in [st1], the state in
    which [startGame] left the room of [adminID]: the room after [k - 1]
    round advances.  Its prompt type is the direction of round [k]. *)
Definition roundRoom (Math_sqrt : Q → Q) (adminID room : string)
    (st1 : State) (k : nat) : option RoomData :=
  st ← run Math_sqrt (replicate (k - 1) (RoundUpdate adminID)) st1;
  roomsData st !! room.

Definition roundDirection (Math_sqrt : Q → Q) (adminID room : string)
    (st1 : State) (k : nat) : option PromptType :=
  currentPromptType <$> roundRoom Math_sqrt adminID room st1 k.

(** The directions of the rounds [k] and [k + 1] differ, for every round
    from [first] on. *)
Definition alternates_from (first : nat) (direction : nat → option PromptType)
  : Prop :=
  ∀ k, (first ≤ k)%nat → direction k ≠ direction (S k).

(** *** Rooms, players and histories *)

(** The position of a player in a room. *)
Definition positionOf (st : State) (room u : string) : option Position :=
  data ← roomsData st !! room; positions data !! u.



(** Every position of [d] is still a position of [d'], and its history in
    [d] is an initial segment of its history in [d']. *)
Definition room_extends (d d' : RoomData) : Prop :=
  ∀ u pos,
    positions d !! u = Some pos →
    ∃ pos',
      positions d' !! u = Some pos'
      ∧ portfolioHistory pos `prefix_of` portfolioHistory pos'.

(** The same, for every room object that the two states share. *)
Definition history_extends (st st' : State) : Prop :=
  ∀ room d d',
    roomsData st !! room = Some d → roomsData st' !! room = Some d' →
    room_extends d d'.

(** [rooms] holds the name of every room that has a room object. *)
Definition registered (st : State) : Prop :=
  ∀ room, room ∉ rooms st → roomsData st !! room = None.

(** The four shapes of what a handler does to the room objects: nothing; an
    update of one room that keeps and extends its positions; a new room under
    a name that is not in [rooms]; the removal of a room. *)
Inductive effect (st st' : State) : Prop :=
  | effect_none :
      rooms st' = rooms st → roomsData st' = roomsData st → effect st st'
  | effect_room room d d' :
      roomsData st !! room = Some d → room_extends d d' →
      rooms st' = rooms st → roomsData st' = <[room := d']> (roomsData st) →
      effect st st'
  | effect_open room d' :
      room ∉ rooms st →
      rooms st' = {[room]} ∪ rooms st →
      roomsData st' = <[room := d']> (roomsData st) →
      effect st st'
  | effect_close room :
      rooms st' = rooms st ∖ {[room]} →
      roomsData st' = delete room (roomsData st) →
      effect st st'.

(** The registries agree with each other: a player mapped to a room is in
    the roster of that room's object; everybody in a roster has a position;
    everybody with a pending bid is in the roster. *)
Record consistent (st : State) : Prop := {
  consistent_registered : registered st;
  consistent_seated :
    ∀ u room,
      playerToRoom st !! u = Some room →
      ∃ data, roomsData st !! room = Some data ∧ u ∈ dom (usernames data);
  consistent_positions :
    ∀ room data,
      roomsData st !! room = Some data →
      dom (usernames data) ⊆ dom (positions data);
  consistent_bids :
    ∀ room data,
      roomsData st !! room = Some data →
      dom (bids data) ⊆ dom (usernames data)
}.

(** ** The Sharpe ratio in the words of the specification

    For a valuation history [v_0 .. v_m]: the step returns
    [r_i = (v_i - v_{i-1}) / v_{i-1}], their mean, the variance with the
    divisor [max (count - 1) 1], and the ratio
    [(meanReturn - riskFreeStepRate) / stdev], which is [0] for a history of
    fewer than two points and for a standard deviation below [epsilon].
    The returns are defined when every valuation that is divided by, that
    is every valuation but the last, is not zero. *)
Module SharpeSpec.

Fixpoint stepReturns (v : list Q) : list Q :=
  match v with
  | [] => []
  | v0 :: rest =>
      match rest with
      | [] => []
      | v1 :: _ => ((v1 - v0) / v0)%Q :: stepReturns rest
      end
  end.

(** The sum of the numbers of a list. *)
Fixpoint total (l : list Q) : Q :=
  match l with
  | [] => 0%Q
  | x :: l' => (x + total l')%Q
  end.

Definition meanReturn (returns : list Q) : Q :=
  (total returns / inject_Z (Z.of_nat (length returns)))%Q.

Definition variance (returns : list Q) : Q :=
  (total ((λ r, (r - meanReturn returns) * (r - meanReturn returns))%Q
            <$> returns)
     / inject_Z (Z.max (Z.of_nat (length returns) - 1) 1))%Q.

Definition epsilon : Q := 1 # 10000000000.

Definition sharpe (sqrt : Q → Q) (v : list Q) : Q :=
  if (length v <? 2)%nat then 0%Q
  else
    let returns := stepReturns v in
    let stdev := sqrt (variance returns) in
    if Qlt_bool stdev epsilon then 0%Q
    else ((meanReturn returns - riskFreeStepRate) / stdev)%Q.


End SharpeSpec.

(** ** Sample rooms *)

(** A room with three players who each hold the starting position. *)
Definition roster3 : gmap string string :=
  {[ "A" := "alice"; "B" := "bob"; "C" := "carol" ]}.

Definition opening (history : list Q) : Position := mkPosition 100 0 history None.

Definition room3 (promptType : PromptType) (round : Z) (bids : gmap string Q)
  : RoomData :=
  {| admin := "adm"; usernames := roster3; started := true; gameOver := false;
     startTime := Some 0%Z;
     positions := {[ "A" := opening [100%Q]; "B" := opening [100%Q];
                     "C" := opening [100%Q] ]};
     bids := bids; promptCount := round; strikePrice := 100;
     currentPromptType := promptType; marketPrice := 0 |}.

Definition state3 (data : RoomData) : State :=
  {| rooms := {[ "r1" ]};
     adminToRoom := {[ "adm" := "r1" ]};
     playerToRoom := {[ "A" := "r1"; "B" := "r1"; "C" := "r1" ]};
     roomToAdmin := {[ "r1" := "adm" ]};
     roomsData := {[ "r1" := data ]} |}.

(** The events that open the room, seat the three players and start the
    game. *)
Definition opening_events : list ClientEvent :=
  [RoomStart "r1" "adm"; JoinRoom "r1" "alice" "A"; JoinRoom "r1" "bob" "B";
   JoinRoom "r1" "carol" "C"; StartGame "adm" 0].

(** A round in which nobody has bid. *)
Definition quiet_round : State := state3 (room3 SellCall 1 ∅).

(** Round 1 with the bids A:12, B:10, C:8. *)
Definition sell_bids : gmap string Q := {[ "A" := 12%Q; "B" := 10%Q; "C" := 8%Q ]}.
Definition sell_round : State := state3 (room3 SellCall 1 sell_bids).

(** A sell-call round in which A and B have bid and C has not. *)
Definition partial_bids : gmap string Q := {[ "A" := 12%Q; "B" := 10%Q ]}.
Definition partial_round : State := state3 (room3 SellCall 1 partial_bids).

(** A buy-call round with the bids A:95, B:98, C:101. *)
Definition buy_bids : gmap string Q := {[ "A" := 95%Q; "B" := 98%Q; "C" := 101%Q ]}.
Definition buy_round : State := state3 (room3 BuyCall 3 buy_bids).

(** The three-player room in which A holds two calls and 50 in cash. *)
Definition holder_room : RoomData :=
  set_positions
    (<["A" := mkPosition 50 2 [100%Q; 110%Q] None]> (positions (room3 BuyCall 3 ∅)))
    (room3 BuyCall 3 ∅).
Definition holder_round : State := state3 holder_room.

(** The three-player room after the game is finalized at the price 100, in
    round 1 and without bids. *)
Definition finished_room : RoomData :=
  set_positions (settlePosition 100 <$> positions (room3 SellCall 1 ∅))
    (set_gameOver true (room3 SellCall 1 ∅)).
Definition finished_game : State := state3 finished_room.

(** Two rooms in the lobby, opened by two admins. *)
Definition two_lobbies : State :=
  {| rooms := {[ "r1"; "r2" ]};
     adminToRoom := {[ "adm" := "r1"; "adm2" := "r2" ]};
     playerToRoom := ∅;
     roomToAdmin := {[ "r1" := "adm"; "r2" := "adm2" ]};
     roomsData := {[ "r1" := initRoomData "adm"; "r2" := initRoomData "adm2" ]} |}.

(** * The handlers as transitions of the registries

    What each handler does to the room object it works on, and the shapes of
    the steps of the server. *)

(** The room object [startGame] leaves behind. *)
Definition startedRoom (now : Z) (data : RoomData) : RoomData :=
  let data1 := set_startTime (Some now) (set_started true data) in
  set_currentPromptType SellCall
    (set_promptCount 1
       (set_positions (recordInitial (marketPrice data1) <$> positions data1)
          data1)).

(** The room object an accepted [submitBid] leaves behind. *)
Definition bidRoom (bidPrice : Q) (userID : string) (data : RoomData) : RoomData :=
  set_bids (<[userID := bidPrice]> (bids data)) data.

(** The room object [finalizeGame] leaves behind. *)
Definition finalizedRoom (finalPx : Q) (data : RoomData) : RoomData :=
  set_positions (settlePosition finalPx <$> positions data) (set_gameOver true data).

(** The room object an approved [join-room] leaves behind. *)
Definition joinedRoom (username userID : string) (data : RoomData) : RoomData :=
  let data1 := set_usernames (<[userID := username]> (usernames data)) data in
  match positions data1 !! userID with
  | Some _ => data1
  | None =>
      set_positions (<[userID := mkPosition 100 0 [] None]> (positions data1)) data1
  end.

(** The registries after an approved [join-room], after a successful
    [room-start] and after [destroyRoom] has removed a room. *)
Definition joinedState (room username userID : string) (data : RoomData)
    (st : State) : State :=
  {| rooms := rooms st;
     adminToRoom := adminToRoom st;
     playerToRoom := <[userID := room]> (playerToRoom st);
     roomToAdmin := roomToAdmin st;
     roomsData := <[room := joinedRoom username userID data]> (roomsData st) |}.

Definition openedState (room userID : string) (st : State) : State :=
  {| rooms := {[room]} ∪ rooms st;
     adminToRoom := <[userID := room]> (adminToRoom st);
     playerToRoom := playerToRoom st;
     roomToAdmin := <[room := userID]> (roomToAdmin st);
     roomsData := <[room := initRoomData userID]> (roomsData st) |}.

Definition closedState (room adminID : string) (data : RoomData) (st : State)
  : State :=
  {| rooms := rooms st ∖ {[room]};
     adminToRoom := delete adminID (adminToRoom st);
     playerToRoom :=
       fold_left (λ m id, delete id m) (map_to_list (usernames data)).*1
         (playerToRoom st);
     roomToAdmin := delete room (roomToAdmin st);
     roomsData := delete room (roomsData st) |}.

(** The steps of the server: every handled event is one of these. *)
Inductive transition (Math_sqrt : Q → Q) (st : State) : State → Prop :=
  | tr_none : transition Math_sqrt st st
  | tr_open room userID :
      room ≠ "" → room ∉ rooms st →
      transition Math_sqrt st (openedState room userID st)
  | tr_start adminID room data now :
      truthy (adminToRoom st !! adminID) = Some room →
      roomsData st !! room = Some data → started data = false →
      transition Math_sqrt st (update_room room (startedRoom now data) st)
  | tr_advance adminID room data :
      truthy (adminToRoom st !! adminID) = Some room →
      roomsData st !! room = Some data →
      transition Math_sqrt st (update_room room (advancedRoom Math_sqrt data) st)
  | tr_join room username userID data :
      username ≠ "" → room ∈ rooms st → roomsData st !! room = Some data →
      started data && gameOver data = false →
      username ∉ (map_to_list (usernames data)).*2 →
      transition Math_sqrt st (joinedState room username userID data st)
  | tr_bid bidPrice userID room data :
      truthy (playerToRoom st !! userID) = Some room →
      roomsData st !! room = Some data →
      started data = true → gameOver data = false →
      transition Math_sqrt st (update_room room (bidRoom bidPrice userID data) st)
  | tr_final adminID room data finalPx :
      truthy (adminToRoom st !! adminID) = Some room →
      roomsData st !! room = Some data →
      transition Math_sqrt st (update_room room (finalizedRoom finalPx data) st)
  | tr_close adminID room data :
      truthy (adminToRoom st !! adminID) = Some room →
      roomsData st !! room = Some data →
      transition Math_sqrt st (closedState room adminID data st).

(** The registries name the same rooms, and every admin is mapped to a room
    object that has it as its [admin]. *)
Record wellformed (st : State) : Prop := {
  wf_rooms : ∀ room, room ∈ rooms st ↔ is_Some (roomsData st !! room);
  wf_room_names : "" ∉ rooms st;
  wf_admin_owner :
    ∀ adminID room,
      adminToRoom st !! adminID = Some room →
      ∃ data, roomsData st !! room = Some data ∧ admin data = adminID;
  wf_roomToAdmin :
    ∀ room, roomToAdmin st !! room = admin <$> roomsData st !! room
}.

(** A registered room to which no admin is mapped. *)
Definition adminless (st : State) (room : string) : Prop :=
  room ∈ rooms st ∧ ∀ adminID, adminToRoom st !! adminID ≠ Some room.

(** What every room object satisfies in every state the server reaches. *)
Record room_invariant (d : RoomData) : Prop := {
  inv_lobby_bids : started d = false → bids d = ∅;
  inv_lobby_price : started d = false → marketPrice d = 0%Q;
  inv_lobby_calls :
    started d = false → ∀ u pos, positions d !! u = Some pos → calls pos = 0%Z;
  inv_counter : (0 ≤ promptCount d)%Z;
  inv_counter_started : started d = true → (1 ≤ promptCount d)%Z;
  inv_direction :
    currentPromptType d
    = if started d && (promptCount d =? 1)%Z then SellCall
      else promptFor (promptCount d);
  inv_calls :
    started d = true →
    ∀ u pos, positions d !! u = Some pos →
             (Z.abs (calls pos) ≤ promptCount d - 1)%Z;
  inv_roster_inj :
    ∀ u1 u2 name,
      usernames d !! u1 = Some name → usernames d !! u2 = Some name → u1 = u2;
  inv_roster_names : ∀ u, usernames d !! u ≠ Some ""
}.

(** * Sessions and reconnection *)

(** ** src/server/sessionStore.js

    [this.sessions] is a [Map]: its entries are kept in the order in which
    their keys were first set, and setting a key that is there replaces the
    value in place. *)
Module InMemorySessionStore.
Section Store.
Context {Data : Type}.

Definition t : Type := list (string * Data).

(** [new Map()] *)
Definition empty : t := [].

(** [Map.prototype.set], [Map.prototype.get] and [Map.prototype.delete] *)
Fixpoint Map_set (key : string) (value : Data) (m : t) : t :=
  match m with
  | [] => [(key, value)]
  | (k, v) :: m' =>
      if decide (k = key) then (key, value) :: m' else (k, v) :: Map_set key value m'
  end.

Fixpoint Map_get (key : string) (m : t) : option Data :=
  match m with
  | [] => None
  | (k, v) :: m' => if decide (k = key) then Some v else Map_get key m'
  end.

Fixpoint Map_delete (key : string) (m : t) : t :=
  match m with
  | [] => []
  | (k, v) :: m' => if decide (k = key) then m' else (k, v) :: Map_delete key m'
  end.

Definition saveSession (sessionID : string) (data : Data) (sessions : t) : t :=
  Map_set sessionID data sessions.

Definition findSession (sessionID : string) (sessions : t) : option Data :=
  Map_get sessionID sessions.


Definition get (sessionID : string) (sessions : t) : option Data :=
  findSession sessionID sessions.

Definition deleteSession (sessionID : string) (sessions : t) : t :=
  Map_delete sessionID sessions.

(** [Array.from(this.sessions.entries())] *)
Definition getAllSessions (sessions : t) : list (string * Data) := sessions.

(** The stores a program can build. *)
Inductive built : t → Prop :=
  | built_empty : built empty
  | built_save sessionID data sessions :
      built sessions → built (saveSession sessionID data sessions)
  | built_delete sessionID sessions :
      built sessions → built (deleteSession sessionID sessions).

End Store.
End InMemorySessionStore.

(** ** The handshake and the connection handler of src/server/index.js *)

(** The session object [{ userID }]. *)
Record SessionData := mkSessionData { session_userID : string }.

(** [io.use((socket, next) => ...)]: the session id and the user id the socket
    gets.  [sessionID] is [socket.handshake.auth.sessionID], absent or a
    string; [fresh1] and [fresh2] are what the two calls of [randomId()]
    return if they are made. *)
Definition handshake (sessionID : option string) (fresh1 fresh2 : string)
    (sessions : InMemorySessionStore.t) : string * string :=
  match truthy sessionID with
  | Some sessionID =>
      match InMemorySessionStore.findSession sessionID sessions with
      | Some session => (sessionID, session_userID session)
      | None => (fresh1, fresh2)
      end
  | None => (fresh1, fresh2)
  end.

(** The payload of the [session] event. *)
Record SessionMessage := mkSessionMessage {
  msg_sessionID : string;
  msg_userID : string;
  pageState : Z;
  clientBehind : bool
}.

(** [inferredState] and [possibleClientBehind]; [None] when
    [roomsData[...].started] throws. *)
Definition inferState (userID : string) (st : State) : option (Z * bool) :=
  match truthy (adminToRoom st !! userID) with
  | Some maybeAdminRoom =>
      data ← roomsData st !! maybeAdminRoom;
      Some (if started data then (4%Z, true) else (1%Z, false))
  | None =>
      match truthy (playerToRoom st !! userID) with
      | Some maybePlayerRoom =>
          data ← roomsData st !! maybePlayerRoom;
          Some (if started data then (5%Z, true) else (3%Z, false))
      | None => Some (0%Z, false)
      end
  end.

(** [io.on("connection", (socket) => ...)], up to [socket.emit("session", ...)]:
    the session is saved first; the message is [None] when the inference
    throws. *)
Definition connection (sessionID userID : string)
    (sessions : InMemorySessionStore.t) (st : State)
  : InMemorySessionStore.t * option SessionMessage :=
  (InMemorySessionStore.saveSession sessionID (mkSessionData userID) sessions,
   '(inferredState, possibleClientBehind) ← inferState userID st;
   Some (mkSessionMessage sessionID userID inferredState possibleClientBehind)).

(** A client connects: the handshake, then the connection handler. *)
Definition connect (sessionID : option string) (fresh1 fresh2 : string)
    (sessions : InMemorySessionStore.t) (st : State)
  : InMemorySessionStore.t * option SessionMessage :=
  let '(sessionID', userID) := handshake sessionID fresh1 fresh2 sessions in
  connection sessionID' userID sessions st.

(** The session store after a sequence of clients has connected, each given
    as its handshake id, the two fresh ids and the registries it finds. *)
Fixpoint connects (clients : list (option string * string * string * State))
    (sessions : InMemorySessionStore.t) : InMemorySessionStore.t :=
  match clients with
  | [] => sessions
  | (sessionID, fresh1, fresh2, st) :: clients' =>
      connects clients' (connect sessionID fresh1 fresh2 sessions st).1
  end.


(** * The pages *)

(** ** The trade message of the player page

    The [tradeResults] listener of the player page sets the trade message
    from the entry of the player's own id in the report.  The text
    [`Your trade was executed at $${price}`] is kept as its argument, which
    is [None] when the entry has no [price]. *)
Inductive TradeMsg :=
  | YourTradeWasExecutedAt (price : option Q)
  | NoTradeExecutedThisRound.

Definition onTradeResults (userID : string) (results : gmap string TradeResult)
  : TradeMsg :=
  match results !! userID with
  | Some result => YourTradeWasExecutedAt (price result)
  | None => NoTradeExecutedThisRound
  end.

(** ** The scoreboard of the admin page

    [Object.entries(results || {}).sort((a, b) => b[1].sharpe - a[1].sharpe)];
    the row at index 0 gets the winner's badge. *)
Definition cmpSharpe (a b : string * FinalResult) : Q :=
  (res_sharpe b.2 - res_sharpe a.2)%Q.

Definition sortedPlayers (results : option (gmap string FinalResult))
  : list (string * FinalResult) :=
  js_sort cmpSharpe (map_to_list (default ∅ results)).

Definition isWinner (index : nat) : bool := (index =? 0)%nat.
(** * Properties *)

(** ** Sorting *)

Lemma Qlt_bool_true x y : Qlt_bool x y = true ↔ (x < y)%Q.
Proof.
  unfold Qlt_bool. rewrite negb_true_iff. split.
  - intros H. apply Qnot_le_lt. intros Hle. apply Qle_bool_iff in Hle. congruence.
  - intros H. destruct (Qle_bool y x) eqn:E; [|done].
    apply Qle_bool_iff in E. exfalso. by apply (Qlt_not_le x y).
Qed.

Lemma Qlt_bool_false x y : Qlt_bool x y = false ↔ (y <= x)%Q.
Proof.
  unfold Qlt_bool. rewrite negb_false_iff. apply Qle_bool_iff.
Qed.

Section Sorting.
Context {A : Type} (cmp : A → A → Q) (R : relation A).
Hypothesis cmp_after : ∀ x y, (0 < cmp x y)%Q → R y x.
Hypothesis cmp_before : ∀ x y, (cmp x y <= 0)%Q → R x y.

Lemma sort_insert_Permutation x l : sort_insert cmp x l ≡ₚ x :: l.
Proof.
  induction l as [|y l IH]; simpl; [done|].
  destruct (Qlt_bool 0 (cmp x y)); [|done].
  rewrite IH. apply perm_swap.
Qed.

Lemma js_sort_Permutation l : js_sort cmp l ≡ₚ l.
Proof.
  induction l as [|x l IH]; simpl; [done|].
  rewrite sort_insert_Permutation. by rewrite IH.
Qed.

Lemma js_sort_length l : length (js_sort cmp l) = length l.
Proof. by rewrite js_sort_Permutation. Qed.

Lemma sort_insert_HdRel a x l :
  R a x → HdRel R a l → HdRel R a (sort_insert cmp x l).
Proof.
  intros Hax Hal. destruct l as [|y l]; simpl; [by constructor|].
  destruct (Qlt_bool 0 (cmp x y)); constructor; [|done].
  by inversion Hal.
Qed.

Lemma sort_insert_Sorted x l : Sorted R l → Sorted R (sort_insert cmp x l).
Proof.
  induction 1 as [|y l Hl IH Hhd]; simpl; [by repeat constructor|].
  destruct (Qlt_bool 0 (cmp x y)) eqn:E.
  - apply Qlt_bool_true in E. constructor; [done|].
    apply sort_insert_HdRel; auto.
  - apply Qlt_bool_false in E. constructor; [by constructor|].
    constructor. auto.
Qed.

Lemma js_sort_Sorted l : Sorted R (js_sort cmp l).
Proof.
  induction l as [|x l IH]; simpl; [constructor|].
  by apply sort_insert_Sorted.
Qed.
End Sorting.

Lemma sortBids_Permutation promptType allBids :
  sortBids promptType allBids ≡ₚ allBids.
Proof. destruct promptType; apply js_sort_Permutation. Qed.

Lemma sortBids_length promptType allBids :
  length (sortBids promptType allBids) = length allBids.
Proof. by rewrite sortBids_Permutation. Qed.

Lemma sortBids_SellCall_Sorted allBids :
  Sorted price_ge (sortBids SellCall allBids).
Proof.
  apply js_sort_Sorted; unfold cmpDescending, price_ge; intros x y H; lra.
Qed.

Lemma sortBids_BuyCall_Sorted allBids :
  Sorted price_le (sortBids BuyCall allBids).
Proof.
  apply js_sort_Sorted; unfold cmpAscending, price_le; intros x y H; lra.
Qed.

(** [Math.ceil(n / 2) - 1] is the upper-median position [(n + 1) / 2 - 1]. *)
Lemma medianIndexOf_div n : medianIndexOf n = ((Z.of_nat n + 1) / 2 - 1)%Z.
Proof.
  unfold medianIndexOf, Math_ceil, Qceiling, Qfloor. simpl.
  rewrite Z.mul_1_r. Z.div_mod_to_equations. lia.
Qed.

Example medianIndexOf_samples :
  medianIndexOf <$> [1; 2; 3; 4; 5]%nat = [0; 0; 1; 1; 2]%Z.
Proof. reflexivity. Qed.

Lemma medianIndexOf_range n :
  (0 < n)%nat → (0 ≤ medianIndexOf n < Z.of_nat n)%Z.
Proof.
  intros Hn. rewrite medianIndexOf_div. Z.div_mod_to_equations. lia.
Qed.

(** ** The order in which [Object.entries] lists the bids

    The sorted prices, and with them the clearing price, are the same for
    every order in which the bids are enumerated. *)

Ltac price_cases :=
  repeat match goal with
    | H : Qlt_bool _ _ = true |- _ => apply Qlt_bool_true in H
    | H : Qlt_bool _ _ = false |- _ => apply Qlt_bool_false in H
    end.

Ltac price_split :=
  repeat match goal with
    | |- context [Qlt_bool ?a ?b] => destruct (Qlt_bool a b) eqn:?
    end.

Lemma same_price_refl_list (l : list (string * Q)) : Forall2 same_price l l.
Proof. induction l; constructor; [unfold same_price; lra|done]. Qed.

Lemma same_price_trans_list (l1 l2 l3 : list (string * Q)) :
  Forall2 same_price l1 l2 → Forall2 same_price l2 l3 → Forall2 same_price l1 l3.
Proof.
  intros H. revert l3. induction H as [|a b l1 l2 Hab _ IH]; intros l3 H3.
  - by inversion H3.
  - inversion H3 as [|b' c l2' l3' Hbc Hl]; subst.
    constructor; [|by apply IH]. unfold same_price in *. lra.
Qed.

Section Enumeration.
Variable cmp : string * Q → string * Q → Q.
Hypothesis cmp_price :
  (∀ a b, cmp a b = (b.2 - a.2)%Q) ∨ (∀ a b, cmp a b = (a.2 - b.2)%Q).

Lemma sort_insert_same_price x x' s s' :
  same_price x x' → Forall2 same_price s s' →
  Forall2 same_price (sort_insert cmp x s) (sort_insert cmp x' s').
Proof.
  intros Hx Hs. induction Hs as [|y y' s s' Hy Hs IH]; simpl.
  - by repeat constructor.
  - price_split; price_cases; repeat constructor; try done;
      exfalso; unfold same_price in *; destruct cmp_price as [E|E];
      rewrite !E in *; lra.
Qed.

Lemma sort_insert_swap x y s :
  Forall2 same_price (sort_insert cmp x (sort_insert cmp y s))
    (sort_insert cmp y (sort_insert cmp x s)).
Proof.
  induction s as [|z s IH]; simpl.
  - price_split; price_cases; repeat constructor;
      unfold same_price; destruct cmp_price as [E|E]; rewrite !E in *; lra.
  - destruct (Qlt_bool 0 (cmp y z)) eqn:Hyz, (Qlt_bool 0 (cmp x z)) eqn:Hxz;
      simpl; rewrite ?Hyz, ?Hxz; simpl.
    + by constructor; [unfold same_price; lra|].
    + destruct (Qlt_bool 0 (cmp y x)) eqn:Hyx; simpl; rewrite ?Hyz; price_cases.
      * apply same_price_refl_list.
      * exfalso. destruct cmp_price as [E|E]; rewrite !E in *; lra.
    + destruct (Qlt_bool 0 (cmp x y)) eqn:Hxy; simpl; rewrite ?Hxz; price_cases.
      * apply same_price_refl_list.
      * exfalso. destruct cmp_price as [E|E]; rewrite !E in *; lra.
    + destruct (Qlt_bool 0 (cmp x y)) eqn:Hxy, (Qlt_bool 0 (cmp y x)) eqn:Hyx;
        simpl; rewrite ?Hyz, ?Hxz; price_cases.
      * exfalso. destruct cmp_price as [E|E]; rewrite !E in *; lra.
      * apply same_price_refl_list.
      * apply same_price_refl_list.
      * repeat constructor; try apply same_price_refl_list;
          unfold same_price; destruct cmp_price as [E|E]; rewrite !E in *; lra.
Qed.

Lemma js_sort_same_price l l' :
  l ≡ₚ l' → Forall2 same_price (js_sort cmp l) (js_sort cmp l').
Proof.
  induction 1 as [|x l l' _ IH|x y l|l1 l2 l3 _ IH1 _ IH2]; simpl.
  - constructor.
  - apply sort_insert_same_price; [unfold same_price; lra|done].
  - apply sort_insert_swap.
  - by eapply same_price_trans_list.
Qed.
End Enumeration.

(** Whatever the order in which the bids are listed, the sorted list has the
    same price at every index, the clearing index among them. *)
Lemma sortBids_enumeration promptType l l' i a b :
  l ≡ₚ l' →
  sortBids promptType l !! i = Some a → sortBids promptType l' !! i = Some b →
  (a.2 == b.2)%Q.
Proof.
  intros Hp Ha Hb.
  assert (Forall2 same_price (sortBids promptType l) (sortBids promptType l')) as H.
  { destruct promptType; apply js_sort_same_price; auto. }
  by destruct (Forall2_lookup_l _ _ _ _ _ H Ha) as (b' & Hb' & Hab); simplify_eq.
Qed.

(** ** The registries as a store of room objects *)

Lemma lookup_update_room room d st :
  roomsData (update_room room d st) !! room = Some d.
Proof. apply lookup_insert_eq. Qed.

Lemma lookup_update_room_ne room room' d st :
  room ≠ room' → roomsData (update_room room d st) !! room' = roomsData st !! room'.
Proof. intros. by apply lookup_insert_ne. Qed.

Lemma update_room_twice room d1 d2 st :
  update_room room d2 (update_room room d1 st) = update_room room d2 st.
Proof.
  unfold update_room, set_roomsData. simpl. by rewrite insert_insert_eq.
Qed.

Lemma map_to_list_length_0 (m : gmap string Q) :
  (length (map_to_list m) =? 0)%nat = true ↔ m = ∅.
Proof.
  rewrite Nat.eqb_eq. split.
  - intros H. apply map_to_list_empty_iff. by apply nil_length_inv.
  - intros ->. by rewrite map_to_list_empty.
Qed.

(** ** The valuation step and the matching step *)

Section Round.
Variable Math_sqrt : Q → Q.

Lemma applyRiskFreeAndRecord_eq room st data :
  roomsData st !! room = Some data →
  applyRiskFreeAndRecord room st =
    update_room room
      (set_positions (recordPosition (marketPrice data) <$> positions data) data) st.
Proof. intros H. unfold applyRiskFreeAndRecord. by rewrite H. Qed.

(** The positions after the valuation step and the Sharpe step. *)
Lemma broadcastPositionsAndSharpe_eq room st data :
  roomsData st !! room = Some data →
  broadcastPositionsAndSharpe Math_sqrt room st =
    Some (update_room room
            (set_positions
               (recordSharpe Math_sqrt <$>
                  (recordPosition (marketPrice data) <$> positions data)) data) st,
          [ToRoom room
             (positionsUpdated
                ((λ pos, (pos, marketPrice data)) <$>
                   (recordSharpe Math_sqrt <$>
                      (recordPosition (marketPrice data) <$> positions data))))]).
Proof.
  intros H. unfold broadcastPositionsAndSharpe.
  rewrite (applyRiskFreeAndRecord_eq _ _ _ H), lookup_update_room. simpl.
  by rewrite update_room_twice.
Qed.

Lemma processRoundBids_no_bids room st data :
  roomsData st !! room = Some data → bids data = ∅ →
  processRoundBids Math_sqrt room st = broadcastPositionsAndSharpe Math_sqrt room st.
Proof.
  intros H Hb. unfold processRoundBids. rewrite H. simpl.
  by rewrite Hb, map_to_list_empty.
Qed.

Lemma sortedBids_length data :
  length (sortedBids data) = length (map_to_list (bids data)).
Proof. apply sortBids_length. Qed.

Lemma sortedBids_pos data : bids data ≠ ∅ → (0 < length (sortedBids data))%nat.
Proof.
  intros Hb. rewrite sortedBids_length.
  destruct (map_to_list (bids data)) eqn:E; simpl; [|lia].
  by apply map_to_list_empty_iff in E.
Qed.

(** With at least one bid the clearing index is inside the sorted list. *)
Lemma clearing_price_exists data :
  bids data ≠ ∅ →
  ∃ uid medianPrice,
    sortedBids data !! Z.to_nat (medianIndexOf (length (sortedBids data)))
      = Some (uid, medianPrice)
    ∧ js_index (sortedBids data) (medianIndexOf (length (sortedBids data)))
      = Some (uid, medianPrice).
Proof.
  intros Hb. pose proof (medianIndexOf_range _ (sortedBids_pos _ Hb)) as Hr.
  destruct (lookup_lt_is_Some_2 (sortedBids data)
              (Z.to_nat (medianIndexOf (length (sortedBids data)))))
    as [[uid p] Hp]; [lia|].
  exists uid, p. split; [done|]. unfold js_index.
  destruct (Z.ltb_spec (medianIndexOf (length (sortedBids data))) 0); [lia|done].
Qed.

Lemma processRoundBids_matched room st data uid medianPrice :
  roomsData st !! room = Some data → bids data ≠ ∅ →
  js_index (sortedBids data) (medianIndexOf (length (sortedBids data)))
    = Some (uid, medianPrice) →
  let matched :=
    matchBids (currentPromptType data) medianPrice (sortedBids data)
      (positions data) in
  let positions' :=
    recordSharpe Math_sqrt <$> (recordPosition medianPrice <$> matched.1) in
  processRoundBids Math_sqrt room st =
    Some (update_room room
            (set_bids ∅ (set_positions positions' (set_marketPrice medianPrice data)))
            st,
          [ToRoom room (tradeResults matched.2);
           ToRoom room
             (positionsUpdated ((λ pos, (pos, medianPrice)) <$> positions'))]).
Proof.
  intros H Hb Hidx matched positions'. unfold processRoundBids. rewrite H. simpl.
  destruct (length (map_to_list (bids data)) =? 0)%nat eqn:E.
  { by apply map_to_list_length_0 in E. }
  fold (sortedBids data). rewrite Hidx. simpl.
  fold matched. destruct matched as [ps rs] eqn:Em.
  erewrite broadcastPositionsAndSharpe_eq by apply lookup_update_room.
  simpl. rewrite lookup_insert_eq. simpl.
  by rewrite !update_room_twice.
Qed.
End Round.

(** ** The matching loop, player by player *)

Lemma executeBid_fold promptType clearing (l : list (string * Q)) :
  NoDup l.*1 →
  ∀ ps0 rs0 u,
    let acc := fold_left (executeBid promptType clearing) l (ps0, rs0) in
    acc.1 !! u
      = matchedPosition promptType clearing
          ((list_to_map l : gmap string Q) !! u) (ps0 !! u)
    ∧ acc.2 !! u
      = match (list_to_map l : gmap string Q) !! u with
        | Some bidPx => Some (reportedResult promptType clearing bidPx)
        | None => rs0 !! u
        end.
Proof.
  induction l as [|[u' p'] l IH]; intros Hnd ps0 rs0 u; simpl.
  { by rewrite lookup_empty. }
  simpl in Hnd. apply NoDup_cons in Hnd as [Hu' Hnd].
  specialize (IH Hnd). simpl in IH.
  unfold reportedResult.
  destruct (decide (u' = u)) as [->|Hne].
  - rewrite lookup_insert_eq.
    assert ((list_to_map l : gmap string Q) !! u = None) as Hl
      by by apply not_elem_of_list_to_map.
    destruct (executes promptType clearing p') eqn:E;
      destruct (IH (executeBid promptType clearing (ps0, rs0) (u, p')).1
                   (executeBid promptType clearing (ps0, rs0) (u, p')).2 u)
        as [H1 H2];
      simpl in *; rewrite E in *; simpl in *;
      rewrite H1, H2, Hl; simpl; rewrite ?E, ?lookup_insert_eq; done.
  - rewrite lookup_insert_ne by done.
    destruct (executes promptType clearing p') eqn:E;
      destruct (IH (executeBid promptType clearing (ps0, rs0) (u', p')).1
                   (executeBid promptType clearing (ps0, rs0) (u', p')).2 u)
        as [H1 H2];
      simpl in *; rewrite E in *; simpl in *;
      rewrite H1, H2, ?lookup_insert_ne by done; done.
Qed.

(** The matching loop gives the same positions and the same report for every
    order in which it visits the bids. *)
Lemma matchBids_enumeration promptType clearing (l l' : list (string * Q)) ps :
  NoDup l.*1 → l ≡ₚ l' →
  matchBids promptType clearing l ps = matchBids promptType clearing l' ps.
Proof.
  intros Hnd Hp.
  assert (NoDup l'.*1) as Hnd' by by rewrite <- Hp.
  assert ((list_to_map l : gmap string Q) = list_to_map l') as Hm
    by by apply list_to_map_proper.
  unfold matchBids.
  destruct (fold_left _ l _) as [ps1 rs1] eqn:E1.
  destruct (fold_left _ l' _) as [ps2 rs2] eqn:E2.
  f_equal; apply map_eq; intros u.
  - pose proof (proj1 (executeBid_fold promptType clearing l Hnd ps ∅ u)) as H1.
    pose proof (proj1 (executeBid_fold promptType clearing l' Hnd' ps ∅ u)) as H2.
    simpl in H1, H2. rewrite E1 in H1. rewrite E2 in H2. simpl in H1, H2.
    rewrite Hm in H1. by rewrite H1, H2.
  - pose proof (proj2 (executeBid_fold promptType clearing l Hnd ps ∅ u)) as H1.
    pose proof (proj2 (executeBid_fold promptType clearing l' Hnd' ps ∅ u)) as H2.
    simpl in H1, H2. rewrite E1 in H1. rewrite E2 in H2. simpl in H1, H2.
    rewrite Hm in H1. by rewrite H1, H2.
Qed.

Lemma sortedBids_NoDup data : NoDup (sortedBids data).*1.
Proof.
  unfold sortedBids. rewrite sortBids_Permutation. apply NoDup_fst_map_to_list.
Qed.

Lemma list_to_map_sortedBids data :
  (list_to_map (sortedBids data) : gmap string Q) = bids data.
Proof.
  symmetry. apply list_to_map_flip. unfold sortedBids.
  by rewrite sortBids_Permutation.
Qed.

Lemma matchBids_position data clearing u :
  (matchBids (currentPromptType data) clearing (sortedBids data) (positions data)).1
    !! u
  = matchedPosition (currentPromptType data) clearing (bids data !! u)
      (positions data !! u).
Proof.
  unfold matchBids.
  destruct (executeBid_fold (currentPromptType data) clearing (sortedBids data)
              (sortedBids_NoDup data) (positions data) ∅ u) as [H _].
  simpl in H. by rewrite H, list_to_map_sortedBids.
Qed.

Lemma matchBids_result data clearing u :
  (matchBids (currentPromptType data) clearing (sortedBids data) (positions data)).2
    !! u
  = reportedResult (currentPromptType data) clearing <$> bids data !! u.
Proof.
  unfold matchBids.
  destruct (executeBid_fold (currentPromptType data) clearing (sortedBids data)
              (sortedBids_NoDup data) (positions data) ∅ u) as [_ H].
  simpl in H. rewrite H, list_to_map_sortedBids.
  by destruct (bids data !! u).
Qed.

(** ** Sample runs *)

Example opening_events_run :
  run sqrt_digits opening_events initialState = Some quiet_round.
Proof. vm_compute. reflexivity. Qed.

Example sell_round_run :
  run sqrt_digits
    (opening_events ++ [SubmitBid 12 "A"; SubmitBid 10 "B"; SubmitBid 8 "C"])
    initialState
  = Some sell_round.
Proof. vm_compute. reflexivity. Qed.

Example sell_round_sorted :
  sortedBids (room3 SellCall 1 sell_bids) = [("A", 12%Q); ("B", 10%Q); ("C", 8%Q)].
Proof. vm_compute. reflexivity. Qed.

Example buy_round_sorted :
  sortedBids (room3 BuyCall 3 buy_bids) = [("A", 95%Q); ("B", 98%Q); ("C", 101%Q)].
Proof. vm_compute. reflexivity. Qed.

(** ** Round advances *)

Section RoundAdvance.
Variable Math_sqrt : Q → Q.

Lemma roundUpdate_eq adminID room st st1 out data1 :
  truthy (adminToRoom st !! adminID) = Some room →
  processRoundBids Math_sqrt room st = Some (st1, out) →
  roomsData st1 !! room = Some data1 →
  roundUpdate Math_sqrt adminID st =
    Some (update_room room (advancePrompt data1) st1,
          out ++ [ToRoom room
                    (newTradePrompt (currentPromptType (advancePrompt data1))
                       (promptCount (advancePrompt data1)))]).
Proof.
  intros Hr Hp Hd. unfold roundUpdate. rewrite Hr, Hp. simpl. by rewrite Hd.
Qed.

(** The room after a round advance that matched bids at [clearing]. *)
Lemma roundUpdate_matched adminID room st data uid clearing :
  truthy (adminToRoom st !! adminID) = Some room →
  roomsData st !! room = Some data → bids data ≠ ∅ →
  js_index (sortedBids data) (medianIndexOf (length (sortedBids data)))
    = Some (uid, clearing) →
  ∃ out,
    roundUpdate Math_sqrt adminID st =
      Some (update_room room
              (advancePrompt
                 (set_bids ∅
                    (set_positions
                       (valued Math_sqrt clearing
                          (matchBids (currentPromptType data) clearing
                             (sortedBids data) (positions data)).1)
                       (set_marketPrice clearing data)))) st, out).
Proof.
  intros Hr Hd Hb Hidx.
  pose proof (processRoundBids_matched Math_sqrt _ _ _ _ _ Hd Hb Hidx) as Hp.
  simpl in Hp. eexists.
  erewrite roundUpdate_eq; [|done|exact Hp|apply lookup_update_room].
  by rewrite update_room_twice.
Qed.

(** The room after a round advance that found no bid. *)
Lemma roundUpdate_no_bids adminID room st data :
  truthy (adminToRoom st !! adminID) = Some room →
  roomsData st !! room = Some data → bids data = ∅ →
  ∃ out,
    roundUpdate Math_sqrt adminID st =
      Some (update_room room
              (advancePrompt
                 (set_positions
                    (valued Math_sqrt (marketPrice data) (positions data)) data))
              st, out).
Proof.
  intros Hr Hd Hb. eexists.
  erewrite roundUpdate_eq; [|done| |apply lookup_update_room].
  - by rewrite update_room_twice.
  - rewrite (processRoundBids_no_bids _ _ _ _ Hd Hb).
    apply (broadcastPositionsAndSharpe_eq _ _ _ _ Hd).
Qed.
End RoundAdvance.

(** ** The clearing price *)

Section Clearing.
Variable Math_sqrt : Q → Q.

(** C1.  A round advance that finds [n > 0] bids sorts the pairs
    (player, price): the sorted list is a rearrangement of the bids, in
    descending order of price in a sell-call round and in ascending order
    in a buy-call round.  The price at index [ceil(n / 2) - 1] of the sorted
    list is the clearing price, and the room's [marketPrice] is that price
    when [processRoundBids] returns, and still when the [roundUpdate]
    handler returns, whichever bids executed. *)
Theorem round_clearing_price room st data :
  roomsData st !! room = Some data →
  bids data ≠ ∅ →
  let allBids := map_to_list (bids data) in
  let n := length allBids in
  let sorted := sortBids (currentPromptType data) allBids in
  sorted ≡ₚ allBids
  ∧ (currentPromptType data = SellCall → Sorted price_ge sorted)
  ∧ (currentPromptType data = BuyCall → Sorted price_le sorted)
  ∧ ∃ uid clearing,
      sorted !! Z.to_nat (Math_ceil (inject_Z (Z.of_nat n) / 2) - 1)
        = Some (uid, clearing)
      ∧ (∃ st' out data',
           processRoundBids Math_sqrt room st = Some (st', out)
           ∧ roomsData st' !! room = Some data'
           ∧ marketPrice data' = clearing)
      ∧ ∀ adminID,
          truthy (adminToRoom st !! adminID) = Some room →
          ∃ st' out data',
            roundUpdate Math_sqrt adminID st = Some (st', out)
            ∧ roomsData st' !! room = Some data'
            ∧ marketPrice data' = clearing.
Proof.
  intros Hd Hb allBids n sorted. subst sorted n allBids.
  split; [apply sortBids_Permutation|].
  split; [intros ->; apply sortBids_SellCall_Sorted|].
  split; [intros ->; apply sortBids_BuyCall_Sorted|].
  destruct (clearing_price_exists data Hb) as (uid & clearing & Hnth & Hidx).
  exists uid, clearing. split.
  { revert Hnth. unfold medianIndexOf. by rewrite sortedBids_length. }
  split.
  - eexists _, _, _. split; [|split].
    + by apply (processRoundBids_matched Math_sqrt _ _ _ _ _ Hd Hb Hidx).
    + apply lookup_update_room.
    + done.
  - intros adminID Hr.
    destruct (roundUpdate_matched Math_sqrt _ _ _ _ _ _ Hr Hd Hb Hidx)
      as [out Hout].
    eexists _, _, _. split; [exact Hout|]. split; [apply lookup_update_room|done].
Qed.
End Clearing.

(** The sell-call round with the bids A:12, B:10, C:8 clears at 10. *)
Lemma round_clearing_price_witness :
  ∃ st' out data',
    roundUpdate sqrt_digits "adm" sell_round = Some (st', out)
    ∧ roomsData st' !! "r1" = Some data'
    ∧ marketPrice data' = 10%Q.
Proof.
  assert (roomsData sell_round !! "r1" = Some (room3 SellCall 1 sell_bids)) as Hd
    by (vm_compute; reflexivity).
  assert (bids (room3 SellCall 1 sell_bids) ≠ ∅) as Hb.
  { intros H. apply (f_equal (λ m : gmap string Q, m !! "A")) in H.
    vm_compute in H. discriminate H. }
  destruct (round_clearing_price sqrt_digits "r1" sell_round _ Hd Hb)
    as (_ & _ & _ & uid & clearing & Hnth & _ & Hround).
  vm_compute in Hnth. injection Hnth as _ <-.
  apply (Hround "adm"). vm_compute. reflexivity.
Defined.

(** ** Execution of the bids *)


Section Execution.
Variable Math_sqrt : Q → Q.

End Execution.


(** The buy-call round A:95, B:98, C:101 clears at 98: C's bid does not
    execute and C's position is left as it was. *)
Example buy_round_unmatched :
  (matchBids BuyCall 98 (sortedBids (room3 BuyCall 3 buy_bids))
     (positions (room3 BuyCall 3 buy_bids))).1 !! "C" = Some (opening [100%Q])
  ∧ (matchBids BuyCall 98 (sortedBids (room3 BuyCall 3 buy_bids))
       (positions (room3 BuyCall 3 buy_bids))).2 !! "C"
    = Some (mkTradeResult false None).
Proof. vm_compute. split; reflexivity. Qed.

(** ** Rounds without bids *)

Lemma recordPosition_cash marketPrice pos :
  cash (recordPosition marketPrice pos) = (cash pos * (1 + riskFreeStepRate))%Q.
Proof. reflexivity. Qed.

Lemma recordPosition_calls marketPrice pos :
  calls (recordPosition marketPrice pos) = calls pos.
Proof. reflexivity. Qed.

Lemma recordPosition_history marketPrice pos :
  portfolioHistory (recordPosition marketPrice pos)
  = portfolioHistory pos
      ++ [(cash pos * (1 + riskFreeStepRate)
           + inject_Z (calls pos) * marketPrice)%Q].
Proof. reflexivity. Qed.

Section QuietRound.
Variable Math_sqrt : Q → Q.

Lemma valued_lookup marketPrice positions u :
  valued Math_sqrt marketPrice positions !! u
  = recordSharpe Math_sqrt <$> (recordPosition marketPrice <$> positions !! u).
Proof. unfold valued. by rewrite !lookup_fmap. Qed.

Lemma valued_dom marketPrice positions :
  dom (valued Math_sqrt marketPrice positions) = dom positions.
Proof. unfold valued. by rewrite !dom_fmap_L. Qed.

(** C4.  A round advance that finds no bid leaves the room's [marketPrice]
    as it was and still runs the valuation step: the room has the same
    players' positions afterwards, and each of them has its cash compounded
    by [1 + riskFreeStepRate], its calls unchanged, and one more valuation
    point, [compounded cash + calls * marketPrice], at the end of its
    history. *)
Theorem quiet_round_valuation adminID room st data :
  truthy (adminToRoom st !! adminID) = Some room →
  roomsData st !! room = Some data →
  bids data = ∅ →
  ∃ st' out data',
    roundUpdate Math_sqrt adminID st = Some (st', out)
    ∧ roomsData st' !! room = Some data'
    ∧ marketPrice data' = marketPrice data
    ∧ dom (positions data') = dom (positions data)
    ∧ ∀ u pos,
        positions data !! u = Some pos →
        ∃ pos',
          positions data' !! u = Some pos'
          ∧ cash pos' = (cash pos * (1 + riskFreeStepRate))%Q
          ∧ calls pos' = calls pos
          ∧ portfolioHistory pos'
            = portfolioHistory pos
                ++ [(cash pos * (1 + riskFreeStepRate)
                     + inject_Z (calls pos) * marketPrice data)%Q].
Proof.
  intros Hr Hd Hb.
  destruct (roundUpdate_no_bids Math_sqrt _ _ _ _ Hr Hd Hb) as [out Hout].
  eexists _, _, _. split; [exact Hout|]. split; [apply lookup_update_room|].
  split; [done|]. split; [apply valued_dom|].
  intros u pos Hu. simpl. rewrite valued_lookup, Hu. simpl.
  eexists. split; [done|]. done.
Qed.
End QuietRound.

(** The quiet round of the three-player room: A's cash of 100 is compounded
    and the new valuation point is recorded, at the unchanged price 0. *)
Lemma quiet_round_valuation_witness :
  ∃ st' out data' pos',
    roundUpdate sqrt_digits "adm" quiet_round = Some (st', out)
    ∧ roomsData st' !! "r1" = Some data'
    ∧ marketPrice data' = 0%Q
    ∧ positions data' !! "A" = Some pos'
    ∧ portfolioHistory pos' = [100%Q; (100 * (1 + riskFreeStepRate) + 0 * 0)%Q].
Proof.
  destruct (quiet_round_valuation sqrt_digits "adm" "r1" quiet_round
              (room3 SellCall 1 ∅))
    as (st' & out & data' & Hrun & Hd' & Hmp & _ & Hpos);
    [vm_compute; reflexivity..|].
  destruct (Hpos "A" (opening [100%Q])) as (pos' & HA & _ & _ & Hh);
    [vm_compute; reflexivity|].
  exists st', out, data', pos'. repeat split; done.
Defined.

(** ** The Sharpe ratio *)




(** The i-th return is [(v_(i+1) - v_i) / v_i]. *)
Lemma stepReturns_lookup history i vi vi' :
  history !! i = Some vi → history !! S i = Some vi' →
  stepReturns history !! i = Some ((vi' - vi) / vi)%Q.
Proof.
  intros Hi Hi'. unfold stepReturns. rewrite list_lookup_fmap.
  rewrite (lookup_seq_lt 1 (length history - 1) i).
  - simpl. rewrite Nat.sub_0_r.
    by rewrite (nth_lookup_Some _ _ _ _ Hi), (nth_lookup_Some _ _ _ _ Hi').
  - apply lookup_lt_Some in Hi'. lia.
Qed.






Section Sharpe.
Variable Math_sqrt : Q → Q.

End Sharpe.


(** A history with one point has ratio 0; over the history 100, 110, 121 both
    returns are 1/10, the deviation is 0 and the ratio is 0; over
    100, 110, 99 the ratio is negative. *)
Example computeSharpeRatio_samples :
  computeSharpeRatio sqrt_digits [100%Q] = 0%Q
  ∧ stepReturns [100; 110; 121]%Q = [(110 - 100) / 100; (121 - 110) / 110]%Q
  ∧ computeSharpeRatio sqrt_digits [100; 110; 121]%Q = 0%Q
  ∧ (computeSharpeRatio sqrt_digits [100; 110; 99]%Q < 0)%Q.
Proof. vm_compute. repeat split; reflexivity. Qed.

(** ** Every round advance, with or without bids *)

Lemma clearingPrice_None data : clearingPrice data = None ↔ bids data = ∅.
Proof.
  unfold clearingPrice. split.
  - intros H. destruct (decide (bids data = ∅)) as [|Hb]; [done|].
    destruct (clearing_price_exists data Hb) as (uid & p & _ & Hidx).
    by rewrite Hidx in H.
  - intros Hb. unfold sortedBids. rewrite Hb, map_to_list_empty.
    by destruct (currentPromptType data).
Qed.

Section AnyRound.
Variable Math_sqrt : Q → Q.

Lemma roundUpdate_advancedRoom adminID room st data :
  truthy (adminToRoom st !! adminID) = Some room →
  roomsData st !! room = Some data →
  ∃ out,
    roundUpdate Math_sqrt adminID st =
      Some (update_room room (advancedRoom Math_sqrt data) st, out).
Proof.
  intros Hr Hd. unfold advancedRoom, settledRound.
  destruct (clearingPrice data) as [clearing|] eqn:Hc.
  - assert (bids data ≠ ∅) as Hb
      by (intros Hb; apply clearingPrice_None in Hb; congruence).
    unfold clearingPrice in Hc.
    destruct (js_index _ _) as [[uid p]|] eqn:Hidx; [|done].
    simpl in Hc. injection Hc as ->.
    apply (roundUpdate_matched Math_sqrt _ _ _ _ _ _ Hr Hd Hb Hidx).
  - apply clearingPrice_None in Hc.
    destruct (roundUpdate_no_bids Math_sqrt _ _ _ _ Hr Hd Hc) as [out Hout].
    exists out. rewrite Hout. do 3 f_equal.
    destruct data; simpl in *. by subst.
Qed.
End AnyRound.

(** ** Final settlement *)

Lemma Math_max_spec a b :
  ((a <= b)%Q → Math_max a b = b) ∧ ((b < a)%Q → Math_max a b = a).
Proof.
  unfold Math_max. destruct (Qle_bool a b) eqn:E.
  - apply Qle_bool_iff in E. split; [done|]. intros H. lra.
  - split; [|done]. intros H. apply Qle_bool_iff in H. congruence.
Qed.

Section Settlement.
Variable Math_sqrt : Q → Q.

Lemma finalizeGame_eq adminID room st data finalPx :
  truthy (adminToRoom st !! adminID) = Some room →
  roomsData st !! room = Some data →
  finalizeGame Math_sqrt adminID finalPx st =
    Some (update_room room
            (set_positions (settlePosition finalPx <$> positions data)
               (set_gameOver true data)) st,
          [ToRoom room
             (finalResults
                (map_imap
                   (λ uid pos,
                      Some (settleResult Math_sqrt (usernames data) finalPx uid pos))
                   (positions data)))]).
Proof. intros Hr Hd. unfold finalizeGame. by rewrite Hr, Hd. Qed.

(** C6.  When the admin of a room finalizes the game at the final
    underlying price [finalPx], then for every position of the room the
    intrinsic value is [max(0, finalPx - 100)], the final cash is
    [cash + calls * intrinsicValue], and that value is appended to the
    position's history; the Sharpe ratio reported for the player is the one
    of the history with the final value at its end.  At the price 120 a
    position of 50 in cash and 2 calls settles at 90. *)
Theorem finalizeGame_settlement adminID room st data finalPx :
  truthy (adminToRoom st !! adminID) = Some room →
  roomsData st !! room = Some data →
  let intrinsicValue := Math_max 0 (finalPx - 100) in
  (∃ st' results data',
     finalizeGame Math_sqrt adminID finalPx st
       = Some (st', [ToRoom room (finalResults results)])
     ∧ roomsData st' !! room = Some data'
     ∧ ∀ uid pos,
         positions data !! uid = Some pos →
         let finalCash := (cash pos + inject_Z (calls pos) * intrinsicValue)%Q in
         ∃ pos' res,
           positions data' !! uid = Some pos'
           ∧ results !! uid = Some res
           ∧ portfolioHistory pos' = portfolioHistory pos ++ [finalCash]
           ∧ res_callIntrinsicValue res = intrinsicValue
           ∧ res_finalCash res = finalCash
           ∧ res_portfolioHistory res = portfolioHistory pos ++ [finalCash]
           ∧ res_sharpe res
             = computeSharpeRatio Math_sqrt (portfolioHistory pos ++ [finalCash]))
  ∧ ∀ history sh, finalCash 120 (mkPosition 50 2 history sh) = 90%Q.
Proof.
  intros Hr Hd intrinsicValue. split; [|done].
  eexists _, _, _. split; [by apply finalizeGame_eq|].
  split; [apply lookup_update_room|].
  intros uid pos Hpos finalCash. simpl.
  eexists _, _. split; [by rewrite lookup_fmap, Hpos|].
  split; [by rewrite map_lookup_imap, Hpos|]. done.
Qed.
End Settlement.

(** Finalizing the game at 120 settles A, who holds 50 in cash and 2 calls,
    at 90, and records 90 at the end of A's history. *)
Lemma finalizeGame_settlement_witness :
  ∃ st' results data' pos' res,
    finalizeGame sqrt_digits "adm" 120 holder_round
      = Some (st', [ToRoom "r1" (finalResults results)])
    ∧ roomsData st' !! "r1" = Some data'
    ∧ positions data' !! "A" = Some pos'
    ∧ results !! "A" = Some res
    ∧ portfolioHistory pos' = [100; 110; 90]%Q
    ∧ res_callIntrinsicValue res = 20%Q
    ∧ res_finalCash res = 90%Q.
Proof.
  destruct (finalizeGame_settlement sqrt_digits "adm" "r1" holder_round holder_room 120)
    as [(st' & results & data' & Hrun & Hd' & Hpos) _];
    [vm_compute; reflexivity..|].
  destruct (Hpos "A" (mkPosition 50 2 [100%Q; 110%Q] None))
    as (pos' & res & HA & Hres & Hh & Hiv & Hfc & _); [vm_compute; reflexivity|].
  exists st', results, data', pos', res. repeat split; done.
Defined.

(** ** After the game is finalized *)

Section Terminal.
Variable Math_sqrt : Q → Q.

(** [finalizeGame] leaves the room with [gameOver] set. *)
Lemma finalizeGame_gameOver adminID room st data finalPx :
  truthy (adminToRoom st !! adminID) = Some room →
  roomsData st !! room = Some data →
  ∃ st' out data',
    finalizeGame Math_sqrt adminID finalPx st = Some (st', out)
    ∧ roomsData st' !! room = Some data'
    ∧ gameOver data' = true
    ∧ bids data' = bids data.
Proof.
  intros Hr Hd. eexists _, _, _.
  split; [by apply finalizeGame_eq|]. split; [apply lookup_update_room|done].
Qed.

(** A bid for a room whose game is over is dropped. *)
Lemma submitBid_gameOver bidPrice userID room st data :
  truthy (playerToRoom st !! userID) = Some room →
  roomsData st !! room = Some data →
  gameOver data = true →
  submitBid bidPrice userID st = Some (st, []).
Proof.
  intros Hr Hd Hover. unfold submitBid. rewrite Hr, Hd, Hover.
  by rewrite orb_true_r.
Qed.
End Terminal.

(** C7, where the handlers depart from it.  The round A:12, B:10, C:8 is
    finalized and the room is over; a bid sent afterwards is dropped, but a
    [roundUpdate] sent afterwards is processed like any other: the pending
    bids are matched (A now holds a call), the market price moves from 0 to
    10, every history grows by a point and the round counter advances. *)
Theorem roundUpdate_after_finalizeGame :
  ∃ st1 st2,
    run sqrt_digits
      (opening_events ++ [SubmitBid 12 "A"; SubmitBid 10 "B"; SubmitBid 8 "C"])
      initialState
    = Some sell_round
    ∧ run sqrt_digits [FinalizeGame "adm" 120] sell_round = Some st1
    ∧ gameOver <$> roomsData st1 !! "r1" = Some true
    ∧ run sqrt_digits [SubmitBid 50 "A"] st1 = Some st1
    ∧ run sqrt_digits [RoundUpdate "adm"] st1 = Some st2
    ∧ calls <$> positionOf st1 "r1" "A" = Some 0%Z
    ∧ calls <$> positionOf st2 "r1" "A" = Some 1%Z
    ∧ portfolioHistory <$> positionOf st1 "r1" "C" = Some [100; 100]%Q
    ∧ length ∘ portfolioHistory <$> positionOf st2 "r1" "C" = Some 3%nat
    ∧ marketPrice <$> roomsData st1 !! "r1" = Some 0%Q
    ∧ marketPrice <$> roomsData st2 !! "r1" = Some 10%Q
    ∧ promptCount <$> roomsData st1 !! "r1" = Some 1%Z
    ∧ promptCount <$> roomsData st2 !! "r1" = Some 2%Z.
Proof.
  eexists _, _.
  split; [vm_compute; reflexivity|].
  split; [vm_compute; reflexivity|].
  split; [vm_compute; reflexivity|].
  split; [vm_compute; reflexivity|].
  split; [vm_compute; reflexivity|].
  vm_compute. repeat split; reflexivity.
Qed.

(** ** Joining a room *)


Lemma joinRoom_registered room username userID st :
  username ≠ "" → room ∈ rooms st →
  joinRoom room username userID st
  = match roomsData st !! room with
    | None => Some (st, [])
    | Some data =>
        if started data && gameOver data then Some (st, [ToSocket gameAlreadyStarted])
        else if decide (username ∈ (map_to_list (usernames data)).*2) then
          Some (st, [ToSocket usernameTaken])
        else joinRoom room username userID st
    end.
Proof.
  intros Hu Hr. unfold joinRoom. rewrite decide_False by tauto.
  destruct (roomsData st !! room) as [data|]; [|done].
  destruct (started data && gameOver data); [done|].
  by destruct (decide (username ∈ (map_to_list (usernames data)).*2)).
Qed.


Lemma joinRoom_taken room username userID st data :
  username ≠ "" → room ∈ rooms st → roomsData st !! room = Some data →
  started data && gameOver data = false →
  username ∈ (map_to_list (usernames data)).*2 →
  joinRoom room username userID st = Some (st, [ToSocket usernameTaken]).
Proof.
  intros Hu Hr Hd Ht Hin. rewrite joinRoom_registered, Hd, Ht by done.
  by rewrite decide_True.
Qed.

(** The room a successful join leaves behind. *)
Lemma joinRoom_approved room username userID st data :
  username ≠ "" → room ∈ rooms st → roomsData st !! room = Some data →
  started data && gameOver data = false →
  username ∉ (map_to_list (usernames data)).*2 →
  ∃ st' data',
    joinRoom room username userID st
      = Some (st', [ToRoom room (updateUserDisp (map_to_list (usernames data')));
                    ToSocket joinApproved])
    ∧ rooms st' = rooms st
    ∧ adminToRoom st' = adminToRoom st
    ∧ playerToRoom st' = <[userID := room]> (playerToRoom st)
    ∧ roomsData st' = <[room := data']> (roomsData st)
    ∧ usernames data' = <[userID := username]> (usernames data)
    ∧ positions data'
      = match positions data !! userID with
        | Some _ => positions data
        | None => <[userID := mkPosition 100 0 [] None]> (positions data)
        end
    ∧ started data' = started data ∧ gameOver data' = gameOver data.
Proof.
  intros Hu Hr Hd Ht Hin. unfold joinRoom.
  rewrite decide_False by tauto. rewrite Hd, Ht, decide_False by done.
  eexists _, _. split; [reflexivity|]. simpl.
  repeat split; by destruct (positions data !! userID).
Qed.

Example two_lobbies_run :
  run sqrt_digits [RoomStart "r1" "adm"; RoomStart "r2" "adm2"] initialState
  = Some two_lobbies.
Proof. vm_compute. reflexivity. Qed.

(** A key that is not among the names of [Object.prototype] is ordinary. *)
Lemma ordinary_decide key :
  bool_decide (key ∉ Object_prototype_names) = true → ordinary key.
Proof. intros H. by apply bool_decide_eq_true in H. Qed.




(** C10.  A join request with the empty username, the one falsy string, is
    answered [noSuchRoom], whether or not the room exists, and changes
    nothing: the roster, the map from players to rooms and the positions are
    those of the state before. *)
Theorem joinRoom_empty_username room userID st :
  joinRoom room "" userID st = Some (st, [ToSocket noSuchRoom]).
Proof. unfold joinRoom. rewrite decide_True; [done|by left]. Qed.

Example joinRoom_empty_username_existing_room :
  "r1" ∈ rooms quiet_round
  ∧ joinRoom "r1" "" "D" quiet_round = Some (quiet_round, [ToSocket noSuchRoom]).
Proof. split; [set_solver|vm_compute; reflexivity]. Qed.

(** ** The direction of the rounds *)

Lemma promptFor_even (count : Z) :
  (0 ≤ count)%Z → promptFor count = if Z.even count then SellCall else BuyCall.
Proof.
  intros H. unfold promptFor. rewrite Z.rem_mod_nonneg by lia.
  rewrite Zmod_even. by destruct (Z.even count).
Qed.

Lemma startGame_eq adminID now room st data :
  truthy (adminToRoom st !! adminID) = Some room →
  roomsData st !! room = Some data →
  started data = false →
  ∃ data1 out,
    startGame adminID now st = Some (update_room room data1 st, out)
    ∧ promptCount data1 = 1%Z
    ∧ currentPromptType data1 = SellCall
    ∧ started data1 = true
    ∧ positions data1 = recordInitial (marketPrice data) <$> positions data.
Proof.
  intros Hr Hd Hs. unfold startGame. rewrite Hr, Hd, Hs.
  eexists _, _. split; [reflexivity|]. done.
Qed.

Section Directions.
Variable Math_sqrt : Q → Q.

Lemma advancedRoom_promptCount data :
  promptCount (advancedRoom Math_sqrt data) = (promptCount data + 1)%Z.
Proof. reflexivity. Qed.

Lemma advancedRoom_currentPromptType data :
  currentPromptType (advancedRoom Math_sqrt data)
  = promptFor (promptCount data + 1).
Proof. reflexivity. Qed.

(** The room after [n] round advances in a row. *)
Lemma run_roundUpdates adminID room n :
  ∀ st data,
    truthy (adminToRoom st !! adminID) = Some room →
    roomsData st !! room = Some data →
    run Math_sqrt (replicate n (RoundUpdate adminID)) st
    = Some (update_room room (Nat.iter n (advancedRoom Math_sqrt) data) st).
Proof.
  induction n as [|n IH]; intros st data Hr Hd.
  - simpl. f_equal. unfold update_room, set_roomsData.
    rewrite insert_id by done. by destruct st.
  - simpl replicate. simpl run.
    destruct (roundUpdate_advancedRoom Math_sqrt _ _ _ _ Hr Hd) as [out ->].
    rewrite (IH _ (advancedRoom Math_sqrt data)); [|done|apply lookup_update_room].
    rewrite update_room_twice. by rewrite Nat.iter_succ_r.
Qed.

Lemma iter_advancedRoom_promptCount n data :
  promptCount (Nat.iter n (advancedRoom Math_sqrt) data)
  = (promptCount data + Z.of_nat n)%Z.
Proof.
  induction n as [|n IH]; [simpl; lia|].
  rewrite Nat.iter_succ, advancedRoom_promptCount, IH. lia.
Qed.

Lemma iter_advancedRoom_currentPromptType n data :
  currentPromptType (Nat.iter (S n) (advancedRoom Math_sqrt) data)
  = promptFor (promptCount data + Z.of_nat (S n)).
Proof.
  rewrite Nat.iter_succ.
  rewrite advancedRoom_currentPromptType, iter_advancedRoom_promptCount.
  f_equal. lia.
Qed.

Lemma roundRoom_eq adminID room st data k :
  truthy (adminToRoom st !! adminID) = Some room →
  roomsData st !! room = Some data →
  roundRoom Math_sqrt adminID room st k
  = Some (Nat.iter (k - 1) (advancedRoom Math_sqrt) data).
Proof.
  intros Hr Hd. unfold roundRoom.
  rewrite (run_roundUpdates _ _ _ _ _ Hr Hd). simpl.
  apply lookup_update_room.
Qed.
End Directions.

Section DirectionsOfAGame.
Variable Math_sqrt : Q → Q.

(** C3, as the handlers have it.  [startGame] opens round 1 as a sell-call
    round.  Each round advance, in whatever state, adds one to the round
    counter and sets the direction by the parity of the new counter, so the
    direction of every round after the first is SellCall when its counter
    is even and BuyCall when it is odd.  Round 2 is therefore a sell-call
    round like round 1, and the directions alternate from round 2 on. *)
Theorem round_directions adminID room now st data :
  truthy (adminToRoom st !! adminID) = Some room →
  roomsData st !! room = Some data →
  started data = false →
  (∀ st2 data2,
     truthy (adminToRoom st2 !! adminID) = Some room →
     roomsData st2 !! room = Some data2 →
     ∃ st3 out3 data3,
       roundUpdate Math_sqrt adminID st2 = Some (st3, out3)
       ∧ roomsData st3 !! room = Some data3
       ∧ promptCount data3 = (promptCount data2 + 1)%Z
       ∧ currentPromptType data3
         = if (Z.rem (promptCount data3) 2 =? 0)%Z then SellCall else BuyCall)
  ∧ ∃ st1 out,
    startGame adminID now st = Some (st1, out)
    ∧ (∀ k, (1 ≤ k)%nat →
         ∃ d, roundRoom Math_sqrt adminID room st1 k = Some d
              ∧ promptCount d = Z.of_nat k)
    ∧ roundDirection Math_sqrt adminID room st1 1 = Some SellCall
    ∧ (∀ k, (2 ≤ k)%nat →
         roundDirection Math_sqrt adminID room st1 k
         = Some (if Z.even (Z.of_nat k) then SellCall else BuyCall))
    ∧ roundDirection Math_sqrt adminID room st1 2
      = roundDirection Math_sqrt adminID room st1 1
    ∧ alternates_from 2 (roundDirection Math_sqrt adminID room st1).
Proof.
  intros Hr Hd Hs. split.
  { intros st2 data2 Hr2 Hd2.
    destruct (roundUpdate_advancedRoom Math_sqrt _ _ _ _ Hr2 Hd2) as [out3 Hout].
    eexists _, _, _. split; [exact Hout|].
    split; [apply lookup_update_room|done]. }
  destruct (startGame_eq adminID now room st data Hr Hd Hs)
    as (data1 & out & Hstart & Hcount & Htype & _).
  exists (update_room room data1 st), out. split; [done|].
  assert (∀ k, roundRoom Math_sqrt adminID room (update_room room data1 st) k
               = Some (Nat.iter (k - 1) (advancedRoom Math_sqrt) data1)) as Hroom.
  { intros k. apply roundRoom_eq; [done|apply lookup_update_room]. }
  assert (∀ k, (2 ≤ k)%nat →
            roundDirection Math_sqrt adminID room (update_room room data1 st) k
            = Some (if Z.even (Z.of_nat k) then SellCall else BuyCall)) as Hdir.
  { intros k Hk. unfold roundDirection. rewrite Hroom. simpl. f_equal.
    destruct k as [|[|n]]; [lia..|].
    replace (S (S n) - 1)%nat with (S n) by lia.
    rewrite iter_advancedRoom_currentPromptType, Hcount.
    rewrite promptFor_even by lia. by replace (1 + Z.of_nat (S n))%Z
      with (Z.of_nat (S (S n))) by lia. }
  assert (roundDirection Math_sqrt adminID room (update_room room data1 st) 1
          = Some SellCall) as Hfirst.
  { unfold roundDirection. rewrite Hroom. simpl. by rewrite Htype. }
  split; [|split; [done|split; [done|split]]].
  - intros k Hk. eexists. split; [apply Hroom|].
    rewrite iter_advancedRoom_promptCount, Hcount. lia.
  - by rewrite Hfirst, Hdir.
  - intros k Hk. rewrite !Hdir by lia.
    rewrite Nat2Z.inj_succ, Z.even_succ, <- Z.negb_even.
    by destruct (Z.even (Z.of_nat k)).
Qed.
End DirectionsOfAGame.

(** The game started in the lobby of r1: round 1 sells, round 2 sells, round
    3 buys. *)
Lemma round_directions_witness :
  ∃ st1 out,
    startGame "adm" 0 two_lobbies = Some (st1, out)
    ∧ roundDirection sqrt_digits "adm" "r1" st1 1 = Some SellCall
    ∧ roundDirection sqrt_digits "adm" "r1" st1 2 = Some SellCall
    ∧ roundDirection sqrt_digits "adm" "r1" st1 3 = Some BuyCall.
Proof.
  destruct (round_directions sqrt_digits "adm" "r1" 0 two_lobbies (initRoomData "adm"))
    as (_ & st1 & out & Hstart & _ & H1 & Hk & _); [vm_compute; reflexivity..|].
  exists st1, out. split; [done|]. split; [done|].
  split; [apply (Hk 2%nat); lia|apply (Hk 3%nat); lia].
Defined.

(** The directions do not alternate from round 1: in the game of the
    three-player room, round 1 and round 2 are both sell-call rounds. *)
Lemma rounds_1_and_2_both_sell :
  run sqrt_digits opening_events initialState = Some quiet_round
  ∧ roundDirection sqrt_digits "adm" "r1" quiet_round 1 = Some SellCall
  ∧ roundDirection sqrt_digits "adm" "r1" quiet_round 2 = Some SellCall
  ∧ ¬ alternates_from 1 (roundDirection sqrt_digits "adm" "r1" quiet_round).
Proof.
  assert (roundDirection sqrt_digits "adm" "r1" quiet_round 1 = Some SellCall) as H1
    by (vm_compute; reflexivity).
  assert (roundDirection sqrt_digits "adm" "r1" quiet_round 2 = Some SellCall) as H2
    by (vm_compute; reflexivity).
  split; [vm_compute; reflexivity|]. split; [done|]. split; [done|].
  intros Halt. apply (Halt 1%nat); [lia|]. by rewrite H1, H2.
Qed.

(** ** Histories only grow *)

Lemma room_extends_same d d' : positions d' = positions d → room_extends d d'.
Proof. intros Hp u pos H. exists pos. by rewrite Hp. Qed.

Lemma room_extends_refl d : room_extends d d.
Proof. by apply room_extends_same. Qed.

Lemma room_extends_fmap (f : Position → Position) d d' :
  (∀ pos, portfolioHistory pos `prefix_of` portfolioHistory (f pos)) →
  positions d' = f <$> positions d →
  room_extends d d'.
Proof.
  intros Hf Hp u pos Hu. exists (f pos). rewrite Hp, lookup_fmap, Hu. done.
Qed.

Lemma push_history_prefix v pos :
  portfolioHistory pos `prefix_of` portfolioHistory (push_history v pos).
Proof. by apply prefix_app_r. Qed.

Lemma effect_registered st st' : effect st st' → registered st → registered st'.
Proof.
  intros [Hr Hrd|room d d' Hd Hext Hr Hrd|room d' Hfresh Hr Hrd|room Hr Hrd] Hreg room' Hn;
    rewrite Hrd; rewrite Hr in Hn.
  - by apply Hreg.
  - destruct (decide (room = room')) as [<-|Hne].
    + rewrite (Hreg room Hn) in Hd. done.
    + rewrite lookup_insert_ne by done. by apply Hreg.
  - apply not_elem_of_union in Hn as [Hne Hn].
    apply not_elem_of_singleton in Hne.
    rewrite lookup_insert_ne by done. by apply Hreg.
  - destruct (decide (room = room')) as [<-|Hne].
    + apply lookup_delete_eq.
    + rewrite lookup_delete_ne by done. apply Hreg.
      intros Hin. apply Hn, elem_of_difference. split; [done|].
      by apply not_elem_of_singleton.
Qed.

Lemma effect_history_extends st st' :
  effect st st' → registered st → history_extends st st'.
Proof.
  intros [Hr Hrd|room d d' Hd Hext Hr Hrd|room d' Hfresh Hr Hrd|room Hr Hrd] Hreg
    room' e e' He He'; rewrite Hrd in He'.
  - rewrite He in He'. injection He' as <-. apply room_extends_refl.
  - destruct (decide (room = room')) as [<-|Hne].
    + rewrite lookup_insert_eq in He'. injection He' as <-.
      rewrite Hd in He. by injection He as <-.
    + rewrite lookup_insert_ne in He' by done.
      rewrite He in He'. injection He' as <-. apply room_extends_refl.
  - destruct (decide (room = room')) as [<-|Hne].
    + rewrite (Hreg room Hfresh) in He. done.
    + rewrite lookup_insert_ne in He' by done.
      rewrite He in He'. injection He' as <-. apply room_extends_refl.
  - destruct (decide (room = room')) as [<-|Hne].
    + by rewrite lookup_delete_eq in He'.
    + rewrite lookup_delete_ne in He' by done.
      rewrite He in He'. injection He' as <-. apply room_extends_refl.
Qed.

Lemma effect_update_room room d d' st :
  roomsData st !! room = Some d → room_extends d d' →
  effect st (update_room room d' st).
Proof. intros Hd Hext. by eapply effect_room. Qed.

Lemma tradePosition_history promptType bidPx pos :
  portfolioHistory (tradePosition promptType bidPx pos) = portfolioHistory pos.
Proof. by destruct promptType. Qed.

(** What the matching step makes of an existing position: it keeps the
    history, and it keeps the whole position of a player who has not bid. *)
Lemma settledRound_position data u pos :
  positions data !! u = Some pos →
  ∃ posm,
    (settledRound data).2 !! u = Some posm
    ∧ portfolioHistory posm = portfolioHistory pos
    ∧ (bids data !! u = None → posm = pos).
Proof.
  intros Hu. unfold settledRound.
  destruct (clearingPrice data) as [clearing|]; simpl; [|by exists pos].
  rewrite matchBids_position, Hu. unfold matchedPosition.
  destruct (bids data !! u) as [bidPx|]; [|by exists pos].
  destruct (executes _ _ _); [|by exists pos].
  eexists. split; [done|]. split; [apply tradePosition_history|done].
Qed.


Lemma settledRound_marketPrice_no_bids data :
  bids data = ∅ → (settledRound data).1 = marketPrice data.
Proof.
  intros H. apply clearingPrice_None in H. unfold settledRound. by rewrite H.
Qed.

Lemma destroyRoom_effect room adminID st st' out :
  destroyRoom room adminID st = (st', out) → effect st st'.
Proof.
  unfold destroyRoom. destruct (truthy room) as [r|].
  - destruct (roomsData st !! r) as [data|].
    + intros [= <- _]. by apply (effect_close _ _ r).
    + intros [= <- _]. by apply effect_none.
  - intros [= <- _]. by apply effect_none.
Qed.

Section Histories.
Variable Math_sqrt : Q → Q.

Lemma room_extends_advancedRoom data :
  room_extends data (advancedRoom Math_sqrt data).
Proof.
  intros u pos Hu.
  destruct (settledRound_position data u pos Hu) as (posm & Hm & Hh & _).
  eexists. split.
  - unfold advancedRoom. simpl. rewrite valued_lookup, Hm. simpl. done.
  - simpl. rewrite Hh. by apply prefix_app_r.
Qed.

Lemma handle_effect ev st st' out :
  handle Math_sqrt ev st = Some (st', out) → effect st st'.
Proof.
  destruct ev as [room userID|adminID now|adminID|room|room username userID
                 |bidPrice userID|adminID finalPx|userID|ID]; simpl.
  - unfold roomStart. repeat case_decide; intros [= <- _];
      [by apply effect_none..|]. by eapply effect_open.
  - unfold startGame. destruct (truthy _) as [room|] eqn:Hr;
      [|intros [= <- _]; by apply effect_none].
    destruct (roomsData st !! room) as [data|] eqn:Hd;
      [|intros [= <- _]; by apply effect_none].
    destruct (started data); intros [= <- _]; [by apply effect_none|].
    apply (effect_update_room _ data); [done|].
    apply (room_extends_fmap (recordInitial (marketPrice data))); [|done].
    intros pos. apply push_history_prefix.
  - destruct (truthy (adminToRoom st !! adminID)) as [room|] eqn:Hr.
    + destruct (roomsData st !! room) as [data|] eqn:Hd.
      * destruct (roundUpdate_advancedRoom Math_sqrt _ _ _ _ Hr Hd) as [o ->].
        intros [= <- _]. apply (effect_update_room _ data); [done|].
        apply room_extends_advancedRoom.
      * unfold roundUpdate, processRoundBids. rewrite Hr, Hd. done.
    + unfold roundUpdate. rewrite Hr. intros [= <- _]. by apply effect_none.
  - unfold tryRoom. case_decide; intros [= <- _]; by apply effect_none.
  - unfold joinRoom. case_decide; [intros [= <- _]; by apply effect_none|].
    destruct (roomsData st !! room) as [data|] eqn:Hd;
      [|intros [= <- _]; by apply effect_none].
    destruct (started data && gameOver data);
      [intros [= <- _]; by apply effect_none|].
    case_decide; intros [= <- _]; [by apply effect_none|].
    eapply effect_room; [exact Hd| |done..].
    intros u pos Hu. simpl.
    destruct (positions data !! userID) eqn:E; simpl; [by exists pos|].
    exists pos. split; [|done]. rewrite lookup_insert_ne; [done|congruence].
  - unfold submitBid. destruct (truthy _) as [room|];
      [|intros [= <- _]; by apply effect_none].
    destruct (roomsData st !! room) as [data|] eqn:Hd;
      [|intros [= <- _]; by apply effect_none].
    destruct (negb (started data) || gameOver data); intros [= <- _];
      [by apply effect_none|].
    apply (effect_update_room _ data); [done|]. by apply room_extends_same.
  - unfold finalizeGame. destruct (truthy _) as [room|];
      [|intros [= <- _]; by apply effect_none].
    destruct (roomsData st !! room) as [data|] eqn:Hd;
      [|intros [= <- _]; by apply effect_none].
    intros [= <- _]. apply (effect_update_room _ data); [done|].
    apply (room_extends_fmap (settlePosition finalPx)); [|done].
    intros pos. apply push_history_prefix.
  - unfold disconnect. destruct (truthy _) as [room|];
      [|intros [= <- _]; by apply effect_none].
    destruct (destroyRoom (Some room) userID st) as [s o] eqn:E.
    intros [= <- _]. by eapply destroyRoom_effect.
  - unfold heartbeatTimeout.
    destruct (destroyRoom (adminToRoom st !! ID) ID st) as [s o] eqn:E.
    intros [= <- _]. by eapply destroyRoom_effect.
Qed.

Lemma reachable_registered st : reachable Math_sqrt st → registered st.
Proof.
  induction 1 as [|st ev st' out _ IH Hstep].
  - intros room _. apply lookup_empty.
  - eapply effect_registered; [|exact IH]. by eapply handle_effect.
Qed.

Lemma run_reachable evs :
  ∀ st st', reachable Math_sqrt st → run Math_sqrt evs st = Some st' →
            reachable Math_sqrt st'.
Proof.
  induction evs as [|ev evs IH]; intros st st' Hst; simpl.
  - by intros [= <-].
  - destruct (handle Math_sqrt ev st) as [[st1 out]|] eqn:E; [|done].
    apply IH. by eapply reachable_step.
Qed.
End Histories.

Section Ledger.
Variable Math_sqrt : Q → Q.

(** C9.  On every round advance the valuation step runs for every
    position of the room, whether or not its player has bid: the position
    that the matching step hands over (for a player without a bid, the
    position as it was) has its cash multiplied by [1 + riskFreeStepRate],
    and [compounded cash + calls * marketPrice], at the room's market price
    after the round, is appended to its history.  And whatever event the
    server handles, in any state it can reach, every position that a room
    had is still there afterwards, with its earlier history as an initial
    segment of the new one. *)
Theorem valuation_and_history :
  (∀ adminID room st data,
     truthy (adminToRoom st !! adminID) = Some room →
     roomsData st !! room = Some data →
     ∃ st' out data',
       roundUpdate Math_sqrt adminID st = Some (st', out)
       ∧ roomsData st' !! room = Some data'
       ∧ marketPrice data' = (settledRound data).1
       ∧ (∀ u pos,
            positions data !! u = Some pos →
            ∃ posm,
              (settledRound data).2 !! u = Some posm
              ∧ portfolioHistory posm = portfolioHistory pos
              ∧ (bids data !! u = None → posm = pos))
       ∧ (∀ u posm,
            (settledRound data).2 !! u = Some posm →
            ∃ pos',
              positions data' !! u = Some pos'
              ∧ cash pos' = (cash posm * (1 + riskFreeStepRate))%Q
              ∧ calls pos' = calls posm
              ∧ portfolioHistory pos'
                = portfolioHistory posm
                    ++ [(cash posm * (1 + riskFreeStepRate)
                         + inject_Z (calls posm) * marketPrice data')%Q]))
  ∧ (∀ st ev st' out,
       reachable Math_sqrt st →
       handle Math_sqrt ev st = Some (st', out) →
       history_extends st st').
Proof.
  split.
  - intros adminID room st data Hr Hd.
    destruct (roundUpdate_advancedRoom Math_sqrt _ _ _ _ Hr Hd) as [out Hout].
    eexists _, _, _. split; [exact Hout|]. split; [apply lookup_update_room|].
    split; [done|]. split; [apply settledRound_position|].
    intros u posm Hm. eexists. split.
    + unfold advancedRoom. simpl. rewrite valued_lookup, Hm. simpl. done.
    + done.
  - intros st ev st' out Hreach Hstep.
    apply effect_history_extends.
    + by eapply handle_effect.
    + by eapply reachable_registered.
Qed.
End Ledger.

Example partial_round_run :
  run sqrt_digits (opening_events ++ [SubmitBid 12 "A"; SubmitBid 10 "B"])
    initialState
  = Some partial_round.
Proof. vm_compute. reflexivity. Qed.

(** In the round in which only A and B have bid, C's position is valued all
    the same: the new point is the compounded 100 plus no calls at the
    clearing price; and the round advance extends every history of the
    room. *)
Lemma valuation_and_history_witness :
  ∃ st' out data' pos',
    roundUpdate sqrt_digits "adm" partial_round = Some (st', out)
    ∧ roomsData st' !! "r1" = Some data'
    ∧ positions data' !! "C" = Some pos'
    ∧ portfolioHistory pos'
      = [100%Q; (100 * (1 + riskFreeStepRate) + 0 * marketPrice data')%Q]
    ∧ history_extends partial_round st'.
Proof.
  destruct (valuation_and_history sqrt_digits) as [Hround Hstep].
  destruct (Hround "adm" "r1" partial_round (room3 SellCall 1 partial_bids))
    as (st' & out & data' & Hrun & Hd' & _ & Hpos & Hval);
    [vm_compute; reflexivity..|].
  destruct (Hpos "C" (opening [100%Q])) as (posm & Hm & _ & Hsame);
    [vm_compute; reflexivity|].
  rewrite (Hsame eq_refl) in Hm.
  destruct (Hval "C" _ Hm) as (pos' & HC & _ & _ & Hh).
  exists st', out, data', pos'. repeat (split; [done|]).
  apply (Hstep partial_round (RoundUpdate "adm") st' out); [|exact Hrun].
  apply (run_reachable sqrt_digits _ initialState _ (reachable_init _)
           partial_round_run).
Defined.

(** ** Players with a bid have a position *)

Lemma lookup_fold_delete (ids : list string) :
  ∀ (m : gmap string string) u,
    fold_left (λ m id, delete id m) ids m !! u
    = if decide (u ∈ ids) then None else m !! u.
Proof.
  induction ids as [|id ids IH]; intros m u; cbn [fold_left].
  - case_decide as Hin; [|done]. by apply elem_of_nil in Hin.
  - rewrite IH. repeat case_decide; try done.
    + exfalso. by eauto using list_elem_of_further.
    + destruct (decide (u = id)) as [->|Hne]; [apply lookup_delete_eq|].
      exfalso. match goal with H : u ∈ id :: ids |- _ =>
        apply elem_of_cons in H as [?|?]; done end.
    + rewrite lookup_delete_ne; [done|]. intros ->.
      match goal with H : ¬ _ ∈ _ :: _ |- _ => apply H, list_elem_of_here end.
Qed.

Lemma consistent_init : consistent initialState.
Proof.
  split; simpl.
  - intros room _. apply lookup_empty.
  - intros u room H. by rewrite lookup_empty in H.
  - intros room data H. by rewrite lookup_empty in H.
  - intros room data H. by rewrite lookup_empty in H.
Qed.

(** A handler that rewrites the object of one room, keeps its roster or adds
    to it, and maps players to that room only if they are in the roster. *)
Lemma consistent_room room d d' st st' :
  consistent st →
  roomsData st !! room = Some d →
  rooms st' = rooms st →
  roomsData st' = <[room := d']> (roomsData st) →
  (∀ u r, playerToRoom st' !! u = Some r →
          playerToRoom st !! u = Some r ∨ (r = room ∧ u ∈ dom (usernames d'))) →
  dom (usernames d) ⊆ dom (usernames d') →
  dom (usernames d') ⊆ dom (positions d') →
  dom (bids d') ⊆ dom (usernames d') →
  consistent st'.
Proof.
  intros [Hreg Hseat Hpos Hbid] Hd Hr Hrd Hp2r Hun Hps Hbs. split.
  - intros room' Hn. rewrite Hr in Hn. rewrite Hrd.
    destruct (decide (room = room')) as [<-|Hne].
    + rewrite (Hreg room Hn) in Hd. done.
    + rewrite lookup_insert_ne by done. by apply Hreg.
  - intros u r Hu. rewrite Hrd.
    destruct (Hp2r u r Hu) as [Hold|[-> Hin]].
    + destruct (Hseat u r Hold) as (data & Hdata & Hin).
      destruct (decide (room = r)) as [<-|Hne].
      * rewrite lookup_insert_eq. exists d'. split; [done|].
        rewrite Hd in Hdata. injection Hdata as <-. by apply Hun.
      * rewrite lookup_insert_ne by done. by exists data.
    + rewrite lookup_insert_eq. by exists d'.
  - intros r data. rewrite Hrd.
    destruct (decide (room = r)) as [<-|Hne].
    + rewrite lookup_insert_eq. by intros [= <-].
    + rewrite lookup_insert_ne by done. apply Hpos.
  - intros r data. rewrite Hrd.
    destruct (decide (room = r)) as [<-|Hne].
    + rewrite lookup_insert_eq. by intros [= <-].
    + rewrite lookup_insert_ne by done. apply Hbid.
Qed.

Lemma consistent_update_room room d d' st :
  consistent st →
  roomsData st !! room = Some d →
  usernames d' = usernames d →
  dom (positions d) ⊆ dom (positions d') →
  dom (bids d') ⊆ dom (bids d) →
  consistent (update_room room d' st).
Proof.
  intros Hc Hd Hun Hps Hbs.
  apply (consistent_room room d d' st); try done.
  - intros u r Hu. by left.
  - by rewrite Hun.
  - rewrite Hun. etrans; [|exact Hps]. by eapply consistent_positions.
  - rewrite Hun. etrans; [exact Hbs|]. by eapply consistent_bids.
Qed.

Lemma consistent_roomStart room userID st st' out :
  consistent st → roomStart room userID st = Some (st', out) → consistent st'.
Proof.
  intros Hc. unfold roomStart. repeat case_decide; intros [= <- _]; [done..|].
  destruct Hc as [Hreg Hseat Hpos Hbid].
  assert (roomsData st !! room = None) as Hnone by by apply Hreg.
  split; simpl.
  - intros room' Hn. simpl in *. apply not_elem_of_union in Hn as [Hne Hn].
    apply not_elem_of_singleton in Hne.
    rewrite lookup_insert_ne by done. by apply Hreg.
  - intros u r Hu. destruct (Hseat u r Hu) as (data & Hdata & Hin).
    exists data. split; [|done].
    rewrite lookup_insert_ne; [done|]. intros ->. congruence.
  - intros r data. destruct (decide (room = r)) as [<-|Hne].
    + rewrite lookup_insert_eq. by intros [= <-].
    + rewrite lookup_insert_ne by done. apply Hpos.
  - intros r data. destruct (decide (room = r)) as [<-|Hne].
    + rewrite lookup_insert_eq. by intros [= <-].
    + rewrite lookup_insert_ne by done. apply Hbid.
Qed.

Lemma consistent_destroyRoom room adminID st st' out :
  consistent st → destroyRoom room adminID st = (st', out) → consistent st'.
Proof.
  intros Hc. unfold destroyRoom. destruct (truthy room) as [r|]; [|by intros [= <- _]].
  destruct (roomsData st !! r) as [data|] eqn:Hd; [|by intros [= <- _]].
  intros [= <- _]. destruct Hc as [Hreg Hseat Hpos Hbid]. split; simpl.
  - intros room'. intros Hn. simpl in *. destruct (decide (r = room')) as [<-|Hne].
    + apply lookup_delete_eq.
    + rewrite lookup_delete_ne by done. apply Hreg.
      intros Hin. apply Hn, elem_of_difference. split; [done|].
      by apply not_elem_of_singleton.
  - intros u room'. rewrite lookup_fold_delete. case_decide as Hin; [done|].
    intros Hu. destruct (Hseat u room' Hu) as (data' & Hdata' & Hin').
    exists data'. split; [|done].
    rewrite lookup_delete_ne; [done|]. intros <-.
    rewrite Hd in Hdata'. injection Hdata' as <-.
    apply Hin. apply elem_of_dom in Hin' as [name Hname].
    apply list_elem_of_fmap. exists (u, name). split; [done|].
    by apply elem_of_map_to_list.
  - intros room' data'. destruct (decide (r = room')) as [<-|Hne].
    + by rewrite lookup_delete_eq.
    + rewrite lookup_delete_ne by done. apply Hpos.
  - intros room' data'. destruct (decide (r = room')) as [<-|Hne].
    + by rewrite lookup_delete_eq.
    + rewrite lookup_delete_ne by done. apply Hbid.
Qed.

Lemma settledRound_dom data : dom (positions data) ⊆ dom (settledRound data).2.
Proof.
  intros u Hu. apply elem_of_dom in Hu as [pos Hpos].
  destruct (settledRound_position data u pos Hpos) as (posm & Hm & _).
  apply elem_of_dom. by exists posm.
Qed.

Lemma consistent_joinRoom room username userID st st' out :
  consistent st → joinRoom room username userID st = Some (st', out) →
  consistent st'.
Proof.
  intros Hc. unfold joinRoom. case_decide; [by intros [= <- _]|].
  destruct (roomsData st !! room) as [data|] eqn:Hd; [|by intros [= <- _]].
  destruct (started data && gameOver data); [by intros [= <- _]|].
  case_decide; intros [= <- _]; [done|].
  pose proof (consistent_positions st Hc room data Hd) as Hps.
  pose proof (consistent_bids st Hc room data Hd) as Hbs.
  assert (∀ u, u ∈ dom (<[userID:=username]> (usernames data))
               ↔ u = userID ∨ u ∈ dom (usernames data)) as Hdom.
  { intros u. rewrite dom_insert, elem_of_union, elem_of_singleton. done. }
  eapply (consistent_room room data); [done..| | | |].
  - intros u r. simpl. destruct (decide (userID = u)) as [<-|Hne].
    + rewrite lookup_insert_eq. intros [= <-]. right. split; [done|].
      destruct (positions data !! userID); simpl; apply Hdom; by left.
    + rewrite lookup_insert_ne by done. by left.
  - intros u Hu. destruct (positions data !! userID); simpl; apply Hdom; by right.
  - intros u Hu.
    assert (u = userID ∨ u ∈ dom (usernames data)) as [->|Hin]
      by (destruct (positions data !! userID); simpl in Hu; by apply Hdom).
    + destruct (positions data !! userID) eqn:E; simpl.
      * by apply elem_of_dom_2 in E.
      * apply elem_of_dom. rewrite lookup_insert_eq. by eexists.
    + apply Hps in Hin. destruct (positions data !! userID) eqn:E; simpl; [done|].
      rewrite dom_insert. by apply elem_of_union_r.
  - intros u Hu.
    assert (u ∈ dom (bids data)) as Hin
      by (destruct (positions data !! userID); by simpl in Hu).
    apply Hbs in Hin. destruct (positions data !! userID); simpl; apply Hdom; by right.
Qed.

Lemma consistent_submitBid bidPrice userID st st' out :
  consistent st → submitBid bidPrice userID st = Some (st', out) → consistent st'.
Proof.
  intros Hc. unfold submitBid.
  destruct (playerToRoom st !! userID) as [r|] eqn:Hp; simpl; [|by intros [= <- _]].
  case_decide; [by intros [= <- _]|].
  destruct (roomsData st !! r) as [data|] eqn:Hd; [|by intros [= <- _]].
  destruct (negb (started data) || gameOver data); intros [= <- _]; [done|].
  destruct (consistent_seated st Hc userID r Hp) as (data' & Hd' & Hin).
  rewrite Hd in Hd'. injection Hd' as <-.
  eapply (consistent_room r data); [done..| | | |]; simpl.
  - intros u r'. by left.
  - done.
  - by eapply consistent_positions.
  - pose proof (consistent_bids st Hc r data Hd) as Hbs.
    intros u. rewrite dom_insert, elem_of_union, elem_of_singleton.
    intros [->|Hu]; [done|by apply Hbs].
Qed.

Section Consistency.
Variable Math_sqrt : Q → Q.

Lemma handle_consistent ev st st' out :
  consistent st → handle Math_sqrt ev st = Some (st', out) → consistent st'.
Proof.
  intros Hc.
  destruct ev as [room userID|adminID now|adminID|room|room username userID
                 |bidPrice userID|adminID finalPx|userID|ID]; simpl.
  - by apply consistent_roomStart.
  - unfold startGame. destruct (truthy _) as [room|]; [|by intros [= <- _]].
    destruct (roomsData st !! room) as [data|] eqn:Hd; [|by intros [= <- _]].
    destruct (started data); intros [= <- _]; [done|].
    apply (consistent_update_room room data); try done.
    simpl. by rewrite dom_fmap_L.
  - destruct (truthy (adminToRoom st !! adminID)) as [room|] eqn:Hr.
    + destruct (roomsData st !! room) as [data|] eqn:Hd.
      * destruct (roundUpdate_advancedRoom Math_sqrt _ _ _ _ Hr Hd) as [o ->].
        intros [= <- _]. apply (consistent_update_room room data); [done..| |].
        -- simpl. rewrite valued_dom. apply settledRound_dom.
        -- simpl. rewrite dom_empty. apply empty_subseteq.
      * unfold roundUpdate, processRoundBids. rewrite Hr, Hd. done.
    + unfold roundUpdate. rewrite Hr. by intros [= <- _].
  - unfold tryRoom. by case_decide; intros [= <- _].
  - by apply consistent_joinRoom.
  - by apply consistent_submitBid.
  - unfold finalizeGame. destruct (truthy _) as [room|]; [|by intros [= <- _]].
    destruct (roomsData st !! room) as [data|] eqn:Hd; [|by intros [= <- _]].
    intros [= <- _]. apply (consistent_update_room room data); try done.
    simpl. by rewrite dom_fmap_L.
  - unfold disconnect. destruct (truthy _) as [room|]; [|by intros [= <- _]].
    destruct (destroyRoom (Some room) userID st) as [s o] eqn:E.
    intros [= <- _]. by eapply consistent_destroyRoom.
  - unfold heartbeatTimeout.
    destruct (destroyRoom (adminToRoom st !! ID) ID st) as [s o] eqn:E.
    intros [= <- _]. by eapply consistent_destroyRoom.
Qed.

Lemma reachable_consistent st : reachable Math_sqrt st → consistent st.
Proof.
  induction 1 as [|st ev st' out _ IH Hstep]; [apply consistent_init|].
  by eapply handle_consistent.
Qed.

(** In every state the server reaches, a player with a pending bid has a
    position in the room: the matching loop never has to create one. *)
Lemma reachable_bidder_position st room data u bidPx :
  reachable Math_sqrt st →
  roomsData st !! room = Some data →
  bids data !! u = Some bidPx →
  is_Some (positions data !! u).
Proof.
  intros Hreach Hd Hu. apply reachable_consistent in Hreach.
  apply elem_of_dom.
  apply (consistent_positions st Hreach room data Hd).
  apply (consistent_bids st Hreach room data Hd).
  apply elem_of_dom. by exists bidPx.
Qed.
End Consistency.

(** * More of the server *)

#[local] Set Warnings "-clear-no-such-hyp".

(** ** The shape of a step *)

Lemma destroyRoom_closedState room adminID data st :
  room ≠ "" → roomsData st !! room = Some data →
  destroyRoom (Some room) adminID st
  = (closedState room adminID data st, [ToRoom room (roomClosed room)]).
Proof.
  intros Hne Hd. unfold destroyRoom, truthy. rewrite decide_False by done.
  by rewrite Hd.
Qed.

Lemma truthy_Some o room : truthy o = Some room → o = Some room ∧ room ≠ "".
Proof.
  unfold truthy. destruct o as [s|]; [|done]. case_decide; [done|].
  by intros [= ->].
Qed.

Lemma truthy_intro room : room ≠ "" → truthy (Some room) = Some room.
Proof. intros H. unfold truthy. by rewrite decide_False. Qed.

Section Steps.
Variable Math_sqrt : Q → Q.

Lemma handle_transition ev st st' out :
  handle Math_sqrt ev st = Some (st', out) → transition Math_sqrt st st'.
Proof.
  destruct ev as [room userID|adminID now|adminID|room|room username userID
                 |bidPrice userID|adminID finalPx|userID|ID]; simpl.
  - unfold roomStart. repeat case_decide; intros [= <- _];
      [apply tr_none..|by apply tr_open].
  - unfold startGame. destruct (truthy _) as [room|] eqn:Hr;
      [|intros [= <- _]; apply tr_none].
    destruct (roomsData st !! room) as [data|] eqn:Hd;
      [|intros [= <- _]; apply tr_none].
    destruct (started data) eqn:Hs; intros [= <- _]; [apply tr_none|].
    by eapply tr_start.
  - destruct (truthy (adminToRoom st !! adminID)) as [room|] eqn:Hr.
    + destruct (roomsData st !! room) as [data|] eqn:Hd.
      * destruct (roundUpdate_advancedRoom Math_sqrt _ _ _ _ Hr Hd) as [o ->].
        intros [= <- _]. by eapply tr_advance.
      * unfold roundUpdate, processRoundBids. rewrite Hr, Hd. done.
    + unfold roundUpdate. rewrite Hr. intros [= <- _]. apply tr_none.
  - unfold tryRoom. case_decide; intros [= <- _]; apply tr_none.
  - unfold joinRoom. case_decide as Hn; [intros [= <- _]; apply tr_none|].
    destruct (roomsData st !! room) as [data|] eqn:Hd;
      [|intros [= <- _]; apply tr_none].
    destruct (started data && gameOver data) eqn:Ht;
      [intros [= <- _]; apply tr_none|].
    case_decide; intros [= <- _]; [apply tr_none|].
    apply (tr_join _ _ room username userID data); try done.
    + intros ->. apply Hn. by left.
    + destruct (decide (room ∈ rooms st)); [done|]. exfalso. apply Hn. by right.
  - unfold submitBid. destruct (truthy _) as [room|] eqn:Hr;
      [|intros [= <- _]; apply tr_none].
    destruct (roomsData st !! room) as [data|] eqn:Hd;
      [|intros [= <- _]; apply tr_none].
    destruct (started data) eqn:Hs, (gameOver data) eqn:Ho; simpl;
      intros [= <- _]; try apply tr_none.
    by eapply tr_bid.
  - unfold finalizeGame. destruct (truthy _) as [room|] eqn:Hr;
      [|intros [= <- _]; apply tr_none].
    destruct (roomsData st !! room) as [data|] eqn:Hd;
      [|intros [= <- _]; apply tr_none].
    intros [= <- _]. by eapply tr_final.
  - unfold disconnect. destruct (truthy _) as [room|] eqn:Hr;
      [|intros [= <- _]; apply tr_none].
    destruct (truthy_Some _ _ Hr) as [_ Hne].
    destruct (roomsData st !! room) as [data|] eqn:Hd.
    + rewrite (destroyRoom_closedState _ _ _ _ Hne Hd). intros [= <- _].
      by eapply tr_close.
    + unfold destroyRoom. rewrite truthy_intro, Hd by done.
      intros [= <- _]. apply tr_none.
  - unfold heartbeatTimeout, destroyRoom.
    destruct (truthy (adminToRoom st !! ID)) as [room|] eqn:Hr;
      [|intros [= <- _]; apply tr_none].
    destruct (roomsData st !! room) as [data|] eqn:Hd;
      intros [= <- _]; [|apply tr_none].
    by eapply tr_close.
Qed.

Lemma reachable_transition_ind (P : State → Prop) :
  P initialState →
  (∀ st st', reachable Math_sqrt st → P st → transition Math_sqrt st st' → P st') →
  ∀ st, reachable Math_sqrt st → P st.
Proof.
  intros Hinit Hstep st Hreach.
  induction Hreach as [|st ev st' out Hreach IH Hhandle]; [done|].
  eapply Hstep; [done..|]. by eapply handle_transition.
Qed.
End Steps.

(** ** The registries stay in step *)

Lemma wf_admin st adminID room :
  wellformed st → adminToRoom st !! adminID = Some room →
  is_Some (roomsData st !! room).
Proof.
  intros Hwf Ha. destruct (wf_admin_owner st Hwf adminID room Ha) as (d & Hd & _).
  by exists d.
Qed.

Lemma wf_admin_inj st a a' room :
  wellformed st → adminToRoom st !! a = Some room →
  adminToRoom st !! a' = Some room → a = a'.
Proof.
  intros Hwf Ha Ha'.
  destruct (wf_admin_owner st Hwf a room Ha) as (d & Hd & <-).
  destruct (wf_admin_owner st Hwf a' room Ha') as (d' & Hd' & <-).
  congruence.
Qed.

Lemma wellformed_init : wellformed initialState.
Proof.
  split; simpl.
  - intros room. rewrite lookup_empty. split; [by intros ?%elem_of_empty|by intros [? ?]].
  - apply not_elem_of_empty.
  - intros a room H. by rewrite lookup_empty in H.
  - intros room. by rewrite !lookup_empty.
Qed.

(** A step that rewrites the object of one room and keeps its admin. *)
Lemma wellformed_room_update room d d' st st' :
  wellformed st →
  roomsData st !! room = Some d → admin d' = admin d →
  rooms st' = rooms st → adminToRoom st' = adminToRoom st →
  roomToAdmin st' = roomToAdmin st →
  roomsData st' = <[room := d']> (roomsData st) →
  wellformed st'.
Proof.
  intros [Hrooms Hname Hadm Hr2a] Hd Hadmin Hr Ha Hra Hrd.
  assert (∀ r, is_Some (<[room := d']> (roomsData st) !! r)
               ↔ is_Some (roomsData st !! r)) as Hsome.
  { intros r. destruct (decide (room = r)) as [<-|Hne].
    - rewrite lookup_insert_eq, Hd. split; eauto.
    - by rewrite lookup_insert_ne. }
  split.
  - intros r. by rewrite Hr, Hrd, Hsome.
  - by rewrite Hr.
  - intros a r. rewrite Ha, Hrd. intros H.
    destruct (Hadm a r H) as (data & Hdata & Hown).
    destruct (decide (room = r)) as [<-|Hne].
    + rewrite lookup_insert_eq. exists d'. split; [done|]. congruence.
    + rewrite lookup_insert_ne by done. eauto.
  - intros r. rewrite Hra, Hrd, Hr2a. destruct (decide (room = r)) as [<-|Hne].
    + rewrite lookup_insert_eq, Hd. simpl. by rewrite Hadmin.
    + by rewrite lookup_insert_ne.
Qed.

Lemma wellformed_opened room userID st :
  wellformed st → room ≠ "" → room ∉ rooms st →
  wellformed (openedState room userID st).
Proof.
  intros [Hrooms Hname Hadm Hr2a] Hne Hfresh.
  assert (roomsData st !! room = None) as Hnone.
  { destruct (roomsData st !! room) eqn:E; [|done].
    exfalso. apply Hfresh, Hrooms. by eexists. }
  split; simpl.
  - intros r. rewrite elem_of_union, elem_of_singleton.
    destruct (decide (room = r)) as [<-|Hr].
    + rewrite lookup_insert_eq. split; eauto.
    + rewrite lookup_insert_ne by done. rewrite <- Hrooms. naive_solver.
  - rewrite elem_of_union, elem_of_singleton. naive_solver.
  - intros a r. destruct (decide (userID = a)) as [<-|Ha].
    + rewrite lookup_insert_eq. intros [= <-]. rewrite lookup_insert_eq. eauto.
    + rewrite lookup_insert_ne by done. intros H.
      destruct (Hadm a r H) as (data & Hdata & Hown).
      rewrite lookup_insert_ne; [eauto|congruence].
  - intros r. destruct (decide (room = r)) as [<-|Hr].
    + by rewrite !lookup_insert_eq.
    + by rewrite !lookup_insert_ne.
Qed.

Lemma wellformed_closed adminID room data st :
  wellformed st →
  adminToRoom st !! adminID = Some room → roomsData st !! room = Some data →
  wellformed (closedState room adminID data st).
Proof.
  intros Hwf Ha Hd. pose proof Hwf as [Hrooms Hname Hadm Hr2a]. split; simpl.
  - intros r. rewrite elem_of_difference, elem_of_singleton.
    destruct (decide (room = r)) as [<-|Hr].
    + rewrite lookup_delete_eq. split; [naive_solver|by intros [? ?]].
    + rewrite lookup_delete_ne by done. rewrite <- Hrooms. naive_solver.
  - rewrite elem_of_difference. naive_solver.
  - intros a r. destruct (decide (adminID = a)) as [<-|Hne].
    + by rewrite lookup_delete_eq.
    + rewrite lookup_delete_ne by done. intros H.
      rewrite lookup_delete_ne; [by apply Hadm|].
      intros <-. apply Hne. by eapply wf_admin_inj.
  - intros r. destruct (decide (room = r)) as [<-|Hr].
    + by rewrite !lookup_delete_eq.
    + by rewrite !lookup_delete_ne.
Qed.

Section Wellformed.
Variable Math_sqrt : Q → Q.

Lemma transition_wellformed st st' :
  wellformed st → transition Math_sqrt st st' → wellformed st'.
Proof.
  intros Hwf [|room userID Hne Hfresh|adminID room data now Hr Hd Hs
             |adminID room data Hr Hd|room username userID data Hu Hin Hd Ht Hn
             |bidPrice userID room data Hr Hd Hs Ho|adminID room data finalPx Hr Hd
             |adminID room data Hr Hd].
  - done.
  - by apply wellformed_opened.
  - by apply (wellformed_room_update room data (startedRoom now data) st).
  - by apply (wellformed_room_update room data (advancedRoom Math_sqrt data) st).
  - apply (wellformed_room_update room data (joinedRoom username userID data) st);
      try done.
    unfold joinedRoom. simpl. by destruct (positions data !! userID).
  - by apply (wellformed_room_update room data (bidRoom bidPrice userID data) st).
  - by apply (wellformed_room_update room data (finalizedRoom finalPx data) st).
  - apply truthy_Some in Hr as [Hr _]. by apply wellformed_closed.
Qed.

Lemma wellformed_reachable st : reachable Math_sqrt st → wellformed st.
Proof.
  apply reachable_transition_ind; [apply wellformed_init|].
  intros s s' _ Hwf Htr. by eapply transition_wellformed.
Qed.

(** Ordinary events lead to states the server reaches. *)
Lemma served_reachable st : served Math_sqrt st → reachable Math_sqrt st.
Proof.
  induction 1 as [|st ev st' out _ IH _ Hstep]; [apply reachable_init|].
  by eapply reachable_step.
Qed.

Lemma run_served evs st st' :
  served Math_sqrt st → Forall ordinaryEvent evs →
  run Math_sqrt evs st = Some st' → served Math_sqrt st'.
Proof.
  revert st. induction evs as [|ev evs IH]; intros st Hst Hevs; simpl.
  - by intros [= <-].
  - destruct (handle Math_sqrt ev st) as [[st1 out]|] eqn:E; [|done].
    apply Forall_cons in Hevs as [Hev Hevs].
    apply IH; [|done]. by eapply served_step.
Qed.

(** X1.  In every state the server is in after ordinary events the
    registries agree: [rooms] holds exactly the names that have a room
    object, and never the empty name; an admin in [adminToRoom] is mapped to
    a room whose object names that admin, so no two admins are mapped to the
    same room; and [roomToAdmin] holds, for each room, the [admin] of its
    object. *)
Theorem registries_agree st :
  served Math_sqrt st →
  (∀ room, room ∈ rooms st ↔ is_Some (roomsData st !! room))
  ∧ ("" ∉ rooms st)
  ∧ (∀ adminID room,
       adminToRoom st !! adminID = Some room →
       room ∈ rooms st
       ∧ (admin <$> roomsData st !! room) = Some adminID
       ∧ roomToAdmin st !! room = Some adminID)
  ∧ (∀ a a' room,
       adminToRoom st !! a = Some room → adminToRoom st !! a' = Some room →
       a = a')
  ∧ (∀ room, is_Some (roomToAdmin st !! room) ↔ room ∈ rooms st).
Proof.
  intros Hreach%served_reachable. apply wellformed_reachable in Hreach as Hwf.
  split; [apply (wf_rooms st Hwf)|]. split; [apply (wf_room_names st Hwf)|].
  split; [|split].
  - intros a room Ha.
    destruct (wf_admin_owner st Hwf a room Ha) as (data & Hd & Hown).
    split; [apply (wf_rooms st Hwf); by exists data|].
    rewrite (wf_roomToAdmin st Hwf), Hd. simpl. by rewrite Hown.
  - intros a a' room. by apply wf_admin_inj.
  - intros room. rewrite (wf_roomToAdmin st Hwf), (wf_rooms st Hwf).
    by rewrite fmap_is_Some.
Qed.
End Wellformed.

Lemma sell_round_reachable : reachable sqrt_digits sell_round.
Proof.
  apply (run_reachable sqrt_digits _ initialState _ (reachable_init _) sell_round_run).
Qed.

(** The events of the sample runs are ordinary. *)
Ltac ordinary_events := repeat constructor; by apply ordinary_decide.

Lemma sell_round_served : served sqrt_digits sell_round.
Proof.
  apply (run_served sqrt_digits _ initialState _ (served_init _))
    with (2 := sell_round_run).
  ordinary_events.
Qed.

(** The three-player room in the middle of a round is a state the server
    is in after ordinary events: the admin "adm" is mapped to "r1", whose
    object and whose entry in [roomToAdmin] name "adm". *)
Lemma registries_agree_witness :
  "r1" ∈ rooms sell_round
  ∧ (admin <$> roomsData sell_round !! "r1") = Some "adm"
  ∧ roomToAdmin sell_round !! "r1" = Some "adm".
Proof.
  destruct (registries_agree sqrt_digits sell_round sell_round_served)
    as (_ & _ & Hadm & _).
  apply (Hadm "adm" "r1"). vm_compute. reflexivity.
Defined.

(** ** No handler throws, and a join request is always answered *)

Section NoThrow.
Variable Math_sqrt : Q → Q.

(** The one way a handler can throw: a round advance by an admin whose room
    has no object. *)
Lemma handle_None ev st :
  handle Math_sqrt ev st = None →
  ∃ adminID room,
    ev = RoundUpdate adminID
    ∧ adminToRoom st !! adminID = Some room
    ∧ roomsData st !! room = None.
Proof.
  destruct ev as [room userID|adminID now|adminID|room|room username userID
                 |bidPrice userID|adminID finalPx|userID|ID]; simpl.
  - unfold roomStart. by repeat case_decide.
  - unfold startGame. by repeat case_match.
  - destruct (truthy (adminToRoom st !! adminID)) as [room|] eqn:Hr.
    + destruct (roomsData st !! room) as [data|] eqn:Hd.
      * by destruct (roundUpdate_advancedRoom Math_sqrt _ _ _ _ Hr Hd) as [o ->].
      * intros _. apply truthy_Some in Hr as [Hr _]. by exists adminID, room.
    + unfold roundUpdate. by rewrite Hr.
  - unfold tryRoom. by case_decide.
  - unfold joinRoom. by repeat case_match.
  - unfold submitBid. by repeat case_match.
  - unfold finalizeGame. by repeat case_match.
  - unfold disconnect. by repeat case_match.
  - done.
Qed.

(** X2.  In every state the server is in after ordinary events, every
    ordinary event is handled to completion: no handler throws, whatever the
    event and whatever ordinary keys it carries.  (A key such as
    ["constructor"] is not ordinary: [adminToRoom["constructor"]] is truthy
    in the source without an entry, which this statement leaves aside.) *)
Theorem handle_never_throws ev st :
  served Math_sqrt st → ordinaryEvent ev →
  ∃ st' out, handle Math_sqrt ev st = Some (st', out).
Proof.
  intros Hreach%served_reachable _.
  destruct (handle Math_sqrt ev st) as [[st' out]|] eqn:E; [eauto|].
  apply handle_None in E as (adminID & room & _ & Ha & Hd).
  apply wellformed_reachable in Hreach.
  destruct (wf_admin st adminID room Hreach Ha) as [data Hdata]. congruence.
Qed.

(** X3.  In every state the server reaches, a join request is answered to
    the requester with exactly one of [noSuchRoom], [gameAlreadyStarted],
    [usernameTaken] and [joinApproved], the last thing it emits.  Unless it
    is approved, nothing else is emitted and the registries are left as they
    were; when it is approved, the one other emission is the roster, sent to
    the room. *)
Theorem joinRoom_always_answers room username userID st :
  reachable Math_sqrt st →
  ∃ st' broadcast reply,
    joinRoom room username userID st = Some (st', broadcast ++ [ToSocket reply])
    ∧ reply ∈ [noSuchRoom; gameAlreadyStarted; usernameTaken; joinApproved]
    ∧ (reply ≠ joinApproved → st' = st ∧ broadcast = [])
    ∧ (reply = joinApproved →
       ∃ roster, broadcast = [ToRoom room (updateUserDisp roster)]).
Proof.
  intros Hreach. apply wellformed_reachable in Hreach.
  unfold joinRoom. case_decide as Hn.
  { exists st, [], noSuchRoom. split; [done|].
    split; [apply list_elem_of_here|]. by split. }
  destruct (decide (room ∈ rooms st)) as [Hin|Hnin]; [|exfalso; apply Hn; by right].
  apply (wf_rooms st Hreach) in Hin as [data Hd]. rewrite Hd.
  destruct (started data && gameOver data).
  { exists st, [], gameAlreadyStarted. split; [done|].
    split; [apply list_elem_of_further, list_elem_of_here|]. by split. }
  case_decide.
  { exists st, [], usernameTaken. split; [done|].
    split; [do 2 apply list_elem_of_further; apply list_elem_of_here|].
    by split. }
  eexists _, [_], joinApproved. split; [done|].
  split; [do 3 apply list_elem_of_further; apply list_elem_of_here|].
  split; [done|]. intros _. by eexists.
Qed.
End NoThrow.

(** A round advance in the middle of a round of the three-player room
    returns, and a join request with the taken name "bob" is answered. *)
Lemma handle_never_throws_witness :
  ∃ st' out, handle sqrt_digits (RoundUpdate "adm") sell_round = Some (st', out).
Proof.
  apply (handle_never_throws sqrt_digits); [apply sell_round_served|].
  by apply ordinary_decide.
Defined.

Lemma joinRoom_always_answers_witness :
  ∃ st' broadcast reply,
    joinRoom "r1" "bob" "D" sell_round = Some (st', broadcast ++ [ToSocket reply])
    ∧ reply ∈ [noSuchRoom; gameAlreadyStarted; usernameTaken; joinApproved]
    ∧ (reply ≠ joinApproved → st' = sell_round ∧ broadcast = [])
    ∧ (reply = joinApproved →
       ∃ roster, broadcast = [ToRoom "r1" (updateUserDisp roster)]).
Proof.
  apply (joinRoom_always_answers sqrt_digits), sell_round_reachable.
Defined.

(** ** Opening and closing rooms *)

(** X4.  [room-start] ignores the empty room name without a reply; it
    answers [roomNameTaken] and changes nothing when the name is registered;
    otherwise, for an ordinary name and an ordinary admin id, it registers
    the name with a fresh room object in the lobby, maps the admin and the
    room to each other and touches no other room and no player.  Afterwards
    [tryRoom] finds the room, and a second [room-start] for the name, by
    anyone, is refused. *)
Theorem roomStart_outcomes room userID st :
  (room = "" → roomStart room userID st = Some (st, []))
  ∧ (room ≠ "" → room ∈ rooms st →
     roomStart room userID st = Some (st, [ToSocket roomNameTaken]))
  ∧ (room ≠ "" → room ∉ rooms st → ordinary room → ordinary userID →
     ∃ st',
       roomStart room userID st = Some (st', [ToSocket roomStartSuccess])
       ∧ rooms st' = {[room]} ∪ rooms st
       ∧ roomsData st' !! room = Some (initRoomData userID)
       ∧ adminToRoom st' !! userID = Some room
       ∧ roomToAdmin st' !! room = Some userID
       ∧ playerToRoom st' = playerToRoom st
       ∧ (∀ r, r ≠ room → roomsData st' !! r = roomsData st !! r)
       ∧ (∀ a, a ≠ userID → adminToRoom st' !! a = adminToRoom st !! a)
       ∧ tryRoom room st' = Some (st', [ToSocket roomExists])
       ∧ ∀ other, roomStart room other st' = Some (st', [ToSocket roomNameTaken])).
Proof.
  split; [|split].
  - intros ->. unfold roomStart. by rewrite decide_True.
  - intros Hne Hin. unfold roomStart. by rewrite decide_False, decide_True.
  - intros Hne Hfresh _ _. exists (openedState room userID st).
    assert (room ∈ rooms (openedState room userID st)) as Hin.
    { simpl. apply elem_of_union_l. by apply elem_of_singleton. }
    split; [unfold roomStart; by rewrite !decide_False|].
    split; [done|]. split; [apply lookup_insert_eq|].
    split; [apply lookup_insert_eq|]. split; [apply lookup_insert_eq|].
    split; [done|].
    split; [intros r Hr; simpl; by rewrite lookup_insert_ne|].
    split; [intros a Ha; simpl; by rewrite lookup_insert_ne|].
    split; [unfold tryRoom; by rewrite decide_True|].
    intros other. unfold roomStart. by rewrite decide_False, decide_True.
Qed.

(** The admin "adm2" opens "r2" beside the three-player room "r1"; the name
    "r1" is taken. *)
Lemma roomStart_outcomes_witness :
  roomStart "r1" "adm2" quiet_round = Some (quiet_round, [ToSocket roomNameTaken])
  ∧ ∃ st',
      roomStart "r2" "adm2" quiet_round = Some (st', [ToSocket roomStartSuccess])
      ∧ roomsData st' !! "r2" = Some (initRoomData "adm2")
      ∧ tryRoom "r2" st' = Some (st', [ToSocket roomExists]).
Proof.
  destruct (roomStart_outcomes "r1" "adm2" quiet_round) as (_ & Htaken & _).
  destruct (roomStart_outcomes "r2" "adm2" quiet_round) as (_ & _ & Hopen).
  split; [apply Htaken; [done|set_solver]|].
  destruct Hopen as (st' & H & _ & Hd & _ & _ & _ & _ & _ & Htry & _);
    [done|set_solver|by apply ordinary_decide..|].
  by exists st'.
Defined.

Section Closing.
Variable Math_sqrt : Q → Q.

(** X5.  When the admin of a room disconnects, or the admin's heartbeat
    timer expires, in a state the server is in after ordinary events:
    [roomClosed] is broadcast
    to the room; the room leaves [rooms], [roomsData] and [roomToAdmin], and
    the admin leaves [adminToRoom]; every player of the room's roster loses
    the entry in [playerToRoom], so no player is mapped to the room any
    more, and the players outside the roster keep theirs; the other rooms
    are untouched; and the name can be opened again. *)
Theorem admin_leaving_closes_room adminID room st :
  served Math_sqrt st →
  adminToRoom st !! adminID = Some room →
  ∃ st' data,
    roomsData st !! room = Some data
    ∧ disconnect adminID st = Some (st', [ToRoom room (roomClosed room)])
    ∧ heartbeatTimeout adminID st = Some (st', [ToRoom room (roomClosed room)])
    ∧ (room ∉ rooms st')
    ∧ roomsData st' !! room = None
    ∧ roomToAdmin st' !! room = None
    ∧ adminToRoom st' !! adminID = None
    ∧ (∀ u, playerToRoom st' !! u ≠ Some room)
    ∧ (∀ u, u ∈ dom (usernames data) → playerToRoom st' !! u = None)
    ∧ (∀ u, u ∉ dom (usernames data) →
            playerToRoom st' !! u = playerToRoom st !! u)
    ∧ (∀ r, r ≠ room →
            roomsData st' !! r = roomsData st !! r
            ∧ (r ∈ rooms st' ↔ r ∈ rooms st))
    ∧ tryRoom room st' = Some (st', [ToSocket noSuchRoom])
    ∧ ∀ other, ∃ st'',
        roomStart room other st' = Some (st'', [ToSocket roomStartSuccess]).
Proof.
  intros Hreach%served_reachable Ha.
  pose proof (wellformed_reachable Math_sqrt st Hreach) as Hwf.
  pose proof (reachable_consistent Math_sqrt st Hreach) as Hc.
  destruct (wf_admin st adminID room Hwf Ha) as [data Hd].
  assert (room ≠ "") as Hne.
  { intros ->. apply (wf_room_names st Hwf), (wf_rooms st Hwf). by exists data. }
  assert (∀ u, u ∈ (map_to_list (usernames data)).*1 ↔ u ∈ dom (usernames data))
    as Hkeys.
  { intros u. rewrite elem_of_dom, list_elem_of_fmap. split.
    - intros ([u' name] & -> & Hin). apply elem_of_map_to_list in Hin. by exists name.
    - intros [name Hname]. exists (u, name). split; [done|].
      by apply elem_of_map_to_list. }
  assert (room ∉ rooms (closedState room adminID data st)) as Hgone.
  { simpl. rewrite elem_of_difference, elem_of_singleton. naive_solver. }
  exists (closedState room adminID data st), data. split; [done|].
  split. { unfold disconnect. rewrite Ha, truthy_intro by done.
           by rewrite (destroyRoom_closedState _ _ _ _ Hne Hd). }
  split. { unfold heartbeatTimeout. rewrite Ha.
           by rewrite (destroyRoom_closedState _ _ _ _ Hne Hd). }
  split; [done|]. split; [apply lookup_delete_eq|].
  split; [apply lookup_delete_eq|]. split; [apply lookup_delete_eq|].
  split.
  { intros u. simpl. rewrite lookup_fold_delete. case_decide as Hin; [done|].
    intros Hu. destruct (consistent_seated st Hc u room Hu) as (d & Hd' & Hroster).
    rewrite Hd in Hd'. injection Hd' as <-. by apply Hin, Hkeys. }
  split.
  { intros u Hu. simpl. rewrite lookup_fold_delete, decide_True; [done|].
    by apply Hkeys. }
  split.
  { intros u Hu. simpl. rewrite lookup_fold_delete, decide_False; [done|].
    by rewrite Hkeys. }
  split.
  { intros r Hr. simpl. rewrite lookup_delete_ne by done. split; [done|].
    rewrite elem_of_difference, elem_of_singleton. naive_solver. }
  split; [unfold tryRoom; by rewrite decide_False|].
  intros other. eexists. unfold roomStart. by rewrite !decide_False.
Qed.

Lemma transition_adminless room st st' :
  adminless st room → transition Math_sqrt st st' → adminless st' room.
Proof.
  intros [Hin Hno] [|r userID Hne Hfresh|adminID r data now Hr Hd Hs
             |adminID r data Hr Hd|r username userID data Hu Hrin Hd Ht Hn
             |bidPrice userID r data Hr Hd Hs Ho|adminID r data finalPx Hr Hd
             |adminID r data Hr Hd]; try done.
  - split; simpl.
    + by apply elem_of_union_r.
    + intros a. destruct (decide (userID = a)) as [<-|Ha].
      * rewrite lookup_insert_eq. intros [= ->]. done.
      * rewrite lookup_insert_ne by done. apply Hno.
  - apply truthy_Some in Hr as [Hr _]. split; simpl.
    + rewrite elem_of_difference, elem_of_singleton. split; [done|].
      intros ->. by apply (Hno adminID).
    + intros a. destruct (decide (adminID = a)) as [<-|Hne].
      * by rewrite lookup_delete_eq.
      * rewrite lookup_delete_ne by done. apply Hno.
Qed.

Lemma run_transition_invariant (P : State → Prop) :
  (∀ st st', P st → transition Math_sqrt st st' → P st') →
  ∀ evs st st', P st → run Math_sqrt evs st = Some st' → P st'.
Proof.
  intros Hstep. induction evs as [|ev evs IH]; intros st st' HP; simpl.
  - by intros [= <-].
  - destruct (handle Math_sqrt ev st) as [[st1 out]|] eqn:E; [|done].
    apply IH. eapply Hstep; [done|]. by eapply handle_transition.
Qed.

(** X6.  [room-start] does not close the room the admin already has.  When
    an admin who is mapped to a room opens a second one, in a state the
    server reaches, the admin is mapped to the new room and the first room
    stays registered, with its object as it was, but with no admin mapped to
    it; and whatever events follow, it stays registered and without an
    admin, so that no disconnect and no heartbeat expiry ever closes it. *)
Theorem second_room_orphans_first adminID room1 room2 st :
  reachable Math_sqrt st →
  adminToRoom st !! adminID = Some room1 →
  room2 ≠ "" → room2 ∉ rooms st →
  ∃ st',
    roomStart room2 adminID st = Some (st', [ToSocket roomStartSuccess])
    ∧ adminToRoom st' !! adminID = Some room2
    ∧ roomsData st' !! room1 = roomsData st !! room1
    ∧ adminless st' room1
    ∧ ∀ evs st'', run Math_sqrt evs st' = Some st'' → adminless st'' room1.
Proof.
  intros Hreach Ha Hne Hfresh.
  pose proof (wellformed_reachable Math_sqrt st Hreach) as Hwf.
  assert (room1 ∈ rooms st) as Hin1.
  { apply (wf_rooms st Hwf). by eapply wf_admin. }
  assert (room2 ≠ room1) as Hne12 by (intros ->; done).
  assert (adminless (openedState room2 adminID st) room1) as Horphan.
  { split; simpl; [by apply elem_of_union_r|].
    intros a. destruct (decide (adminID = a)) as [<-|Hne'].
    - rewrite lookup_insert_eq. by intros [= ?].
    - rewrite lookup_insert_ne by done. intros Ha'.
      apply Hne'. by eapply wf_admin_inj. }
  exists (openedState room2 adminID st).
  split; [unfold roomStart; by rewrite !decide_False|].
  split; [apply lookup_insert_eq|].
  split; [simpl; by rewrite lookup_insert_ne|]. split; [done|].
  intros evs st'' Hrun.
  apply (run_transition_invariant (λ s, adminless s room1)
           (transition_adminless room1) evs _ _ Horphan Hrun).
Qed.
End Closing.

Lemma quiet_round_reachable : reachable sqrt_digits quiet_round.
Proof.
  apply (run_reachable sqrt_digits _ initialState _ (reachable_init _)
           opening_events_run).
Qed.

(** The admin of the three-player room disconnects in the middle of a round:
    the room is gone and player A is no longer mapped to it. *)
Lemma admin_leaving_closes_room_witness :
  ∃ st',
    disconnect "adm" sell_round = Some (st', [ToRoom "r1" (roomClosed "r1")])
    ∧ ("r1" ∉ rooms st')
    ∧ playerToRoom st' !! "A" = None.
Proof.
  destruct (admin_leaving_closes_room sqrt_digits "adm" "r1" sell_round
              sell_round_served)
    as (st' & data & Hd & Hdis & _ & Hgone & _ & _ & _ & _ & Hroster & _);
    [vm_compute; reflexivity|].
  exists st'. split; [done|]. split; [done|]. apply Hroster.
  vm_compute in Hd. injection Hd as <-. apply elem_of_dom. by eexists.
Defined.

(** The admin of the three-player room opens a second room "r2" and then
    disconnects: "r2" is closed and "r1" is still registered. *)
Lemma second_room_orphans_first_witness :
  ∃ st' st'',
    roomStart "r2" "adm" quiet_round = Some (st', [ToSocket roomStartSuccess])
    ∧ run sqrt_digits [Disconnect "adm"] st' = Some st''
    ∧ ("r2" ∉ rooms st'')
    ∧ adminless st'' "r1".
Proof.
  destruct (second_room_orphans_first sqrt_digits "adm" "r1" "r2" quiet_round
              quiet_round_reachable)
    as (st' & Hopen & _ & _ & _ & Hforever);
    [vm_compute; reflexivity|done|set_solver|].
  assert (∃ st'', run sqrt_digits [Disconnect "adm"] st' = Some st''
                  ∧ ("r2" ∉ rooms st'')) as (st'' & Hrun & Hgone).
  { vm_compute in Hopen. injection Hopen as <-.
    eexists. split; [vm_compute; reflexivity|]. vm_compute. set_solver. }
  exists st', st''. split; [done|]. split; [done|]. split; [done|].
  by apply (Hforever [Disconnect "adm"]).
Defined.

(** ** What every room object satisfies *)

Lemma elem_of_roster_values (m : gmap string string) name :
  name ∈ (map_to_list m).*2 ↔ ∃ u, m !! u = Some name.
Proof.
  rewrite list_elem_of_fmap. split.
  - intros ([u n] & -> & Hin). apply elem_of_map_to_list in Hin. by exists u.
  - intros [u Hu]. exists (u, name). split; [done|]. by apply elem_of_map_to_list.
Qed.

Lemma settledRound_no_bids d :
  bids d = ∅ → settledRound d = (marketPrice d, positions d).
Proof.
  intros Hb. apply clearingPrice_None in Hb. unfold settledRound. by rewrite Hb.
Qed.

(** The matching step moves the option count of a player by at most one. *)
Lemma settledRound_calls d u posm :
  (settledRound d).2 !! u = Some posm →
  (Z.abs (calls posm - calls (default emptyPosition (positions d !! u))) ≤ 1)%Z
  ∧ (positions d !! u = None → bids d ≠ ∅).
Proof.
  unfold settledRound. destruct (clearingPrice d) as [clearing|] eqn:Hc; simpl.
  - rewrite matchBids_position. unfold matchedPosition.
    assert (bids d ≠ ∅) as Hb
      by (intros Hb; apply clearingPrice_None in Hb; congruence).
    destruct (bids d !! u) as [bidPx|].
    + destruct (executes _ _ _).
      * intros [= <-]. split; [|done].
        destruct (currentPromptType d); simpl; lia.
      * intros ->. simpl. split; [lia|done].
    + intros ->. simpl. split; [lia|done].
  - intros ->. simpl. split; [lia|done].
Qed.

Lemma room_invariant_init adminID : room_invariant (initRoomData adminID).
Proof.
  split; simpl; done.
Qed.

Lemma room_invariant_started now d :
  room_invariant d → started d = false → room_invariant (startedRoom now d).
Proof.
  intros [Hb Hp Hc Hn Hns Hdir Hcalls Hinj Hnames] Hs.
  split; simpl; try done.
  - intros _ u pos. rewrite lookup_fmap.
    destruct (positions d !! u) as [pos0|] eqn:E; [|done].
    intros [= <-]. simpl. rewrite (Hc Hs u pos0 E). lia.
Qed.

Lemma joinedRoom_fields username userID d :
  started (joinedRoom username userID d) = started d
  ∧ gameOver (joinedRoom username userID d) = gameOver d
  ∧ bids (joinedRoom username userID d) = bids d
  ∧ marketPrice (joinedRoom username userID d) = marketPrice d
  ∧ promptCount (joinedRoom username userID d) = promptCount d
  ∧ currentPromptType (joinedRoom username userID d) = currentPromptType d
  ∧ usernames (joinedRoom username userID d) = <[userID := username]> (usernames d).
Proof. unfold joinedRoom. simpl. by destruct (positions d !! userID). Qed.

Lemma joinedRoom_positions username userID d u :
  positions (joinedRoom username userID d) !! u
  = if decide (u = userID)
    then Some (default (mkPosition 100 0 [] None) (positions d !! userID))
    else positions d !! u.
Proof.
  unfold joinedRoom. simpl. case_decide as Hu.
  - subst u. destruct (positions d !! userID) eqn:E; simpl; [done|].
    apply lookup_insert_eq.
  - destruct (positions d !! userID); simpl; [done|]. by rewrite lookup_insert_ne.
Qed.

Lemma room_invariant_joined username userID d :
  room_invariant d → username ≠ "" →
  username ∉ (map_to_list (usernames d)).*2 →
  room_invariant (joinedRoom username userID d).
Proof.
  intros [Hb Hp Hc Hn Hns Hdir Hcalls Hinj Hnames] Hne Hfree.
  destruct (joinedRoom_fields username userID d)
    as (Es & Eo & Eb & Em & Ec & Et & Eu).
  assert (∀ u pos,
            positions (joinedRoom username userID d) !! u = Some pos →
            positions d !! u = Some pos ∨ calls pos = 0%Z) as Hpos.
  { intros u pos. rewrite joinedRoom_positions. case_decide as Hu; [|by left].
    subst u. destruct (positions d !! userID); simpl; intros [= <-];
      [by left|by right]. }
  assert (∀ u name,
            usernames (joinedRoom username userID d) !! u = Some name →
            (u = userID ∧ name = username)
            ∨ (u ≠ userID ∧ usernames d !! u = Some name)) as Hun.
  { intros u name. rewrite Eu. destruct (decide (userID = u)) as [<-|Hu].
    - rewrite lookup_insert_eq. intros [= <-]. by left.
    - rewrite lookup_insert_ne by done. by right. }
  split; rewrite ?Es, ?Eb, ?Em, ?Ec, ?Et; try done.
  - intros Hs u pos Hu.
    destruct (Hpos u pos Hu) as [Hold|H0]; [by eapply Hc|done].
  - intros Hs u pos Hu.
    destruct (Hpos u pos Hu) as [Hold|H0]; [by eapply Hcalls|].
    rewrite H0. specialize (Hns Hs). simpl. lia.
  - intros u1 u2 name H1 H2.
    destruct (Hun u1 name H1) as [[E1 N1]|[Hu1 Ho1]],
             (Hun u2 name H2) as [[E2 N2]|[Hu2 Ho2]].
    + congruence.
    + exfalso. subst name. apply Hfree, elem_of_roster_values. by exists u2.
    + exfalso. subst name. apply Hfree, elem_of_roster_values. by exists u1.
    + by eapply Hinj.
  - intros u Hu. destruct (Hun u "" Hu) as [[_ <-]|[_ Hold]]; [done|].
    by apply (Hnames u).
Qed.

Lemma room_invariant_bid bidPrice userID d :
  room_invariant d → started d = true → room_invariant (bidRoom bidPrice userID d).
Proof.
  intros [Hb Hp Hc Hn Hns Hdir Hcalls Hinj Hnames] Hs.
  split; simpl; try done; rewrite Hs; done.
Qed.

Lemma room_invariant_finalized finalPx d :
  room_invariant d → room_invariant (finalizedRoom finalPx d).
Proof.
  intros [Hb Hp Hc Hn Hns Hdir Hcalls Hinj Hnames].
  split; simpl; try done.
  - intros Hs u pos. rewrite lookup_fmap.
    destruct (positions d !! u) as [pos0|] eqn:E; [|done].
    intros [= <-]. simpl. by eapply Hc.
  - intros Hs u pos. rewrite lookup_fmap.
    destruct (positions d !! u) as [pos0|] eqn:E; [|done].
    intros [= <-]. simpl. by eapply Hcalls.
Qed.

Section RoomInvariant.
Variable Math_sqrt : Q → Q.

Lemma advancedRoom_position d u pos :
  positions (advancedRoom Math_sqrt d) !! u = Some pos →
  ∃ posm, (settledRound d).2 !! u = Some posm ∧ calls pos = calls posm.
Proof.
  unfold advancedRoom. simpl. rewrite valued_lookup.
  destruct ((settledRound d).2 !! u) as [posm|]; [|done].
  intros [= <-]. by exists posm.
Qed.

Lemma room_invariant_advanced d :
  room_invariant d → room_invariant (advancedRoom Math_sqrt d).
Proof.
  intros [Hb Hp Hc Hn Hns Hdir Hcalls Hinj Hnames].
  split; try done.
  - intros Hs. simpl in *. by rewrite (settledRound_no_bids d (Hb Hs)), Hp.
  - intros Hs u pos Hu. simpl in Hs.
    destruct (advancedRoom_position d u pos Hu) as (posm & Hm & ->).
    rewrite (settledRound_no_bids d (Hb Hs)) in Hm. by eapply Hc.
  - simpl. lia.
  - intros Hs. simpl in *. lia.
  - simpl. destruct (started d) eqn:Hs; simpl; [|done].
    specialize (Hns eq_refl).
    destruct (Z.eqb_spec (promptCount d + 1) 1); [lia|done].
  - intros Hs u pos Hu. simpl in Hs. specialize (Hns Hs).
    destruct (advancedRoom_position d u pos Hu) as (posm & Hm & ->).
    destruct (settledRound_calls d u posm Hm) as [Hstep _].
    assert (Z.abs (calls (default emptyPosition (positions d !! u)))
            ≤ promptCount d - 1)%Z as Hold.
    { destruct (positions d !! u) as [pos0|] eqn:E; simpl; [by eapply Hcalls|lia]. }
    simpl. lia.
Qed.

Lemma room_invariant_reachable st :
  reachable Math_sqrt st →
  ∀ room d, roomsData st !! room = Some d → room_invariant d.
Proof.
  revert st.
  apply (reachable_transition_ind Math_sqrt
           (λ st, ∀ room d, roomsData st !! room = Some d → room_invariant d)).
  { intros room d H. simpl in H. by rewrite lookup_empty in H. }
  assert (∀ st room d', (∀ r d, roomsData st !! r = Some d → room_invariant d) →
            room_invariant d' →
            ∀ r d, <[room := d']> (roomsData st) !! r = Some d → room_invariant d)
    as Hupd.
  { intros st room d' IH Hd' r d. destruct (decide (room = r)) as [<-|Hne].
    - rewrite lookup_insert_eq. by intros [= <-].
    - rewrite lookup_insert_ne by done. apply IH. }
  intros st st' _ IH [|room userID Hne Hfresh|adminID room data now Hr Hd Hs
             |adminID room data Hr Hd|room username userID data Hu Hin Hd Ht Hn
             |bidPrice userID room data Hr Hd Hs Ho|adminID room data finalPx Hr Hd
             |adminID room data Hr Hd].
  - done.
  - apply Hupd; [done|apply room_invariant_init].
  - apply Hupd; [done|]. apply room_invariant_started; [by eapply IH|done].
  - apply Hupd; [done|]. apply room_invariant_advanced. by eapply IH.
  - apply Hupd; [done|]. apply room_invariant_joined; [by eapply IH|done..].
  - apply Hupd; [done|]. apply room_invariant_bid; [by eapply IH|done].
  - apply Hupd; [done|]. apply room_invariant_finalized. by eapply IH.
  - intros r d. simpl. destruct (decide (room = r)) as [<-|Hne].
    + by rewrite lookup_delete_eq.
    + rewrite lookup_delete_ne by done. apply IH.
Qed.
End RoomInvariant.

Section RoomFacts.
Variable Math_sqrt : Q → Q.

(** X7.  Before a game is started nothing is traded: in every state the
    server reaches, a room that is not started holds no bid, has the market
    price 0, and none of its players holds or owes an option. *)
Theorem lobby_is_idle st room d :
  reachable Math_sqrt st →
  roomsData st !! room = Some d →
  started d = false →
  bids d = ∅
  ∧ marketPrice d = 0%Q
  ∧ ∀ u pos, positions d !! u = Some pos → calls pos = 0%Z.
Proof.
  intros Hreach Hd Hs.
  pose proof (room_invariant_reachable Math_sqrt st Hreach room d Hd) as Hinv.
  split; [by apply (inv_lobby_bids d Hinv)|].
  split; [by apply (inv_lobby_price d Hinv)|].
  by apply (inv_lobby_calls d Hinv).
Qed.

(** X8.  In every state the server reaches, whatever events came in between,
    the direction of a room is read off its round counter: SellCall when the
    counter is even and BuyCall when it is odd, except that the round with
    counter 1 of a started game is a SellCall round.  The counter is never
    negative, and it is at least 1 once the game is started. *)
Theorem direction_follows_counter st room d :
  reachable Math_sqrt st →
  roomsData st !! room = Some d →
  (0 ≤ promptCount d)%Z
  ∧ (started d = true → 1 ≤ promptCount d)%Z
  ∧ currentPromptType d
    = if started d && (promptCount d =? 1)%Z then SellCall
      else if Z.even (promptCount d) then SellCall else BuyCall.
Proof.
  intros Hreach Hd.
  pose proof (room_invariant_reachable Math_sqrt st Hreach room d Hd) as Hinv.
  pose proof (inv_counter d Hinv) as Hn.
  split; [done|]. split; [apply (inv_counter_started d Hinv)|].
  rewrite (inv_direction d Hinv). by rewrite promptFor_even.
Qed.

(** X9.  A round moves an option count by at most one: in every state the
    server reaches, the number of options a player of a started game holds
    or owes is at most the number of round advances since the start, the
    round counter less one. *)
Theorem option_count_bounded st room d u pos :
  reachable Math_sqrt st →
  roomsData st !! room = Some d →
  started d = true →
  positions d !! u = Some pos →
  (Z.abs (calls pos) ≤ promptCount d - 1)%Z.
Proof.
  intros Hreach Hd Hs Hu.
  pose proof (room_invariant_reachable Math_sqrt st Hreach room d Hd) as Hinv.
  by apply (inv_calls d Hinv Hs u pos).
Qed.

(** X10.  The roster of every room, in every state the server is in after
    ordinary events: no two player ids have the same username and no
    username is empty; every
    player of the roster has a position; every pending bid is the bid of a
    player of the roster; and a player mapped to a room by [playerToRoom] is
    in the roster of that room's object. *)
Theorem rosters_are_sound st :
  served Math_sqrt st →
  (∀ room d,
     roomsData st !! room = Some d →
     (∀ u1 u2 name,
        usernames d !! u1 = Some name → usernames d !! u2 = Some name → u1 = u2)
     ∧ (∀ u, usernames d !! u ≠ Some "")
     ∧ dom (usernames d) ⊆ dom (positions d)
     ∧ dom (bids d) ⊆ dom (usernames d))
  ∧ (∀ u room,
       playerToRoom st !! u = Some room →
       ∃ d, roomsData st !! room = Some d ∧ is_Some (usernames d !! u)).
Proof.
  intros Hreach%served_reachable.
  pose proof (reachable_consistent Math_sqrt st Hreach) as Hc. split.
  - intros room d Hd.
    pose proof (room_invariant_reachable Math_sqrt st Hreach room d Hd) as Hinv.
    split; [apply (inv_roster_inj d Hinv)|].
    split; [apply (inv_roster_names d Hinv)|].
    split; [by eapply consistent_positions|by eapply consistent_bids].
  - intros u room Hu.
    destruct (consistent_seated st Hc u room Hu) as (d & Hd & Hin).
    exists d. split; [done|]. by apply elem_of_dom.
Qed.
End RoomFacts.

(** A lobby with one seated player, reached by opening "r1" and letting
    "alice" in: no bid, price 0, no options. *)
Lemma lobby_is_idle_witness :
  ∃ st d,
    run sqrt_digits [RoomStart "r1" "adm"; JoinRoom "r1" "alice" "A"] initialState
      = Some st
    ∧ roomsData st !! "r1" = Some d
    ∧ bids d = ∅
    ∧ marketPrice d = 0%Q.
Proof.
  assert (∃ st, run sqrt_digits [RoomStart "r1" "adm"; JoinRoom "r1" "alice" "A"]
                  initialState = Some st) as [st Hrun]
    by (eexists; vm_compute; reflexivity).
  assert (∃ d, roomsData st !! "r1" = Some d ∧ started d = false) as (d & Hd & Hs).
  { vm_compute in Hrun. injection Hrun as <-. eexists. split; vm_compute; reflexivity. }
  destruct (lobby_is_idle sqrt_digits st "r1" d) as (Hb & Hp & _); [|done..|].
  { by eapply run_reachable; [apply reachable_init|]. }
  by exists st, d.
Defined.

Example buy_round_run :
  run sqrt_digits
    (opening_events
       ++ [RoundUpdate "adm"; RoundUpdate "adm"; SubmitBid 95 "A"])
    initialState
  = Some (update_room "r1"
            (bidRoom 95 "A"
               (advancedRoom sqrt_digits
                  (advancedRoom sqrt_digits (room3 SellCall 1 ∅))))
            quiet_round).
Proof. vm_compute. reflexivity. Qed.

(** After two round advances the three-player game is in round 3, an odd
    round and so a buy-call round, and A, who has not traded, is within the
    bound of two options. *)
Lemma direction_follows_counter_witness :
  ∃ st d,
    run sqrt_digits
      (opening_events ++ [RoundUpdate "adm"; RoundUpdate "adm"; SubmitBid 95 "A"])
      initialState = Some st
    ∧ roomsData st !! "r1" = Some d
    ∧ promptCount d = 3%Z
    ∧ currentPromptType d = BuyCall.
Proof.
  eexists _, _. split; [apply buy_round_run|].
  split; [apply lookup_update_room|]. split; [reflexivity|].
  edestruct (direction_follows_counter sqrt_digits) as (_ & _ & Hdir);
    [|apply lookup_update_room|exact Hdir].
  by eapply run_reachable; [apply reachable_init|apply buy_round_run].
Defined.

(** After the round A:12, B:10, C:8 is matched, the game is in round 2 and A
    holds one option, the most the bound allows. *)
Lemma option_count_bounded_witness :
  ∃ st d pos,
    run sqrt_digits
      (opening_events
         ++ [SubmitBid 12 "A"; SubmitBid 10 "B"; SubmitBid 8 "C"; RoundUpdate "adm"])
      initialState = Some st
    ∧ roomsData st !! "r1" = Some d
    ∧ positions d !! "A" = Some pos
    ∧ calls pos = 1%Z
    ∧ (Z.abs (calls pos) ≤ promptCount d - 1)%Z.
Proof.
  assert (∃ st d pos,
            run sqrt_digits
              (opening_events
                 ++ [SubmitBid 12 "A"; SubmitBid 10 "B"; SubmitBid 8 "C";
                     RoundUpdate "adm"])
              initialState = Some st
            ∧ roomsData st !! "r1" = Some d
            ∧ positions d !! "A" = Some pos
            ∧ calls pos = 1%Z
            ∧ started d = true)
    as (st & d & pos & Hrun & Hd & Hp & Hc & Hs).
  { eexists _, _, _. split; [vm_compute; reflexivity|].
    split; [vm_compute; reflexivity|]. split; [vm_compute; reflexivity|].
    split; vm_compute; reflexivity. }
  exists st, d, pos. repeat (split; [done|]).
  apply (option_count_bounded sqrt_digits st "r1" d "A" pos);
    [|assumption..].
  eapply run_reachable; [apply reachable_init|exact Hrun].
Defined.

Lemma rosters_are_sound_witness :
  dom (bids (room3 SellCall 1 sell_bids)) ⊆ dom (usernames (room3 SellCall 1 sell_bids))
  ∧ ∃ d, roomsData sell_round !! "r1" = Some d ∧ is_Some (usernames d !! "B").
Proof.
  destruct (rosters_are_sound sqrt_digits sell_round sell_round_served)
    as [Hroom Hplayer].
  split.
  - destruct (Hroom "r1" (room3 SellCall 1 sell_bids)) as (_ & _ & _ & H);
      [vm_compute; reflexivity|done].
  - apply (Hplayer "B" "r1"). vm_compute. reflexivity.
Defined.

(** ** Bids *)



Section Matching.
Variable Math_sqrt : Q → Q.

(** The events a round advance without bids emits: no trade report. *)
Lemma roundUpdate_no_bids_out adminID room st data :
  truthy (adminToRoom st !! adminID) = Some room →
  roomsData st !! room = Some data → bids data = ∅ →
  ∃ broadcastPositions promptType round,
    roundUpdate Math_sqrt adminID st =
      Some (update_room room (advancedRoom Math_sqrt data) st,
            [ToRoom room (positionsUpdated broadcastPositions);
             ToRoom room (newTradePrompt promptType round)]).
Proof.
  intros Hr Hd Hb. eexists _, _, _.
  erewrite roundUpdate_eq; [|done| |apply lookup_update_room].
  2:{ rewrite (processRoundBids_no_bids _ _ _ _ Hd Hb).
      apply (broadcastPositionsAndSharpe_eq _ _ _ _ Hd). }
  rewrite update_room_twice. simpl. do 2 f_equal.
  unfold advancedRoom. rewrite (settledRound_no_bids data Hb). simpl.
  f_equal. destruct data; simpl in *. by subst.
Qed.

(** X12.  A round advance clears the bids, so a bid is matched at most once:
    after any round advance the room holds no bid, and a second round
    advance right after it reports no trade, leaves the market price and
    every option count as they are, and only compounds the cash. *)
Theorem bids_are_matched_once adminID room st data :
  truthy (adminToRoom st !! adminID) = Some room →
  roomsData st !! room = Some data →
  ∃ st1 out1 d1 st2 broadcastPositions promptType round d2,
    roundUpdate Math_sqrt adminID st = Some (st1, out1)
    ∧ roomsData st1 !! room = Some d1
    ∧ bids d1 = ∅
    ∧ roundUpdate Math_sqrt adminID st1
      = Some (st2, [ToRoom room (positionsUpdated broadcastPositions);
                    ToRoom room (newTradePrompt promptType round)])
    ∧ roomsData st2 !! room = Some d2
    ∧ bids d2 = ∅
    ∧ marketPrice d2 = marketPrice d1
    ∧ ∀ u pos1,
        positions d1 !! u = Some pos1 →
        ∃ pos2,
          positions d2 !! u = Some pos2
          ∧ calls pos2 = calls pos1
          ∧ cash pos2 = (cash pos1 * (1 + riskFreeStepRate))%Q.
Proof.
  intros Hr Hd.
  destruct (roundUpdate_advancedRoom Math_sqrt _ _ _ _ Hr Hd) as [out1 Hout1].
  destruct (roundUpdate_no_bids_out adminID room
              (update_room room (advancedRoom Math_sqrt data) st)
              (advancedRoom Math_sqrt data))
    as (bp & pt & round & Hout2); [done|apply lookup_update_room|done|].
  eexists _, _, _, _, _, _, _, _. split; [exact Hout1|].
  split; [apply lookup_update_room|]. split; [done|].
  split; [exact Hout2|]. split; [apply lookup_update_room|]. split; [done|].
  split.
  { simpl. by rewrite settledRound_no_bids. }
  intros u pos1 Hu.
  assert (positions (advancedRoom Math_sqrt (advancedRoom Math_sqrt data))
          = valued Math_sqrt (marketPrice (advancedRoom Math_sqrt data))
              (positions (advancedRoom Math_sqrt data))) as ->.
  { unfold advancedRoom at 1. by rewrite settledRound_no_bids. }
  rewrite valued_lookup, Hu. simpl. eexists. split; [done|]. done.
Qed.

Lemma StronglySorted_lookup {A} (R : relation A) (l : list A) i j x y :
  StronglySorted R l → (i < j)%nat → l !! i = Some x → l !! j = Some y → R x y.
Proof.
  intros Hl. revert i j x y.
  induction Hl as [|a l Hl IH Hall]; intros i j x y Hij Hi Hj.
  - done.
  - destruct j as [|j]; [lia|]. destruct i as [|i].
    + simpl in *. injection Hi as <-. rewrite Forall_forall in Hall.
      apply Hall. by eapply list_elem_of_lookup_2.
    + simpl in *. apply (IH i j); [lia|done..].
Qed.



End Matching.

(** The round A:12, B:10, C:8 is matched at 10; a second round advance
    leaves the price at 10. *)
Lemma bids_are_matched_once_witness :
  ∃ st1 out1 d1 st2 out2 d2,
    roundUpdate sqrt_digits "adm" sell_round = Some (st1, out1)
    ∧ roomsData st1 !! "r1" = Some d1
    ∧ roundUpdate sqrt_digits "adm" st1 = Some (st2, out2)
    ∧ roomsData st2 !! "r1" = Some d2
    ∧ marketPrice d1 = 10%Q
    ∧ marketPrice d2 = 10%Q.
Proof.
  destruct (bids_are_matched_once sqrt_digits "adm" "r1" sell_round
              (room3 SellCall 1 sell_bids))
    as (st1 & out1 & d1 & st2 & bp & pt & round & d2
        & H1 & Hd1 & _ & H2 & Hd2 & _ & Hmp & _); [vm_compute; reflexivity..|].
  assert (marketPrice d1 = 10%Q) as Hten.
  { vm_compute in H1. injection H1 as <- _.
    vm_compute in Hd1. injection Hd1 as <-. reflexivity. }
  eexists st1, out1, d1, st2, _, d2. repeat (split; [done|]). congruence.
Defined.



(** ** Starting and finalizing *)

Section StartAndFinal.
Variable Math_sqrt : Q → Q.

(** X15.  [finalizeGame] settles on paper only, and every time it is sent.
    It sets [gameOver] and appends the final value to every history, and
    changes nothing else: cash and option counts, bids, market price, round
    counter, direction, roster and the [started] flag are as before, also
    for a game that was never started.  A second [finalizeGame] is carried
    out like the first and appends a second final value. *)
Theorem finalizeGame_only_settles adminID room st d finalPx :
  truthy (adminToRoom st !! adminID) = Some room →
  roomsData st !! room = Some d →
  ∃ st1 out1 d1,
    finalizeGame Math_sqrt adminID finalPx st = Some (st1, out1)
    ∧ roomsData st1 !! room = Some d1
    ∧ gameOver d1 = true
    ∧ started d1 = started d
    ∧ bids d1 = bids d
    ∧ marketPrice d1 = marketPrice d
    ∧ promptCount d1 = promptCount d
    ∧ currentPromptType d1 = currentPromptType d
    ∧ usernames d1 = usernames d
    ∧ (∀ u pos,
         positions d !! u = Some pos →
         ∃ pos1,
           positions d1 !! u = Some pos1
           ∧ cash pos1 = cash pos ∧ calls pos1 = calls pos)
    ∧ ∀ finalPx2, ∃ st2 out2 d2,
        finalizeGame Math_sqrt adminID finalPx2 st1 = Some (st2, out2)
        ∧ roomsData st2 !! room = Some d2
        ∧ ∀ u pos,
            positions d !! u = Some pos →
            ∃ pos2,
              positions d2 !! u = Some pos2
              ∧ portfolioHistory pos2
                = portfolioHistory pos
                    ++ [finalCash finalPx pos; finalCash finalPx2 pos].
Proof.
  intros Hr Hd. eexists _, _, _.
  split; [by apply finalizeGame_eq|]. split; [apply lookup_update_room|].
  repeat (split; [done|]). split.
  { intros u pos Hu. simpl. rewrite lookup_fmap, Hu. simpl. by eexists. }
  intros finalPx2. eexists _, _, _.
  split; [apply finalizeGame_eq; [done|apply lookup_update_room]|].
  split; [apply lookup_update_room|].
  intros u pos Hu. simpl. rewrite !lookup_fmap, Hu. simpl. eexists. split; [done|].
  simpl. by rewrite <- app_assoc.
Qed.

(** X16.  [startGame] takes effect once.  For a room in the lobby it sets
    [started], makes the round counter 1 and the direction SellCall, and
    gives every position its opening valuation, [cash + calls * marketPrice],
    which in a state the server reaches is the cash itself; bids, roster,
    cash and option counts are untouched.  For a started room it does
    nothing and emits nothing, so a second [startGame] neither reseeds the
    histories nor resets the counter. *)
Theorem startGame_takes_effect_once adminID room now st d :
  reachable Math_sqrt st →
  truthy (adminToRoom st !! adminID) = Some room →
  roomsData st !! room = Some d →
  (started d = true → startGame adminID now st = Some (st, []))
  ∧ (started d = false →
     ∃ st1 out d1,
       startGame adminID now st = Some (st1, out)
       ∧ roomsData st1 !! room = Some d1
       ∧ started d1 = true
       ∧ promptCount d1 = 1%Z
       ∧ currentPromptType d1 = SellCall
       ∧ bids d1 = bids d
       ∧ usernames d1 = usernames d
       ∧ (∀ u pos,
            positions d !! u = Some pos →
            ∃ opening,
              positions d1 !! u
              = Some (mkPosition (cash pos) (calls pos)
                        (portfolioHistory pos ++ [opening]) (sharpe pos))
              ∧ (opening == cash pos)%Q)
       ∧ ∀ now', startGame adminID now' st1 = Some (st1, [])).
Proof.
  intros Hreach Hr Hd. split.
  - intros Hs. unfold startGame. by rewrite Hr, Hd, Hs.
  - intros Hs.
    destruct (startGame_eq adminID now room st d Hr Hd Hs)
      as (d1 & out & Hstart & Hcount & Htype & Hstarted & Hpos).
    pose proof (room_invariant_reachable Math_sqrt st Hreach room d Hd) as Hinv.
    exists (update_room room d1 st), out, d1.
    split; [done|]. split; [apply lookup_update_room|].
    assert (bids d1 = bids d ∧ usernames d1 = usernames d) as [Hb Hu].
    { unfold startGame in Hstart. rewrite Hr, Hd, Hs in Hstart.
      injection Hstart as Hst _.
      apply (f_equal (λ m, m !! room)) in Hst.
      rewrite !lookup_insert_eq in Hst. by injection Hst as <-. }
    repeat (split; [done|]). split.
    + intros u pos Hpu. eexists. rewrite Hpos, lookup_fmap, Hpu. simpl.
      split; [reflexivity|].
      rewrite (inv_lobby_calls d Hinv Hs u pos Hpu). simpl.
      change (inject_Z 0) with 0%Q. lra.
    + intros now'. unfold startGame. simpl.
      by rewrite Hr, lookup_insert_eq, Hstarted.
Qed.
End StartAndFinal.

(** Finalizing the holder's room twice, at 120 and at 130: A's cash stays 50
    and A's history gets 90 and then 110. *)
Lemma finalizeGame_only_settles_witness :
  ∃ st1 out1 st2 out2 d2 pos2,
    finalizeGame sqrt_digits "adm" 120 holder_round = Some (st1, out1)
    ∧ finalizeGame sqrt_digits "adm" 130 st1 = Some (st2, out2)
    ∧ roomsData st2 !! "r1" = Some d2
    ∧ positions d2 !! "A" = Some pos2
    ∧ portfolioHistory pos2 = [100; 110; 90; 110]%Q.
Proof.
  destruct (finalizeGame_only_settles sqrt_digits "adm" "r1" holder_round
              holder_room 120)
    as (st1 & out1 & d1 & H1 & _ & _ & _ & _ & _ & _ & _ & _ & _ & Hagain);
    [vm_compute; reflexivity..|].
  destruct (Hagain 130%Q) as (st2 & out2 & d2 & H2 & Hd2 & Hpos).
  destruct (Hpos "A" (mkPosition 50 2 [100%Q; 110%Q] None))
    as (pos2 & HA & Hh); [vm_compute; reflexivity|].
  by exists st1, out1, st2, out2, d2, pos2.
Defined.

Lemma lobby3_reachable :
  ∃ st,
    run sqrt_digits
      [RoomStart "r1" "adm"; JoinRoom "r1" "alice" "A"; JoinRoom "r1" "bob" "B";
       JoinRoom "r1" "carol" "C"] initialState = Some st
    ∧ reachable sqrt_digits st
    ∧ startGame "adm" 0 st = Some (quiet_round,
                                   [ToRoom "r1" gameStartedPlayer;
                                    ToSocket gameStartedAdmin;
                                    ToRoom "r1" (newTradePrompt SellCall 1)]).
Proof.
  assert (∃ st,
            run sqrt_digits
              [RoomStart "r1" "adm"; JoinRoom "r1" "alice" "A";
               JoinRoom "r1" "bob" "B"; JoinRoom "r1" "carol" "C"] initialState
            = Some st) as [st Hrun] by (eexists; vm_compute; reflexivity).
  exists st. split; [done|].
  split; [by eapply run_reachable; [apply reachable_init|]|].
  vm_compute in Hrun. injection Hrun as <-. vm_compute. reflexivity.
Qed.

(** The three players are seated and the admin starts the game, twice: the
    second [startGame] changes nothing. *)
Lemma startGame_takes_effect_once_witness :
  ∃ st d st1 out d1,
    roomsData st !! "r1" = Some d
    ∧ started d = false
    ∧ startGame "adm" 0 st = Some (st1, out)
    ∧ roomsData st1 !! "r1" = Some d1
    ∧ promptCount d1 = 1%Z
    ∧ startGame "adm" 5 st1 = Some (st1, []).
Proof.
  destruct lobby3_reachable as (st & Hrun & Hreach & Hstart).
  assert (∃ d, roomsData st !! "r1" = Some d ∧ started d = false) as (d & Hd & Hs).
  { vm_compute in Hrun. injection Hrun as <-.
    eexists. split; vm_compute; reflexivity. }
  destruct (startGame_takes_effect_once sqrt_digits "adm" "r1" 0 st d Hreach)
    as [_ Hlobby]; [|done|].
  { vm_compute in Hrun. injection Hrun as <-. vm_compute. reflexivity. }
  destruct (Hlobby Hs) as (st1 & out & d1 & H1 & Hd1 & _ & Hc & _ & _ & _ & _ & Hagain).
  exists st, d, st1, out, d1. repeat (split; [done|]). apply Hagain.
Defined.

(** ** The status of a room only moves forward *)

Section Status.
Variable Math_sqrt : Q → Q.

(** X17.  Whatever event the server handles in a state it reaches, a room
    object that is there before and after keeps its admin and its strike
    price; a started game stays started and a finished game stays finished;
    and nobody leaves the roster. *)
Theorem status_only_advances ev st st' out room d d' :
  reachable Math_sqrt st →
  handle Math_sqrt ev st = Some (st', out) →
  roomsData st !! room = Some d →
  roomsData st' !! room = Some d' →
  admin d' = admin d
  ∧ strikePrice d' = strikePrice d
  ∧ (started d = true → started d' = true)
  ∧ (gameOver d = true → gameOver d' = true)
  ∧ dom (usernames d) ⊆ dom (usernames d').
Proof.
  intros Hreach Hstep Hd Hd'.
  pose proof (wellformed_reachable Math_sqrt st Hreach) as Hwf.
  apply handle_transition in Hstep.
  destruct Hstep as [|r userID Hne Hfresh|adminID r data now Hr Hdr Hs
             |adminID r data Hr Hdr|r username userID data Hu Hin Hdr Ht Hn
             |bidPrice userID r data Hr Hdr Hs Ho|adminID r data finalPx Hr Hdr
             |adminID r data Hr Hdr].
  - rewrite Hd in Hd'. by injection Hd' as <-.
  - simpl in Hd'. destruct (decide (r = room)) as [->|Hne'].
    + exfalso. apply Hfresh, (wf_rooms st Hwf). by exists d.
    + rewrite lookup_insert_ne in Hd' by done. rewrite Hd in Hd'.
      by injection Hd' as <-.
  - destruct (decide (r = room)) as [->|Hne].
    + rewrite Hd in Hdr. injection Hdr as <-.
      rewrite lookup_update_room in Hd'. by injection Hd' as <-.
    + rewrite lookup_update_room_ne in Hd' by done. rewrite Hd in Hd'.
      by injection Hd' as <-.
  - destruct (decide (r = room)) as [->|Hne].
    + rewrite Hd in Hdr. injection Hdr as <-.
      rewrite lookup_update_room in Hd'. by injection Hd' as <-.
    + rewrite lookup_update_room_ne in Hd' by done. rewrite Hd in Hd'.
      by injection Hd' as <-.
  - simpl in Hd'. destruct (decide (r = room)) as [->|Hne].
    + rewrite Hd in Hdr. injection Hdr as <-.
      rewrite lookup_insert_eq in Hd'. injection Hd' as <-.
      destruct (joinedRoom_fields username userID d) as (Es & Eo & _ & _ & _ & _ & Eu).
      rewrite Es, Eo, Eu. unfold joinedRoom. simpl.
      split; [by destruct (positions d !! userID)|].
      split; [by destruct (positions d !! userID)|].
      split; [done|]. split; [done|].
      rewrite dom_insert. apply union_subseteq_r.
    + rewrite lookup_insert_ne in Hd' by done. rewrite Hd in Hd'.
      by injection Hd' as <-.
  - destruct (decide (r = room)) as [->|Hne].
    + rewrite Hd in Hdr. injection Hdr as <-.
      rewrite lookup_update_room in Hd'. by injection Hd' as <-.
    + rewrite lookup_update_room_ne in Hd' by done. rewrite Hd in Hd'.
      by injection Hd' as <-.
  - destruct (decide (r = room)) as [->|Hne].
    + rewrite Hd in Hdr. injection Hdr as <-.
      rewrite lookup_update_room in Hd'. by injection Hd' as <-.
    + rewrite lookup_update_room_ne in Hd' by done. rewrite Hd in Hd'.
      by injection Hd' as <-.
  - simpl in Hd'. destruct (decide (r = room)) as [->|Hne].
    + by rewrite lookup_delete_eq in Hd'.
    + rewrite lookup_delete_ne in Hd' by done. rewrite Hd in Hd'.
      by injection Hd' as <-.
Qed.
End Status.

(** A bid arrives after the game of the three-player room is finalized: the
    room is still started and still over. *)
Lemma status_only_advances_witness :
  ∃ d', roomsData finished_game !! "r1" = Some d'
        ∧ started d' = true ∧ gameOver d' = true.
Proof.
  assert (reachable sqrt_digits finished_game) as Hreach.
  { eapply (run_reachable sqrt_digits (opening_events ++ [FinalizeGame "adm" 100]));
      [apply reachable_init|vm_compute; reflexivity]. }
  destruct (status_only_advances sqrt_digits (SubmitBid 5 "A") finished_game
              finished_game [] "r1" finished_room finished_room Hreach)
    as (_ & _ & Hs & Ho & _); [vm_compute; reflexivity..|].
  exists finished_room. split; [vm_compute; reflexivity|].
  split; [by apply Hs|by apply Ho].
Defined.

(** ** The Sharpe ratio after one return *)

Section OneReturn.
Variable Math_sqrt : Q → Q.

(** X18.  With a single return there is no deviation: for a history of two
    points, the first of them not zero, [computeSharpeRatio] is 0, whatever
    the two values, provided the square root of zero is below the threshold
    (as that of [Math.sqrt] is).  So the first valuation after the opening
    one never gives a player a ratio. *)
Theorem one_return_has_no_ratio v0 v1 :
  (∀ x, (x == 0)%Q → (Math_sqrt x < STDEV_THRESHOLD)%Q) →
  ¬ (v0 == 0)%Q →
  computeSharpeRatio Math_sqrt [v0; v1] = 0%Q.
Proof.
  intros Hsqrt Hv0. unfold computeSharpeRatio. simpl.
  match goal with
  | |- context [Qlt_bool (Math_sqrt ?v) _] =>
      assert (v == 0)%Q as Hv
  end.
  { unfold reduce_sum, stepReturns, or_default. simpl.
    change (inject_Z 1) with 1%Q. field. exact Hv0. }
  apply Hsqrt, Qlt_bool_true in Hv. by rewrite Hv.
Qed.
End OneReturn.

Lemma one_return_has_no_ratio_witness :
  computeSharpeRatio sqrt_digits [100; 88]%Q = 0%Q.
Proof.
  apply one_return_has_no_ratio.
  - intros [n den] Hx. unfold Qeq in Hx. simpl in Hx.
    assert (n = 0%Z) as -> by lia. vm_compute. reflexivity.
  - intros H. vm_compute in H. discriminate H.
Defined.

(** ** Names in a room *)

Lemma roster_values_insert (m : gmap string string) u name other :
  other ∈ (map_to_list (<[u := name]> m)).*2 ↔
  other = name ∨ ∃ u', u' ≠ u ∧ m !! u' = Some other.
Proof.
  rewrite elem_of_roster_values. split.
  - intros [u' Hu']. destruct (decide (u = u')) as [<-|Hne].
    + rewrite lookup_insert_eq in Hu'. injection Hu' as <-. by left.
    + rewrite lookup_insert_ne in Hu' by done. right. by exists u'.
  - intros [->|(u' & Hne & Hu')].
    + exists u. apply lookup_insert_eq.
    + exists u'. by rewrite lookup_insert_ne.
Qed.

(** X19.  A username belongs to one player id at a time, and follows it,
    for an ordinary player id.  Once its join is approved the name is taken
    in that room for every later request.  When the same player id joins
    again under another free name, the id keeps its position, the roster has
    the new name for it, and the old name is free again for anybody. *)
Theorem rejoining_moves_the_name room name1 name2 userID st d :
  ordinary userID →
  name1 ≠ "" → name2 ≠ "" → name1 ≠ name2 →
  room ∈ rooms st → roomsData st !! room = Some d →
  started d && gameOver d = false →
  name1 ∉ (map_to_list (usernames d)).*2 →
  name2 ∉ (map_to_list (usernames d)).*2 →
  ∃ st1 out1 d1 st2 out2 d2,
    joinRoom room name1 userID st = Some (st1, out1)
    ∧ ToSocket joinApproved ∈ out1
    ∧ roomsData st1 !! room = Some d1
    ∧ (∀ other, joinRoom room name1 other st1 = Some (st1, [ToSocket usernameTaken]))
    ∧ joinRoom room name2 userID st1 = Some (st2, out2)
    ∧ ToSocket joinApproved ∈ out2
    ∧ roomsData st2 !! room = Some d2
    ∧ positions d2 = positions d1
    ∧ usernames d2 !! userID = Some name2
    ∧ (∀ other, joinRoom room name2 other st2 = Some (st2, [ToSocket usernameTaken]))
    ∧ ∀ other, ∃ st3 out3,
        joinRoom room name1 other st2 = Some (st3, out3)
        ∧ ToSocket joinApproved ∈ out3.
Proof.
  intros _ Hn1 Hn2 Hne Hin Hd Ht Hfree1 Hfree2.
  destruct (joinRoom_approved room name1 userID st d Hn1 Hin Hd Ht Hfree1)
    as (st1 & d1 & H1 & Hr1 & _ & _ & Hrd1 & Hu1 & Hp1 & Hs1 & Ho1).
  assert (roomsData st1 !! room = Some d1) as Hd1
    by (rewrite Hrd1; apply lookup_insert_eq).
  assert (started d1 && gameOver d1 = false) as Ht1 by by rewrite Hs1, Ho1.
  assert (room ∈ rooms st1) as Hin1 by by rewrite Hr1.
  assert (name2 ∉ (map_to_list (usernames d1)).*2) as Hfree2'.
  { rewrite Hu1, roster_values_insert. intros [?|(u' & _ & Hu')]; [done|].
    apply Hfree2, elem_of_roster_values. by exists u'. }
  destruct (joinRoom_approved room name2 userID st1 d1 Hn2 Hin1 Hd1 Ht1 Hfree2')
    as (st2 & d2 & H2 & Hr2 & _ & _ & Hrd2 & Hu2 & Hp2 & Hs2 & Ho2).
  assert (roomsData st2 !! room = Some d2) as Hd2
    by (rewrite Hrd2; apply lookup_insert_eq).
  assert (started d2 && gameOver d2 = false) as Ht2 by by rewrite Hs2, Ho2.
  assert (room ∈ rooms st2) as Hin2 by by rewrite Hr2.
  assert (is_Some (positions d1 !! userID)) as [pos Hpos].
  { rewrite Hp1. destruct (positions d !! userID) eqn:E; [by eexists|].
    rewrite lookup_insert_eq. by eexists. }
  assert (name1 ∉ (map_to_list (usernames d2)).*2) as Hfree1'.
  { rewrite Hu2, roster_values_insert. intros [?|(u' & Hu'ne & Hu')]; [done|].
    rewrite Hu1, lookup_insert_ne in Hu' by done.
    apply Hfree1, elem_of_roster_values. by exists u'. }
  eexists st1, _, d1, st2, _, d2.
  split; [exact H1|]. split; [apply list_elem_of_further, list_elem_of_here|].
  split; [done|]. split.
  { intros other. apply (joinRoom_taken room name1 other st1 d1); try done.
    rewrite Hu1, roster_values_insert. by left. }
  split; [exact H2|]. split; [apply list_elem_of_further, list_elem_of_here|].
  split; [done|]. split; [by rewrite Hp2, Hpos|].
  split; [rewrite Hu2; apply lookup_insert_eq|]. split.
  { intros other. apply (joinRoom_taken room name2 other st2 d2); try done.
    rewrite Hu2, roster_values_insert. by left. }
  intros other.
  destruct (joinRoom_approved room name1 other st2 d2 Hn1 Hin2 Hd2 Ht2 Hfree1')
    as (st3 & d3 & H3 & _).
  eexists _, _. split; [exact H3|]. apply list_elem_of_further, list_elem_of_here.
Qed.

(** In the lobby of "r1" the player A joins as "alice" and again as "ally":
    "alice" is then free for B. *)
Lemma rejoining_moves_the_name_witness :
  ∃ st1 out1 st2 out2 st3 out3,
    joinRoom "r1" "alice" "A" two_lobbies = Some (st1, out1)
    ∧ joinRoom "r1" "ally" "A" st1 = Some (st2, out2)
    ∧ joinRoom "r1" "alice" "B" st2 = Some (st3, out3)
    ∧ ToSocket joinApproved ∈ out3.
Proof.
  destruct (rejoining_moves_the_name "r1" "alice" "ally" "A" two_lobbies
              (initRoomData "adm"))
    as (st1 & out1 & d1 & st2 & out2 & d2 & H1 & _ & _ & _ & H2 & _ & _ & _ & _ & _
        & Hfree);
    [by apply ordinary_decide|done|done|done|set_solver|vm_compute; reflexivity
    |done|vm_compute; apply not_elem_of_nil..|].
  destruct (Hfree "B") as (st3 & out3 & H3 & Ha3).
  by exists st1, out1, st2, out2, st3, out3.
Defined.

(** ** The session store *)

Module SessionStoreFacts.
Import InMemorySessionStore.

Section Facts.
Context {Data : Type}.
Implicit Types (s : @t Data) (k : string) (v : Data).

Lemma get_set k v s : Map_get k (Map_set k v s) = Some v.
Proof.
  induction s as [|[k0 v0] s IH]; simpl.
  - by rewrite decide_True.
  - destruct (decide (k0 = k)) as [->|Hne]; simpl.
    + by rewrite decide_True.
    + by rewrite decide_False.
Qed.

Lemma get_set_ne k k' v s : k' ≠ k → Map_get k' (Map_set k v s) = Map_get k' s.
Proof.
  intros Hne. induction s as [|[k0 v0] s IH]; simpl.
  - by rewrite decide_False.
  - destruct (decide (k0 = k)) as [->|Hk]; simpl.
    + by rewrite !decide_False.
    + destruct (decide (k0 = k')); [done|apply IH].
Qed.

Lemma get_None k s : Map_get k s = None ↔ k ∉ s.*1.
Proof.
  induction s as [|[k0 v0] s IH]; simpl.
  - split; [intros _; apply not_elem_of_nil|done].
  - rewrite not_elem_of_cons. destruct (decide (k0 = k)) as [->|Hne].
    + split; [done|]. by intros [? _].
    + rewrite IH. split; [by intros ?|by intros [_ ?]].
Qed.

Lemma keys_set_present k v s :
  k ∈ s.*1 → (Map_set k v s).*1 = s.*1.
Proof.
  induction s as [|[k0 v0] s IH]; simpl.
  - by intros ?%elem_of_nil.
  - destruct (decide (k0 = k)) as [->|Hne]; simpl; [done|].
    intros [?|Hin]%elem_of_cons; [done|]. f_equal. by apply IH.
Qed.

Lemma set_absent k v s : k ∉ s.*1 → Map_set k v s = s ++ [(k, v)].
Proof.
  induction s as [|[k0 v0] s IH]; simpl; [done|].
  rewrite not_elem_of_cons. intros [Hne Hnin].
  rewrite decide_False by done. f_equal. by apply IH.
Qed.

Lemma keys_delete_subset k k' s : k' ∈ (Map_delete k s).*1 → k' ∈ s.*1.
Proof.
  induction s as [|[k0 v0] s IH]; simpl; [done|].
  destruct (decide (k0 = k)) as [->|Hne]; simpl.
  - apply list_elem_of_further.
  - rewrite !elem_of_cons. intros [?|?]; [by left|right; by apply IH].
Qed.

Lemma NoDup_delete k s : NoDup s.*1 → NoDup (Map_delete k s).*1.
Proof.
  induction s as [|[k0 v0] s IH]; simpl; [done|].
  rewrite NoDup_cons. intros [Hnin Hnd].
  destruct (decide (k0 = k)) as [->|Hne]; simpl; [done|].
  apply NoDup_cons. split; [|by apply IH].
  intros Hin. by apply Hnin, (keys_delete_subset k).
Qed.

Lemma get_delete k s : NoDup s.*1 → Map_get k (Map_delete k s) = None.
Proof.
  induction s as [|[k0 v0] s IH]; simpl; [done|].
  rewrite NoDup_cons. intros [Hnin Hnd].
  destruct (decide (k0 = k)) as [->|Hne]; simpl.
  - by apply get_None.
  - rewrite decide_False by done. by apply IH.
Qed.

Lemma get_delete_ne k k' s : k' ≠ k → Map_get k' (Map_delete k s) = Map_get k' s.
Proof.
  intros Hne. induction s as [|[k0 v0] s IH]; simpl; [done|].
  destruct (decide (k0 = k)) as [->|Hk]; simpl.
  - by rewrite decide_False.
  - destruct (decide (k0 = k')); [done|apply IH].
Qed.

Lemma built_NoDup s : built s → NoDup s.*1.
Proof.
  induction 1 as [|k v s _ IH|k s _ IH].
  - constructor.
  - unfold saveSession. destruct (decide (k ∈ s.*1)) as [Hin|Hnin].
    + by rewrite keys_set_present.
    + rewrite set_absent, fmap_app by done. simpl.
      apply NoDup_app. split; [done|]. split; [|apply NoDup_singleton].
      intros x Hx ->%list_elem_of_singleton. done.
  - by apply NoDup_delete.
Qed.

Lemma elem_of_get k v s : NoDup s.*1 → (k, v) ∈ s ↔ Map_get k s = Some v.
Proof.
  induction s as [|[k0 v0] s IH]; simpl.
  - intros _. split; [by intros ?%elem_of_nil|done].
  - rewrite NoDup_cons. intros [Hnin Hnd]. rewrite elem_of_cons.
    destruct (decide (k0 = k)) as [->|Hne].
    + split; [|intros [= ->]; by left].
      intros [[= ->]|Hin]; [done|].
      exfalso. apply Hnin. apply list_elem_of_fmap. by exists (k, v).
    + rewrite <- IH by done. split; [|by right].
      intros [[= ? ?]|?]; [congruence|done].
Qed.

End Facts.
End SessionStoreFacts.

(** X20.  The session store is a map that keeps the order of first
    insertion.  For a store built with [saveSession] and [deleteSession]: a
    saved session is found again, and saving or deleting one id changes what
    is found for no other id; a deleted session is not found; the listing of
    [getAllSessions] has every id once and holds exactly the sessions that
    are found; saving an id that is there keeps the order of the listing,
    and a new id goes to its end. *)
Theorem session_store_is_an_ordered_map {Data}
    (s : @InMemorySessionStore.t Data) k v :
  InMemorySessionStore.built s →
  InMemorySessionStore.findSession k (InMemorySessionStore.saveSession k v s)
  = Some v
  ∧ InMemorySessionStore.findSession k (InMemorySessionStore.deleteSession k s)
    = None
  ∧ (∀ k', k' ≠ k →
           InMemorySessionStore.findSession k'
             (InMemorySessionStore.saveSession k v s)
           = InMemorySessionStore.findSession k' s
           ∧ InMemorySessionStore.findSession k'
               (InMemorySessionStore.deleteSession k s)
             = InMemorySessionStore.findSession k' s)
  ∧ NoDup (InMemorySessionStore.getAllSessions s).*1
  ∧ (∀ k' v',
       (k', v') ∈ InMemorySessionStore.getAllSessions s
       ↔ InMemorySessionStore.findSession k' s = Some v')
  ∧ (is_Some (InMemorySessionStore.findSession k s) →
     (InMemorySessionStore.getAllSessions
        (InMemorySessionStore.saveSession k v s)).*1
     = (InMemorySessionStore.getAllSessions s).*1)
  ∧ (InMemorySessionStore.findSession k s = None →
     InMemorySessionStore.getAllSessions
       (InMemorySessionStore.saveSession k v s)
     = InMemorySessionStore.getAllSessions s ++ [(k, v)]).
Proof.
  intros Hb. pose proof (SessionStoreFacts.built_NoDup s Hb) as Hnd.
  unfold InMemorySessionStore.findSession, InMemorySessionStore.saveSession,
    InMemorySessionStore.deleteSession, InMemorySessionStore.getAllSessions.
  split; [apply SessionStoreFacts.get_set|].
  split; [by apply SessionStoreFacts.get_delete|].
  split; [intros k' Hne; split;
          [by apply SessionStoreFacts.get_set_ne
          |by apply SessionStoreFacts.get_delete_ne]|].
  split; [done|]. split; [intros k' v'; by apply SessionStoreFacts.elem_of_get|].
  split.
  - intros [v0 Hv0]. apply SessionStoreFacts.keys_set_present.
    destruct (decide (k ∈ s.*1)) as [|Hnin]; [done|].
    apply SessionStoreFacts.get_None in Hnin. congruence.
  - intros Hnone. apply SessionStoreFacts.set_absent.
    by apply SessionStoreFacts.get_None.
Qed.

(** Two sessions are saved and the first is saved again: it keeps its
    place. *)
Lemma session_store_is_an_ordered_map_witness :
  (InMemorySessionStore.getAllSessions
     (InMemorySessionStore.saveSession "s1" 3%nat
        (InMemorySessionStore.saveSession "s2" 2%nat
           (InMemorySessionStore.saveSession "s1" 1%nat
              InMemorySessionStore.empty)))).*1
  = ["s1"; "s2"].
Proof.
  destruct (session_store_is_an_ordered_map
              (InMemorySessionStore.saveSession "s2" 2%nat
                 (InMemorySessionStore.saveSession "s1" 1%nat
                    InMemorySessionStore.empty)) "s1" 3%nat)
    as (_ & _ & _ & _ & _ & Hkeep & _).
  { repeat constructor. }
  rewrite Hkeep; [reflexivity|]. vm_compute. by eexists.
Defined.

(** ** Reconnection *)

Lemma handshake_cases sessionID fresh1 fresh2 sessions :
  (∃ sid uid,
     sessionID = Some sid ∧ sid ≠ ""
     ∧ InMemorySessionStore.findSession sid sessions = Some (mkSessionData uid)
     ∧ handshake sessionID fresh1 fresh2 sessions = (sid, uid))
  ∨ handshake sessionID fresh1 fresh2 sessions = (fresh1, fresh2).
Proof.
  unfold handshake. destruct sessionID as [sid|]; simpl; [|by right].
  destruct (decide (sid = "")) as [|Hne]; [by right|].
  destruct (InMemorySessionStore.findSession sid sessions) as [[uid]|] eqn:E;
    [|by right].
  left. by exists sid, uid.
Qed.

Lemma connect_store sessionID fresh1 fresh2 sessions st :
  (connect sessionID fresh1 fresh2 sessions st).1
  = InMemorySessionStore.saveSession
      (handshake sessionID fresh1 fresh2 sessions).1
      (mkSessionData (handshake sessionID fresh1 fresh2 sessions).2) sessions.
Proof.
  unfold connect. by destruct (handshake sessionID fresh1 fresh2 sessions).
Qed.

Lemma connect_keeps_session sessionID fresh1 fresh2 sessions st sid uid :
  InMemorySessionStore.findSession sid sessions = Some (mkSessionData uid) →
  fresh1 ≠ sid →
  InMemorySessionStore.findSession sid
    (connect sessionID fresh1 fresh2 sessions st).1
  = Some (mkSessionData uid).
Proof.
  intros Hfound Hfresh. rewrite connect_store.
  unfold InMemorySessionStore.findSession, InMemorySessionStore.saveSession in *.
  destruct (handshake_cases sessionID fresh1 fresh2 sessions)
    as [(sid' & uid' & _ & _ & Hfound' & ->)| ->]; simpl.
  - destruct (decide (sid' = sid)) as [->|Hne].
    + rewrite SessionStoreFacts.get_set.
      unfold InMemorySessionStore.findSession in Hfound'. congruence.
    + by rewrite SessionStoreFacts.get_set_ne.
  - by rewrite SessionStoreFacts.get_set_ne.
Qed.

Lemma connects_keep_session clients sessions sid uid :
  InMemorySessionStore.findSession sid sessions = Some (mkSessionData uid) →
  (∀ sessionID fresh1 fresh2 st,
     (sessionID, fresh1, fresh2, st) ∈ clients → fresh1 ≠ sid) →
  InMemorySessionStore.findSession sid (connects clients sessions)
  = Some (mkSessionData uid).
Proof.
  revert sessions.
  induction clients as [|[[[sessionID fresh1] fresh2] st] clients IH];
    intros sessions Hfound Hfresh; simpl; [done|].
  apply IH.
  - apply connect_keeps_session; [done|].
    apply (Hfresh sessionID fresh1 fresh2 st), list_elem_of_here.
  - intros sessionID' fresh1' fresh2' st' Hin.
    apply (Hfresh sessionID' fresh1' fresh2' st'). by apply list_elem_of_further.
Qed.

(** X21.  A session is resumed.  A client that has connected, and so has
    been given a session id and a user id, gets the same two ids again when
    it offers that session id in a later handshake, however many clients
    have connected in between, provided none of them was issued the same
    session id afresh and the id is not the empty string. *)
Theorem session_is_resumed sessionID fresh1 fresh2 sessions st clients :
  let ids := handshake sessionID fresh1 fresh2 sessions in
  ids.1 ≠ "" →
  (∀ sessionID' fresh1' fresh2' st',
     (sessionID', fresh1', fresh2', st') ∈ clients → fresh1' ≠ ids.1) →
  ∀ fresh1' fresh2',
    handshake (Some ids.1) fresh1' fresh2'
      (connects clients (connect sessionID fresh1 fresh2 sessions st).1)
    = ids.
Proof.
  intros ids Hne Hfresh fresh1' fresh2'.
  assert (InMemorySessionStore.findSession ids.1
            (connects clients (connect sessionID fresh1 fresh2 sessions st).1)
          = Some (mkSessionData ids.2)) as Hfound.
  { apply connects_keep_session; [|done].
    rewrite connect_store. apply SessionStoreFacts.get_set. }
  unfold handshake at 1. simpl. rewrite decide_False by done.
  rewrite Hfound. simpl. by destruct ids.
Qed.

(** A client connects without a session id and is issued "s1" and "u1"; a
    second client is issued "s2" and "u2"; the first client comes back with
    "s1" and is "u1" again. *)
Lemma session_is_resumed_witness :
  handshake (Some "s1") "s3" "u3"
    (connects [(None, "s2", "u2", initialState)]
       (connect None "s1" "u1" InMemorySessionStore.empty initialState).1)
  = ("s1", "u1").
Proof.
  apply (session_is_resumed None "s1" "u1" InMemorySessionStore.empty
           initialState [(None, "s2", "u2", initialState)]).
  - done.
  - intros sessionID' fresh1' fresh2' st' Hin.
    apply list_elem_of_singleton in Hin. by injection Hin as _ -> _ _.
Defined.

Section Reconnect.
Variable Math_sqrt : Q → Q.

(** X22.  The state the server infers for a connecting client.  In every
    state the server reaches the inference does not throw, so the [session]
    message is always sent.  Its page state is 0 exactly when the user id is
    neither the admin of a room nor a player mapped to a room; the client is
    told it may be behind exactly when the page state is 4 or 5, which is
    exactly when the room found for it has a started game; and an id that is
    both an admin and a player is treated as the admin. *)
Theorem session_message_is_sent sessionID userID sessions st :
  reachable Math_sqrt st →
  ∃ code behind,
    (connection sessionID userID sessions st).2
    = Some (mkSessionMessage sessionID userID code behind)
    ∧ (code = 0%Z ↔
       truthy (adminToRoom st !! userID) = None
       ∧ truthy (playerToRoom st !! userID) = None)
    ∧ (behind = true ↔ code = 4%Z ∨ code = 5%Z)
    ∧ (∀ room,
         truthy (adminToRoom st !! userID) = Some room →
         ∃ d, roomsData st !! room = Some d
              ∧ code = if started d then 4%Z else 1%Z)
    ∧ (∀ room,
         truthy (adminToRoom st !! userID) = None →
         truthy (playerToRoom st !! userID) = Some room →
         ∃ d, roomsData st !! room = Some d
              ∧ code = if started d then 5%Z else 3%Z).
Proof.
  intros Hreach.
  pose proof (wellformed_reachable Math_sqrt st Hreach) as Hwf.
  pose proof (reachable_consistent Math_sqrt st Hreach) as Hc.
  unfold connection, inferState. simpl.
  destruct (truthy (adminToRoom st !! userID)) as [room|] eqn:Ha.
  - apply truthy_Some in Ha as [Ha _].
    destruct (wf_admin_owner st Hwf userID room Ha) as (d & Hd & _).
    rewrite Hd. simpl.
    exists (if started d then 4%Z else 1%Z), (started d).
    split; [by destruct (started d)|].
    split; [destruct (started d); (split; [done|by intros [? _]])|].
    split; [destruct (started d);
            (split; [first [done|by left]|by intros [?|?]])|].
    split; [|done].
    intros room' [= <-]. by exists d.
  - destruct (truthy (playerToRoom st !! userID)) as [room|] eqn:Hp.
    + apply truthy_Some in Hp as [Hp _].
      destruct (consistent_seated st Hc userID room Hp) as (d & Hd & _).
      rewrite Hd. simpl.
      exists (if started d then 5%Z else 3%Z), (started d).
      split; [by destruct (started d)|].
      split; [destruct (started d); (split; [done|by intros [_ ?]])|].
      split; [destruct (started d);
              (split; [first [done|by right]|by intros [?|?]])|].
      split; [done|].
      intros room' _ [= <-]. by exists d.
    + exists 0%Z, false. simpl. split; [done|]. split; [done|].
      split; [split; [done|by intros [?|?]]|]. split; done.
Qed.
End Reconnect.

(** In the second round of the three-player game the admin reconnects to
    page state 4 and is told it may be behind. *)
Lemma session_message_is_sent_witness :
  (connection "s" "adm" InMemorySessionStore.empty sell_round).2
  = Some (mkSessionMessage "s" "adm" 4 true).
Proof.
  destruct (session_message_is_sent sqrt_digits "s" "adm"
              InMemorySessionStore.empty sell_round sell_round_reachable)
    as (code & behind & Hmsg & _ & Hbehind & Hadmin & _).
  destruct (Hadmin "r1") as (d & Hd & Hcode); [vm_compute; reflexivity|].
  vm_compute in Hd. injection Hd as <-. simpl in Hcode. subst code.
  rewrite Hmsg. f_equal. f_equal. apply Hbehind. by left.
Defined.

(** ** The pages *)

Section TradeMessage.
Variable Math_sqrt : Q → Q.

(** X23.  What a player reads after a round with bids.  The report of the
    round reaches the room before the positions.  On the player page the
    message is "No trade executed this round." only for a player who did not
    bid; a player whose bid executed reads the own bid price; and a player
    whose bid did not execute is told that the trade was executed, at a
    price that the report does not have. *)
Theorem trade_message_after_round room st data clearing userID :
  roomsData st !! room = Some data →
  clearingPrice data = Some clearing →
  ∃ st' results rest,
    processRoundBids Math_sqrt room st
    = Some (st', ToRoom room (tradeResults results) :: rest)
    ∧ (onTradeResults userID results = NoTradeExecutedThisRound
       ↔ bids data !! userID = None)
    ∧ ∀ bidPx,
        bids data !! userID = Some bidPx →
        onTradeResults userID results
        = YourTradeWasExecutedAt
            (if executes (currentPromptType data) clearing bidPx
             then Some bidPx else None).
Proof.
  intros Hd Hc.
  assert (bids data ≠ ∅) as Hb.
  { intros Hb. apply clearingPrice_None in Hb. congruence. }
  unfold clearingPrice in Hc.
  destruct (js_index _ _) as [[uid c]|] eqn:Hidx; [|done].
  simpl in Hc. injection Hc as ->.
  pose proof (processRoundBids_matched Math_sqrt _ _ _ _ _ Hd Hb Hidx) as Hp.
  simpl in Hp. eexists _, _, _. split; [exact Hp|].
  unfold onTradeResults. rewrite matchBids_result.
  destruct (bids data !! userID) as [bidPx|]; simpl.
  - split; [by split|]. intros ? [= <-]. unfold reportedResult.
    by destruct (executes _ _ _).
  - split; [by split|]. by intros.
Qed.
End TradeMessage.

(** In the round A:12, B:10, C:8, which clears at 10, C's bid does not
    execute, and C reads that the trade was executed. *)
Lemma trade_message_after_round_witness :
  ∃ st' results rest,
    processRoundBids sqrt_digits "r1" sell_round
    = Some (st', ToRoom "r1" (tradeResults results) :: rest)
    ∧ onTradeResults "C" results = YourTradeWasExecutedAt None.
Proof.
  destruct (trade_message_after_round sqrt_digits "r1" sell_round
              (room3 SellCall 1 sell_bids) 10 "C")
    as (st' & results & rest & Hp & _ & Hmsg); [vm_compute; reflexivity..|].
  exists st', results, rest. split; [exact Hp|].
  apply (Hmsg 8%Q). vm_compute. reflexivity.
Defined.

(** X24.  The scoreboard ranks by Sharpe ratio.  Its rows are the entries of
    the final results, each player once; no row has a higher Sharpe ratio
    than a row above it, so that the row with the winner's badge has the
    highest ratio of all. *)
Theorem scoreboard_ranks_by_sharpe results :
  NoDup (sortedPlayers results).*1
  ∧ (∀ u r, (u, r) ∈ sortedPlayers results ↔ default ∅ results !! u = Some r)
  ∧ (∀ i j a b,
       (i ≤ j)%nat →
       sortedPlayers results !! i = Some a →
       sortedPlayers results !! j = Some b →
       (res_sharpe b.2 <= res_sharpe a.2)%Q)
  ∧ ∀ i j a b,
      isWinner i = true →
      sortedPlayers results !! i = Some a →
      sortedPlayers results !! j = Some b →
      (res_sharpe b.2 <= res_sharpe a.2)%Q.
Proof.
  assert (sortedPlayers results ≡ₚ map_to_list (default ∅ results)) as Hperm
    by apply js_sort_Permutation.
  assert (∀ i j a b,
            (i ≤ j)%nat →
            sortedPlayers results !! i = Some a →
            sortedPlayers results !! j = Some b →
            (res_sharpe b.2 <= res_sharpe a.2)%Q) as Hsorted.
  { intros i j a b Hij Hi Hj.
    destruct (decide (i = j)) as [->|Hne].
    { rewrite Hi in Hj. injection Hj as <-. lra. }
    assert (StronglySorted (λ a b, res_sharpe b.2 <= res_sharpe a.2)%Q
              (sortedPlayers results)) as Hs.
    { apply Sorted_StronglySorted; [intros x y z; simpl; lra|].
      apply (js_sort_Sorted cmpSharpe); unfold cmpSharpe; intros x y H; lra. }
    assert (i < j)%nat as Hlt by lia.
    apply (StronglySorted_lookup _ _ i j a b Hs Hlt Hi Hj). }
  split; [rewrite Hperm; apply NoDup_fst_map_to_list|].
  split; [intros u r; rewrite Hperm; apply elem_of_map_to_list|].
  split; [done|].
  intros i j a b Hw. apply Nat.eqb_eq in Hw as ->. apply Hsorted. lia.
Qed.

(** Two players with the ratios -1 and 2: the first row is the player with
    the ratio 2. *)
Lemma scoreboard_ranks_by_sharpe_witness :
  sortedPlayers
    (Some {[ "A" := mkFinalResult (Some "alice") 90 (-1) 0 0 [] 100;
             "B" := mkFinalResult (Some "bob") 110 2 0 0 [] 100 ]})
    !! 0%nat
  = Some ("B", mkFinalResult (Some "bob") 110 2 0 0 [] 100)
  ∧ (-1 <= 2)%Q.
Proof.
  destruct (scoreboard_ranks_by_sharpe
              (Some {[ "A" := mkFinalResult (Some "alice") 90 (-1) 0 0 [] 100;
                       "B" := mkFinalResult (Some "bob") 110 2 0 0 [] 100 ]}))
    as (_ & _ & _ & Hwin).
  split; [vm_compute; reflexivity|].
  apply (Hwin 0%nat 1%nat
           ("B", mkFinalResult (Some "bob") 110 2 0 0 [] 100)
           ("A", mkFinalResult (Some "alice") 90 (-1) 0 0 [] 100));
    [reflexivity|vm_compute; reflexivity..].
Defined.
